(** * Fallback invoker, TTL cache and e-mail helpers: a shallow embedding

    The development follows the Python sources:
    - [AI_AGENTS/services/cache_service.py]  (module [Cache])
    - [AI_AGENTS/agents/llm_manager.py]      (module [LLM])
    - [AI_AGENTS/agents/validation_agent.py],
      [agents/email_workflow.py]             (module [Intent])
    - [AI_AGENTS/utils/email_parser.py]      (module [Parser])
    - [AI_AGENTS/agents/ai_provider_manager.py]
                                             (module [AIProviderManager])
    - [services/file_logger.py], [web_server.py]
                                             (modules [FileLogger], [WebServer])
    - [AI_AGENTS/utils/prompt_builder.py],
      [AI_AGENTS/agents/email_agent.py]      (modules [PromptBuilder],
                                              [EmailAgent])
    - [AI_AGENTS/services/email_service.py]  (module [EmailService])
    - [AI_AGENTS/services/crm_service.py]    (module [CRM], with
      [validate_lead] of [validation_agent.py])
    - [agents/email_workflow.py]             (module [Workflow])
    - [web_server.py], the endpoints that log their request
                                             (module [WebServerMore])
    - [services/file_logger.py], [get_logs]  (module [FileLoggerMore])

    The definitions come first; the facts about each module follow in
    the modules [DictFacts], [CacheFacts], [LLMFacts], [IntentFacts],
    [StrFacts], [ParserFacts], [BatchFacts] and [EmailAgentFacts], and
    then in [CacheMore], [LLMMore], [ParserMoreFacts], [ProviderFacts],
    [EmailServiceFacts], [CRMFacts], [WorkflowFacts] and
    [FileLoggerFacts].

    Conventions.  A Python [str] is the Rocq [string] of the bytes of
    its UTF-8 encoding; its characters are those of [Str.chars].  White
    space ([strip], the class [\s]) and the letters matched under
    [re.IGNORECASE] are those of Python on every character; [lower] is
    a parameter ([Str.Lower]) fixed on ASCII text only, and the facts
    hold for every such function.  A Python exception is a value of
    [exn]; a call that may raise returns a [result].  Only exceptions
    below [Exception] are modelled (a [try/except Exception] catches all
    of them). *)

From Stdlib Require Import List ZArith Lia Bool String Ascii QArith.
From Stdlib Require DecimalString.
Import ListNotations.
Open Scope string_scope.
Open Scope Z_scope.

Set Implicit Arguments.

(* ================================================================== *)
(** * Exceptions and results *)

Inductive exn_kind : Type :=
| KeyError | TypeError | AttributeError | ValueError | IndexError
| OverflowError | JSONDecodeError | RuntimeError | HTTPException.

(** [str(e)] is kept as [exn_msg]. *)
Record exn : Type := Exn { exn_class : exn_kind; exn_msg : string }.

Inductive result (A : Type) : Type :=
| Returned (a : A)
| Raised (e : exn).
Arguments Returned {A} a.
Arguments Raised {A} e.

Definition is_raised {A} (r : result A) : bool :=
  match r with Raised _ => true | Returned _ => false end.

(* ================================================================== *)
(** * Effects: a state and exception monad

    A coroutine or function that reads and changes the outside world
    [W] and may raise. *)

Module Eff.
Section Eff.
Variable W : Type.

Definition M (A : Type) : Type := W -> result A * W.

Definition ret {A} (a : A) : M A := fun w => (Returned a, w).

Definition raise {A} (e : exn) : M A := fun w => (Raised e, w).

Definition bind {A B} (m : M A) (f : A -> M B) : M B :=
  fun w =>
    match m w with
    | (Returned a, w') => f a w'
    | (Raised e, w') => (Raised e, w')
    end.

(** A pure computation that may raise. *)
Definition lift {A} (r : result A) : M A := fun w => (r, w).

(** [try: m  except Exception as e: handler e] *)
Definition try_except {A} (m : M A) (handler : exn -> M A) : M A :=
  fun w =>
    match m w with
    | (Returned a, w') => (Returned a, w')
    | (Raised e, w') => handler e w'
    end.

(** [try: m  except K as e: handler e] for one class [K] *)
Definition try_except_class {A} (k : exn_kind -> bool) (m : M A)
           (handler : exn -> M A) : M A :=
  fun w =>
    match m w with
    | (Returned a, w') => (Returned a, w')
    | (Raised e, w') =>
        if k (exn_class e) then handler e w' else (Raised e, w')
    end.
End Eff.
End Eff.

Declare Scope eff_scope.
Delimit Scope eff_scope with eff.
Notation "x <- m ;; k" := (Eff.bind m (fun x => k))
  (at level 61, m at next level, right associativity) : eff_scope.

(* ================================================================== *)
(** * Python dictionaries

    A [dict] keeps its keys in insertion order, and [min(d.keys(), ...)]
    depends on that order, so a dictionary is an association list with
    pairwise distinct keys: assignment to a present key keeps its place,
    assignment to a new key appends. *)

Module Dict.
Section Dict.
Variable V : Type.

Definition dict := list (string * V).

Fixpoint get (k : string) (d : dict) : option V :=
  match d with
  | [] => None
  | (k', v) :: d' => if String.eqb k k' then Some v else get k d'
  end.

(** [k in d] *)
Definition mem (k : string) (d : dict) : bool :=
  match get k d with Some _ => true | None => false end.

(** [d[k] = v] *)
Fixpoint set (k : string) (v : V) (d : dict) : dict :=
  match d with
  | [] => [(k, v)]
  | (k', v') :: d' =>
      if String.eqb k k' then (k', v) :: d' else (k', v') :: set k v d'
  end.

(** [del d[k]] (the callers check [k in d] first) *)
Fixpoint del (k : string) (d : dict) : dict :=
  match d with
  | [] => []
  | (k', v') :: d' =>
      if String.eqb k k' then d' else (k', v') :: del k d'
  end.

Definition keys (d : dict) : list string := map fst d.

Definition wf (d : dict) : Prop := NoDup (keys d).
End Dict.
End Dict.

(* ================================================================== *)
(** * Python strings *)

Module Str.

Definition LF : ascii := ascii_of_nat 10.
Definition DQUOTE : ascii := ascii_of_nat 34.
Definition SQUOTE : ascii := ascii_of_nat 39.
Definition CR : ascii := ascii_of_nat 13.
Definition nl : string := String LF "".

(** ** Characters

    A [str] is kept as the bytes of its UTF-8 encoding.  Concatenation,
    equality, [in], [startswith] and [split] at an ASCII separator give
    the same on the bytes as on the characters; what looks at the
    characters one by one ([len], white space, the patterns of [re])
    goes through [chars]. *)

Definition is_ascii (c : ascii) : bool := (nat_of_ascii c <? 128)%nat.

(** A byte 10xxxxxx: it continues the character begun before it. *)
Definition continuation (c : ascii) : bool :=
  let n := nat_of_ascii c in (128 <=? n)%nat && (n <? 192)%nat.

(** One more byte in front of the characters of a text: a byte that
    is not ASCII, followed by a continuation byte, is part of the same
    character. *)
Definition push (c : ascii) (l : list string) : list string :=
  match l with
  | String d x :: l' =>
      if negb (is_ascii c) && continuation d
      then String c (String d x) :: l'
      else String c "" :: String d x :: l'
  | _ => String c "" :: l
  end.

(** The characters of a string, in order, each as the string of its
    bytes. *)
Fixpoint chars (s : string) : list string :=
  match s with
  | EmptyString => []
  | String c s' => push c (chars s')
  end.

(** No byte of the text is ASCII. *)
Fixpoint no_ascii (x : string) : bool :=
  match x with
  | EmptyString => true
  | String c x' => negb (is_ascii c) && no_ascii x'
  end.

(** The shape of a character: one byte, or bytes none of which is
    ASCII. *)
Definition unit (x : string) : Prop :=
  exists c r, x = String c r /\ (r = "" \/ no_ascii x = true).

(** The string made of the characters of a list, one after the other. *)
Fixpoint join (l : list string) : string :=
  match l with
  | [] => ""
  | x :: l' => x ++ join l'
  end.

(** [len(s)] *)
Definition len (s : string) : nat := List.length (chars s).

(** ** Letter case *)

(** [c.lower()] of an ASCII character *)
Definition lower_char (c : ascii) : ascii :=
  let n := nat_of_ascii c in
  if (65 <=? n)%nat && (n <=? 90)%nat then ascii_of_nat (n + 32) else c.

(** [s.lower()] of ASCII text: the letters A to Z are replaced. *)
Fixpoint lower_ascii (s : string) : string :=
  match s with
  | EmptyString => EmptyString
  | String c s' => String (lower_char c) (lower_ascii s')
  end.

(** The text holds ASCII characters only. *)
Fixpoint ascii_text (s : string) : bool :=
  match s with
  | EmptyString => true
  | String c s' => is_ascii c && ascii_text s'
  end.

(** [s.lower()].  Python lower-cases with the tables of Unicode (the
    letters of every script, U+212A to k, U+0130 to i and a combining
    dot, the capital sigma by its place in the word); the tables are
    not reproduced: [lower] is any function that does on ASCII text
    what Python does there. *)
Class Lower : Type := {
  lower : string -> string;
  lower_on_ascii : forall s, ascii_text s = true -> lower s = lower_ascii s
}.

(** The function that replaces A to Z and keeps every other byte: it
    is Python's [lower] on the texts of the examples, which are
    ASCII. *)
Definition ascii_lower : Lower :=
  {| lower := lower_ascii; lower_on_ascii := fun s _ => eq_refl |}.

(** ** White space *)

(** The white space of ASCII: tab, line feed, vertical tab, form feed,
    carriage return, the four separators 0x1c-0x1f and the space. *)
Definition isspace (c : ascii) : bool :=
  let n := nat_of_ascii c in
  ((9 <=? n)%nat && (n <=? 13)%nat)
  || ((28 <=? n)%nat && (n <=? 32)%nat).

Definition byte_is (n : nat) (c : ascii) : bool :=
  Nat.eqb (nat_of_ascii c) n.

Definition byte_in (lo hi : nat) (c : ascii) : bool :=
  let n := nat_of_ascii c in (lo <=? n)%nat && (n <=? hi)%nat.

(** [x.isspace()] for a character [x], also the class [\s] of [re] on
    a [str]: the white space of ASCII, and U+0085, U+00A0 (bytes C2 85,
    C2 A0), U+1680 (E1 9A 80), U+2000 to U+200A, U+2028, U+2029, U+202F
    (E2 80 80 to E2 80 8A, E2 80 A8, E2 80 A9, E2 80 AF), U+205F
    (E2 81 9F) and U+3000 (E3 80 80). *)
Definition is_space (x : string) : bool :=
  match x with
  | String a EmptyString => isspace a
  | String a (String b EmptyString) =>
      byte_is 194 a && (byte_is 133 b || byte_is 160 b)
  | String a (String b (String c EmptyString)) =>
      (byte_is 225 a && byte_is 154 b && byte_is 128 c)
      || (byte_is 226 a && byte_is 128 b
          && (byte_in 128 138 c || byte_in 168 169 c || byte_is 175 c))
      || (byte_is 226 a && byte_is 129 b && byte_is 159 c)
      || (byte_is 227 a && byte_is 128 b && byte_is 128 c)
  | _ => false
  end.

(** [s.startswith(p)] *)
Fixpoint startswith (p s : string) : bool :=
  match p, s with
  | EmptyString, _ => true
  | String a p', String b s' => Ascii.eqb a b && startswith p' s'
  | String _ _, EmptyString => false
  end.

(** [kw in s] *)
Fixpoint contains (kw s : string) : bool :=
  startswith kw s
  || match s with
     | EmptyString => false
     | String _ s' => contains kw s'
     end.

(** The longest prefix whose characters satisfy [p], and what follows. *)
Fixpoint take_while (p : string -> bool) (t : list string) : list string :=
  match t with
  | [] => []
  | x :: t' => if p x then x :: take_while p t' else []
  end.

Fixpoint drop_while (p : string -> bool) (t : list string) : list string :=
  match t with
  | [] => []
  | x :: t' => if p x then drop_while p t' else t
  end.

(** The characters left when the white space at the end is removed: a
    character is kept when something that is not white space follows
    it or it is not white space itself. *)
Fixpoint rtrim (t : list string) : list string :=
  match t with
  | [] => []
  | x :: t' =>
      match rtrim t' with
      | [] => if is_space x then [] else [x]
      | r => x :: r
      end
  end.

(** [s.strip()]: the white space at both ends is removed. *)
Definition strip (s : string) : string :=
  join (rtrim (drop_while is_space (chars s))).

(** [re.sub] of the class of the two quote characters by the empty
    string: every double and single quote is removed. *)
Fixpoint remove_quotes (s : string) : string :=
  match s with
  | EmptyString => EmptyString
  | String c s' =>
      if Ascii.eqb c DQUOTE || Ascii.eqb c SQUOTE then remove_quotes s'
      else String c (remove_quotes s')
  end.

(** [re.sub] of every run of white space by one space, over the
    characters of the text: [in_run] tells that the previous character
    was white space (its run has already been replaced). *)
Fixpoint collapse_ws (in_run : bool) (t : list string) : string :=
  match t with
  | [] => EmptyString
  | x :: t' =>
      if is_space x
      then if in_run then collapse_ws true t'
           else String " "%char (collapse_ws true t')
      else x ++ collapse_ws false t'
  end.

Definition normalize_ws (s : string) : string :=
  collapse_ws false (chars s).

(** truth value of a string: [bool(s)] *)
Definition truthy (s : string) : bool :=
  match s with EmptyString => false | _ => true end.

End Str.

(* ================================================================== *)
(** * JSON values, as [json.loads] builds them *)

Module Json.

#[local] Set Warnings "-register-all".
Inductive json : Type :=
| JNull
| JBool (b : bool)
| JNum (q : Q)
| JStr (s : string)
| JArr (l : list json)
| JObj (d : list (string * json)).

(** [bool(v)] *)
Definition truthy (v : json) : bool :=
  match v with
  | JNull => false
  | JBool b => b
  | JNum q => negb (Qeq_bool q 0)
  | JStr s => Str.truthy s
  | JArr l => match l with [] => false | _ => true end
  | JObj d => match d with [] => false | _ => true end
  end.

(** [v[key]] for a string key: a lookup in a dictionary, [KeyError]
    when the key is missing, [TypeError] on every other value. *)
Definition subscript (v : json) (key : string) : result json :=
  match v with
  | JObj d =>
      match Dict.get key d with
      | Some x => Returned x
      | None => Raised (Exn KeyError key)
      end
  | _ => Raised (Exn TypeError "indices must be integers or the object is not subscriptable")
  end.

(** [v.get(key, default)]: only a dictionary has the method. *)
Definition get_default (v : json) (key : string) (default : json)
  : result json :=
  match v with
  | JObj d =>
      match Dict.get key d with
      | Some x => Returned x
      | None => Returned default
      end
  | _ => Raised (Exn AttributeError "object has no attribute get")
  end.

End Json.

(* ================================================================== *)
(** * cache_service.py *)

Module Cache.

(** [datetime]: microseconds since [datetime.min]; [datetime.max] is
    9999-12-31T23:59:59.999999.  [datetime + timedelta(seconds=ttl)]
    raises [OverflowError] outside that range (a [ttl] too large for
    [timedelta] itself is outside it as well). *)
Definition datetime := Z.
Definition datetime_max : datetime := 315537897599999999.

Definition datetime_add_seconds (t : datetime) (ttl : Z) : result datetime :=
  let r := t + ttl * 1000000 in
  if (0 <=? r) && (r <=? datetime_max) then Returned r
  else Raised (Exn OverflowError "date value out of range").

Section Cache.
(** The cached values are Python objects; [None] is one of them, so a
    value is an [option V] with [None] for Python's [None]. *)
Variable V : Type.
Definition Any := option V.

Record CacheEntry : Type := mkEntry {
  value : Any;
  created_at : datetime;
  expires_at : datetime;
  access_count : Z;
  last_accessed : datetime
}.

(** [CacheEntry.__init__(value, ttl)]; [now] is the reading of
    [datetime.now()]. *)
Definition CacheEntry_init (now : datetime) (v : Any) (ttl : Z)
  : result CacheEntry :=
  match datetime_add_seconds now ttl with
  | Returned e => Returned (mkEntry v now e 0 now)
  | Raised x => Raised x
  end.

(** [is_expired]: [datetime.now() > self.expires_at] *)
Definition is_expired (now : datetime) (e : CacheEntry) : bool :=
  expires_at e <? now.

(** [access] *)
Definition access (now : datetime) (e : CacheEntry) : CacheEntry :=
  mkEntry (value e) (created_at e) (expires_at e)
          (access_count e + 1) now.

Record CacheService : Type := mkService {
  cache : Dict.dict CacheEntry;
  max_size : Z;
  default_ttl : Z;
  cleanup_interval : Z
}.

(** [CacheService.__init__] *)
Definition CacheService_init : CacheService :=
  mkService [] 1000 3600 300.

Definition with_cache (self : CacheService) (c : Dict.dict CacheEntry)
  : CacheService :=
  mkService c (max_size self) (default_ttl self) (cleanup_interval self).

Definition len (self : CacheService) : Z :=
  Z.of_nat (List.length (cache self)).

(** [get(key)].  [now1] is the clock reading taken by [is_expired],
    [now2] the one taken by [access]; nothing in the body raises, so
    the handler that returns [None] is never entered.  (The start of
    the background task is the operation [cleanup_expired_entries]
    below, run between two calls.) *)
Definition get (now1 now2 : datetime) (key : string) (self : CacheService)
  : Any * CacheService :=
  match Dict.get key (cache self) with
  | None => (None, self)
  | Some entry =>
      if is_expired now1 entry
      then (None, with_cache self (Dict.del key (cache self)))
      else
        let entry' := access now2 entry in
        (value entry', with_cache self (Dict.set key entry' (cache self)))
  end.

(** [min(self.cache.keys(), key=lambda k: self.cache[k].last_accessed)]:
    the first key, in dictionary order, of minimal [last_accessed]. *)
Fixpoint min_by_last_accessed (best : string * CacheEntry)
         (d : Dict.dict CacheEntry) : string * CacheEntry :=
  match d with
  | [] => best
  | x :: d' =>
      min_by_last_accessed
        (if last_accessed (snd x) <? last_accessed (snd best)
         then x else best) d'
  end.

Definition oldest_key (d : Dict.dict CacheEntry) : option string :=
  match d with
  | [] => None
  | x :: d' => Some (fst (min_by_last_accessed x d'))
  end.

(** [_evict_oldest] *)
Definition _evict_oldest (self : CacheService) : CacheService :=
  match oldest_key (cache self) with
  | None => self
  | Some k => with_cache self (Dict.del k (cache self))
  end.

(** [if ttl is None: ttl = self.default_ttl] *)
Definition effective_ttl (self : CacheService) (ttl : option Z) : Z :=
  match ttl with None => default_ttl self | Some t => t end.

(** [set(key, value, ttl)]: the entry is built first (and may raise,
    which the handler turns into [False]), then the size check. *)
Definition set (now : datetime) (key : string) (v : Any) (ttl : option Z)
           (self : CacheService) : bool * CacheService :=
  let ttl := effective_ttl self ttl in
  match CacheEntry_init now v ttl with
  | Raised _ => (false, self)
  | Returned entry =>
      let self1 :=
        if max_size self <=? len self then _evict_oldest self else self in
      (true, with_cache self1 (Dict.set key entry (cache self1)))
  end.

(** [delete(key)] *)
Definition delete (key : string) (self : CacheService)
  : bool * CacheService :=
  if Dict.mem key (cache self)
  then (true, with_cache self (Dict.del key (cache self)))
  else (false, self).

(** [clear()] *)
Definition clear (self : CacheService) : bool * CacheService :=
  (true, with_cache self []).

(** [exists(key)] *)
Definition exists_ (now : datetime) (key : string) (self : CacheService)
  : bool * CacheService :=
  match Dict.get key (cache self) with
  | None => (false, self)
  | Some entry =>
      if is_expired now entry
      then (false, with_cache self (Dict.del key (cache self)))
      else (true, self)
  end.

(** One round of [_cleanup_expired_entries]: the expired keys are
    collected first, each with its own clock reading ([clock i] for the
    [i]-th entry), and deleted afterwards. *)
Fixpoint expired_keys (clock : nat -> datetime) (i : nat)
         (d : Dict.dict CacheEntry) : list string :=
  match d with
  | [] => []
  | (k, e) :: d' =>
      if is_expired (clock i) e
      then k :: expired_keys clock (S i) d'
      else expired_keys clock (S i) d'
  end.

Definition cleanup_expired_entries (clock : nat -> datetime)
           (self : CacheService) : CacheService :=
  with_cache self
    (fold_left (fun d k => Dict.del k d)
               (expired_keys clock 0 (cache self)) (cache self)).

(** [get_or_set(key, factory_func, ttl)].  The factory is a callable
    with its own state [FS]; a call either returns a value or raises.
    [get] and [set] never raise, so the handler is entered exactly when
    the first factory call raises, and it calls the factory again. *)
Section GetOrSet.
Variable FS : Type.
Variable factory_func : FS -> result Any * FS.

Record GetOrSet : Type := mkGetOrSet {
  outcome : result Any;        (* the value returned, or what propagates *)
  service : CacheService;
  factory_state : FS;
  factory_calls : nat          (* how often the factory was called *)
}.

Definition get_or_set (now1 now2 now3 : datetime) (key : string)
           (ttl : option Z) (self : CacheService) (fs : FS) : GetOrSet :=
  let '(v, self1) := get now1 now2 key self in
  match v with
  | Some _ => mkGetOrSet (Returned v) self1 fs 0
  | None =>
      match factory_func fs with
      | (Returned v', fs1) =>
          let '(_, self2) := set now3 key v' ttl self1 in
          mkGetOrSet (Returned v') self2 fs1 1
      | (Raised _, fs1) =>
          let '(r, fs2) := factory_func fs1 in
          mkGetOrSet r self1 fs2 2
      end
  end.
End GetOrSet.

(** The operations of the service, as one step function. *)
Inductive op : Type :=
| OpGet (now1 now2 : datetime) (key : string)
| OpSet (now : datetime) (key : string) (v : Any) (ttl : option Z)
| OpDelete (key : string)
| OpClear
| OpExists (now : datetime) (key : string)
| OpEvictOldest
| OpCleanup (clock : nat -> datetime)
| OpGetOrSet (now1 now2 now3 : datetime) (key : string)
             (factory : list (result Any)) (ttl : option Z).

(** A factory given by the list of the outcomes of its successive
    calls (a call past the end of the list raises). *)
Definition scripted_factory (fs : list (result Any))
  : result Any * list (result Any) :=
  match fs with
  | [] => (Raised (Exn RuntimeError "factory"), [])
  | r :: fs' => (r, fs')
  end.

Definition step (o : op) (self : CacheService) : CacheService :=
  match o with
  | OpGet n1 n2 k => snd (get n1 n2 k self)
  | OpSet n k v t => snd (set n k v t self)
  | OpDelete k => snd (delete k self)
  | OpClear => snd (clear self)
  | OpExists n k => snd (exists_ n k self)
  | OpEvictOldest => _evict_oldest self
  | OpCleanup c => cleanup_expired_entries c self
  | OpGetOrSet n1 n2 n3 k f t =>
      service (get_or_set scripted_factory n1 n2 n3 k t self f)
  end.

Definition run (os : list op) (self : CacheService) : CacheService :=
  fold_left (fun s o => step o s) os self.

(** The invariant of the service: distinct keys, a positive bound, and
    no more entries than the bound. *)
Definition inv (self : CacheService) : Prop :=
  Dict.wf (cache self) /\ 0 < max_size self /\ len self <= max_size self.

(** The store in which [set] inserts: after the eviction, if any. *)
Definition room (self : CacheService) : CacheService :=
  if max_size self <=? len self then _evict_oldest self else self.

End Cache.
Arguments OpGet {V} now1 now2 key.
Arguments OpDelete {V} key.
Arguments OpClear {V}.
Arguments OpExists {V} now key.
Arguments OpEvictOldest {V}.
Arguments OpCleanup {V} clock.
End Cache.

(* ================================================================== *)
(** * llm_manager.py *)

Module LLM.

Inductive Message : Type :=
| SystemMessage (content : string)
| HumanMessage (content : string).

Inductive Provider : Type := OpenAI | Groq | Google | Anthropic.

(** What the manager does not implement itself: the provider clients
    (their constructor and their completion call, which may raise and
    may change the outside world) and the wall clock [time.time()]. *)
Class Host : Type := {
  World : Type;
  Model : Type;
  Time : Type;
  time_time : World -> Time * World;
  time_sub : Time -> Time -> Time;
  new_client : Provider -> string -> result Model;
  ainvoke : Model -> list Message -> World -> result string * World
}.

Record Settings : Type := mkSettings {
  openai_api_key : option string;
  groq_api_key : option string;
  google_api_key : option string;
  anthropic_api_key : option string
}.

Section Manager.
Context {H : Host}.

Record LLMManager : Type := mkManager {
  models : Dict.dict Model;
  model_order : list string
}.

(** [settings.x_api_key and settings.x_api_key != placeholder] *)
Definition configured (key : option string) (placeholder : string)
  : option string :=
  match key with
  | Some k =>
      if Str.truthy k && negb (String.eqb k placeholder) then Some k
      else None
  | None => None
  end.

(** One of the four blocks of [_initialize_models]. *)
Definition register (name : string) (p : Provider)
           (key : option string) (placeholder : string)
           (self : LLMManager) : LLMManager :=
  match configured key placeholder with
  | None => self
  | Some k =>
      match new_client p k with
      | Returned m =>
          mkManager (Dict.set name m (models self))
                    (model_order self ++ [name])%list
      | Raised _ => self
      end
  end.

(** [LLMManager.__init__] with [_initialize_models] *)
Definition _initialize_models (s : Settings) : result LLMManager :=
  let self0 := mkManager [] [] in
  let self1 :=
    register "openai" OpenAI (openai_api_key s) "your_openai_key" self0 in
  let self2 :=
    register "groq" Groq (groq_api_key s) "your_groq_key" self1 in
  let self3 :=
    register "google" Google (google_api_key s) "your_google_key" self2 in
  let self4 :=
    register "anthropic" Anthropic (anthropic_api_key s)
             "your_anthropic_key" self3 in
  match models self4 with
  | [] => Raised (Exn ValueError
            "No LLM models available! Please configure API keys in .env file")
  | _ => Returned self4
  end.

Record GenerateResult : Type := mkGenerate {
  success : bool;
  response : string;
  model_used : option string;
  processing_time : Time;
  error : option string
}.

(** What one call did: its return value, the identifiers whose client
    was invoked, in order, and the world it leaves. *)
Record Run : Type := mkRun {
  returned : GenerateResult;
  invoked : list string;
  world : World
}.

Definition In_list (x : string) (l : list string) : bool :=
  existsb (String.eqb x) l.

(** The list [models_to_try] built at the start of [generate_text]. *)
Definition models_to_try (self : LLMManager)
           (preferred_model : option string) : list string :=
  let first :=
    match preferred_model with
    | Some p =>
        if Str.truthy p && Dict.mem p (models self) then [p] else []
    | None => []
    end in
  fold_left (fun acc model => if In_list model acc then acc
                              else (acc ++ [model])%list)
            (model_order self) first.

(** The messages prepared for every candidate. *)
Definition prepare_messages (prompt : string)
           (system_prompt : option string) : list Message :=
  match system_prompt with
  | Some sp =>
      if Str.truthy sp then [SystemMessage sp; HumanMessage prompt]
      else [HumanMessage prompt]
  | None => [HumanMessage prompt]
  end.

(** The body of the [try] for one candidate: [self.models[name]]
    ([KeyError] when absent, no call then) and the awaited call. *)
Definition attempt (self : LLMManager) (messages : list Message)
           (model_name : string) (w : World)
  : result string * bool * World :=
  match Dict.get model_name (models self) with
  | None => (Raised (Exn KeyError model_name), false, w)
  | Some model =>
      let '(r, w') := ainvoke model messages w in (r, true, w')
  end.

(** The loop over the candidates: the first success ends it. *)
Fixpoint try_models (self : LLMManager) (messages : list Message)
         (names : list string) (w : World)
  : option (string * string) * list string * World :=
  match names with
  | [] => (None, [], w)
  | model_name :: rest =>
      let '(r, called, w') := attempt self messages model_name w in
      let log := if called then [model_name] else [] in
      match r with
      | Returned content => (Some (model_name, content), log, w')
      | Raised _ =>
          let '(res, log', w'') := try_models self messages rest w' in
          (res, (log ++ log')%list, w'')
      end
  end.

Definition apology : string :=
  "I apologize, but I'm unable to generate a response at this time. Please try again later.".

Definition generate_text (self : LLMManager) (prompt : string)
           (system_prompt : option string)
           (preferred_model : option string) (w : World) : Run :=
  let '(start_time, w0) := time_time w in
  let names := models_to_try self preferred_model in
  let messages := prepare_messages prompt system_prompt in
  let '(res, log, w1) := try_models self messages names w0 in
  let '(end_time, w2) := time_time w1 in
  let processing := time_sub end_time start_time in
  match res with
  | Some (model_name, content) =>
      mkRun (mkGenerate true content (Some model_name) processing None)
            log w2
  | None =>
      mkRun (mkGenerate false apology None processing
                        (Some "All LLM models failed to generate response"))
            log w2
  end.

Definition extract_system_prompt : string :=
  "You are an expert email parser. Extract the sender's name from the email content. "
  ++ Str.nl
  ++ "        Return only the name, nothing else. If no clear name is found, return 'Unknown'.".

(** [extract_sender_name]: on failure the result is [None]. *)
Definition extract_sender_name (self : LLMManager)
           (email_content : string) (preferred_model : option string)
           (w : World) : option string * World :=
  let r := generate_text self email_content (Some extract_system_prompt)
                         preferred_model w in
  if success (returned r)
  then
    let name := Str.strip (response (returned r)) in
    (if Str.truthy name && negb (String.eqb name "Unknown")
     then Some name else None, world r)
  else (None, world r).

Definition reply_system_prompt (sender_name : string) : string :=
  "You are a professional email assistant. Generate a helpful, "
  ++ Str.nl
  ++ "        concise reply to " ++ sender_name
  ++ ". Be polite, professional, and address their concerns appropriately."
  ++ Str.nl
  ++ "        Keep the response brief and to the point.".

(** [generate_email_reply] *)
Definition generate_email_reply (self : LLMManager)
           (sender_name email_content : string)
           (preferred_model : option string) (w : World)
  : string * World :=
  let r := generate_text self email_content
                         (Some (reply_system_prompt sender_name))
                         preferred_model w in
  if success (returned r) then (response (returned r), world r)
  else ("Thank you for your email, " ++ sender_name
        ++ ". I'll get back to you soon.", world r).

(** The try-order in the words of the specification: the preferred
    identifier when it is registered, then every other registered
    identifier in registry order. *)
Definition try_order_spec (self : LLMManager)
           (preferred_model : option string) : list string :=
  match preferred_model with
  | Some p =>
      if In_list p (model_order self)
      then p :: filter (fun m => negb (String.eqb m p)) (model_order self)
      else model_order self
  | None => model_order self
  end.

(** A registry as [_initialize_models] leaves it: the identifiers of
    [model_order] are pairwise distinct, are the keys of [models],
    and none is the empty string. *)
Definition registry_ok (self : LLMManager) : Prop :=
  NoDup (model_order self)
  /\ (forall name, In_list name (model_order self)
                   = Dict.mem name (models self))
  /\ In_list "" (model_order self) = false.

(** The world in which the candidate after [names] is attempted when
    all of [names] have raised. *)
Fixpoint world_after (self : LLMManager) (messages : list Message)
         (names : list string) (w : World) : World :=
  match names with
  | [] => w
  | n :: rest =>
      world_after self messages rest
                  (snd (attempt self messages n w))
  end.

(** The outcome of the [i]-th candidate of [names], the ones before it
    having been attempted. *)
Definition outcome_at (self : LLMManager) (messages : list Message)
           (names : list string) (w : World) (i : nat)
  : option (result string) :=
  match nth_error names i with
  | None => None
  | Some n =>
      Some (fst (fst (attempt self messages n
                      (world_after self messages (firstn i names) w))))
  end.

End Manager.

(** A host for examples: a client answers with a fixed text or is
    down; the world counts the calls made, and the clock reads that
    count. *)
Inductive DemoModel : Type :=
| Answers (text : string)
| Down.

Definition demo_host : Host :=
  {| World := nat;
     Model := DemoModel;
     Time := nat;
     time_time := fun w => (w, w);
     time_sub := fun a b => (a - b)%nat;
     new_client := fun p key =>
       match p with
       | OpenAI => Returned Down
       | _ => Returned (Answers ("reply for " ++ key))
       end;
     ainvoke := fun m _ w =>
       match m with
       | Answers text => (Returned text, S w)
       | Down => (Raised (Exn RuntimeError "provider is down"), S w)
       end |}.

(** Two registries on that host. *)
Definition demo_manager : @LLMManager demo_host :=
  @mkManager demo_host
    [("openai", Down); ("groq", Down); ("google", Answers "Hello")]
    ["openai"; "groq"; "google"].

Definition demo_manager_down : @LLMManager demo_host :=
  @mkManager demo_host
    [("openai", Down); ("groq", Down)] ["openai"; "groq"].
End LLM.

(* ================================================================== *)
(** * Intent classification by keywords
      (validation_agent.py, email_workflow.py) *)

Module Intent.
Import Json.

(** The number of keywords of a list that occur in the text:
    [sum(1 for keyword in keywords if keyword in content_lower)]. *)
Definition hits (content_lower : string) (keywords : list string) : nat :=
  List.length (filter (fun keyword => Str.contains keyword content_lower)
                      keywords).

(** [any(keyword in content_lower for keyword in keywords)] *)
Definition any_hit (content_lower : string) (keywords : list string)
  : bool :=
  existsb (fun keyword => Str.contains keyword content_lower) keywords.

(** ** ValidationAgent.determine_intent *)

Definition intent_keywords : Dict.dict (list string) :=
  [ ("sales", ["demo"; "pricing"; "buy"; "purchase"; "cost"; "price";
               "interested"; "product"; "quote"]);
    ("support", ["help"; "issue"; "problem"; "bug"; "error"; "not working";
                 "support"; "assistance"]);
    ("partnership", ["partnership"; "collaborate"; "partner"; "business";
                     "deal"; "collaboration"]);
    ("general", ["hello"; "hi"; "information"; "question"; "inquiry";
                 "contact"]) ].

(** [max(intent_scores, key=intent_scores.get)]: the first key, in
    dictionary order, of maximal score. *)
Fixpoint max_by_score (best : string * nat) (d : Dict.dict nat)
  : string * nat :=
  match d with
  | [] => best
  | x :: d' =>
      max_by_score (if (snd best <? snd x)%nat then x else best) d'
  end.

Definition scores (content_lower : string)
           (table : Dict.dict (list string)) : Dict.dict nat :=
  map (fun entry => (fst entry, hits content_lower (snd entry))) table.

Section Classifiers.
Context {U : Str.Lower}.

Definition determine_intent (email_content subject : string) : string :=
  let content_lower := Str.lower (subject ++ " " ++ email_content) in
  let intent_scores := scores content_lower intent_keywords in
  match intent_scores with
  | [] => "general"
  | x :: rest =>
      let best := max_by_score x rest in
      if (0 <? snd best)%nat then fst best else "general"
  end.

(** The score of a category in a keyword table. *)
Definition score (content_lower : string)
           (table : Dict.dict (list string)) (category : string) : nat :=
  match Dict.get category table with
  | Some keywords => hits content_lower keywords
  | None => 0%nat
  end.

(** The text both classifiers look at. *)
Definition combined (subject email_content : string) : string :=
  Str.lower (subject ++ " " ++ email_content).

(** ** ParserAgent (email_workflow.py) *)

Record EmailPayload : Type := mkPayload {
  from_email : string;
  name : string;
  subject : string;
  email_content : string
}.

Definition parser_keywords : Dict.dict (list string) :=
  [ ("sales", ["demo"; "pricing"; "buy"; "purchase"; "cost"; "price";
               "interested"; "product"]);
    ("support", ["help"; "issue"; "problem"; "bug"; "error"; "not working";
                 "support"]);
    ("partnership", ["partnership"; "collaborate"; "partner"; "business";
                     "deal"]);
    ("general", ["hello"; "hi"; "information"; "question"; "inquiry"]) ].

(** The dictionary that [parse_email] returns. *)
Record ParseResult : Type := mkParse {
  intent : json;
  confidence : json;
  key_requests : json;
  urgency : json;
  parsed_successfully : bool
}.

(** The loop of [_fallback_intent_parsing]: the first intent, in
    dictionary order, one of whose keywords occurs. *)
Fixpoint first_intent_hit (content_lower : string)
         (table : Dict.dict (list string)) : option string :=
  match table with
  | [] => None
  | (intent, keywords) :: table' =>
      if any_hit content_lower keywords then Some intent
      else first_intent_hit content_lower table'
  end.

Definition _fallback_intent_parsing (email_payload : EmailPayload)
  : ParseResult :=
  let content_lower :=
    Str.lower (subject email_payload ++ " " ++ email_content email_payload) in
  match first_intent_hit content_lower parser_keywords with
  | Some intent =>
      mkParse (JStr intent) (JNum (6 # 10)) (JArr []) (JStr "medium") true
  | None =>
      mkParse (JStr "general") (JNum (3 # 10)) (JArr []) (JStr "low") true
  end.

End Classifiers.

Section ParseEmail.
Context {H : LLM.Host} {U : Str.Lower}.
(** [json.loads]: the parsed value, or [JSONDecodeError]. *)
Variable json_loads : string -> result json.
(** The prompt built from the payload (an f-string around the
    sender, the subject and the content). *)
Variable intent_prompt : EmailPayload -> string.

Definition parser_system_prompt : string :=
  "You are an expert email parser. Extract intent and key information accurately.".

(** [parse_email]: the model path, with the keyword fallback in each
    of its three handlers. *)
Definition parse_email (llm_manager : LLM.LLMManager)
           (email_payload : EmailPayload) (w : LLM.World)
  : ParseResult * LLM.World :=
  let r := LLM.generate_text llm_manager (intent_prompt email_payload)
                             (Some parser_system_prompt) None w in
  let w' := LLM.world r in
  if LLM.success (LLM.returned r)
  then
    match json_loads (LLM.response (LLM.returned r)) with
    | Returned parsed_result =>
        match get_default parsed_result "intent" (JStr "general"),
              get_default parsed_result "confidence" (JNum (5 # 10)),
              get_default parsed_result "key_requests" (JArr []),
              get_default parsed_result "urgency" (JStr "low") with
        | Returned i, Returned c, Returned k, Returned u =>
            (mkParse i c k u true, w')
        | _, _, _, _ => (_fallback_intent_parsing email_payload, w')
        end
    | Raised _ => (_fallback_intent_parsing email_payload, w')
    end
  else (_fallback_intent_parsing email_payload, w').
End ParseEmail.

End Intent.

(* ================================================================== *)
(** * email_parser.py *)

Module Parser.
Import Str.

(** The patterns run over the characters of the text. *)

(** U+017F (long s), U+212A (Kelvin sign), U+0130 (capital I with a
    dot) and U+0131 (small i without one), by their bytes. *)
Definition long_s : string :=
  String (ascii_of_nat 197) (String (ascii_of_nat 191) "").
Definition kelvin : string :=
  String (ascii_of_nat 226)
         (String (ascii_of_nat 132) (String (ascii_of_nat 170) "")).
Definition dotted_I : string :=
  String (ascii_of_nat 196) (String (ascii_of_nat 176) "").
Definition dotless_i : string :=
  String (ascii_of_nat 196) (String (ascii_of_nat 177) "").

(** An ASCII character [a] of a pattern under [re.IGNORECASE] against
    a character [x] of the text: the two cases of a letter, and
    besides them the long s for [s], the Kelvin sign for [k], the two
    other letters i for [i]. *)
Definition ci_match (a : ascii) (x : string) : bool :=
  match x with
  | String b EmptyString => Ascii.eqb (lower_char a) (lower_char b)
  | _ =>
      (Ascii.eqb (lower_char a) "s"%char && String.eqb x long_s)
      || (Ascii.eqb (lower_char a) "k"%char && String.eqb x kelvin)
      || (Ascii.eqb (lower_char a) "i"%char
          && (String.eqb x dotted_I || String.eqb x dotless_i))
  end.

(** A literal of a pattern under [re.IGNORECASE]: what follows it in
    the text, when the text starts with it up to case. *)
Fixpoint match_literal (lit : string) (t : list string)
  : option (list string) :=
  match lit, t with
  | EmptyString, _ => Some t
  | String a lit', x :: t' =>
      if ci_match a x then match_literal lit' t' else None
  | String _ _, [] => None
  end.

(** The classes of the patterns. *)
Definition not_lt_nl (x : string) : bool :=
  negb (String.eqb x "<") && negb (String.eqb x nl).
Definition not_gt (x : string) : bool := negb (String.eqb x ">").
Definition not_at_nl (x : string) : bool :=
  negb (String.eqb x "@") && negb (String.eqb x nl).

(** A greedy class at the end of a pattern: the longest run, one
    character at least. *)
Definition run1 (p : string -> bool) (t : list string)
  : option (list string) :=
  match take_while p t with
  | [] => None
  | g => Some g
  end.

(** The tail of the two header patterns: white space, greedy, then
    the group of characters other than the left angle and the line
    feed; the white space gives characters back when the group cannot
    start after it. *)
Fixpoint ws_then_group (t : list string) : option (list string) :=
  match t with
  | [] => None
  | x :: t' =>
      if is_space x
      then match ws_then_group t' with
           | Some g => Some g
           | None => run1 not_lt_nl t
           end
      else run1 not_lt_nl t
  end.

(** The header patterns, a literal followed by [ws_then_group], tried
    at the start of [t]. *)
Definition header_at (lit : string) (t : list string)
  : option (list string) :=
  match match_literal lit t with
  | Some rest => ws_then_group rest
  | None => None
  end.

(** An address in angle brackets at the start of [t]. *)
Definition angle_at (t : list string) : bool :=
  match t with
  | x :: r =>
      String.eqb x "<"
      && match take_while not_gt r, drop_while not_gt r with
         | _ :: _, _ :: _ => true     (* the next one is the right angle *)
         | _, _ => false
         end
  | [] => false
  end.

(** White space, greedy, then the bracketed address. *)
Fixpoint ws_then_angle (t : list string) : bool :=
  match t with
  | [] => false
  | x :: t' =>
      if is_space x then ws_then_angle t' || angle_at t else angle_at t
  end.

(** The third pattern at a start of line: the group, greedy (the
    longer group is tried first), then [ws_then_angle]. *)
Fixpoint name_then_angle (t : list string) : option (list string) :=
  match t with
  | [] => None
  | x :: t' =>
      if not_lt_nl x
      then match name_then_angle t' with
           | Some g => Some (x :: g)
           | None => if ws_then_angle t' then Some [x] else None
           end
      else None
  end.

(** The fourth pattern at a start of line: the group, then the at
    sign. *)
Fixpoint local_then_at (t : list string) : option (list string) :=
  match t with
  | [] => None
  | x :: t' =>
      if not_at_nl x
      then match local_then_at t' with
           | Some g => Some (x :: g)
           | None =>
               match t' with
               | y :: _ => if String.eqb y "@" then Some [x] else None
               | [] => None
               end
           end
      else None
  end.

(** The match at the leftmost position of a list of characters. *)
Fixpoint search (m : list string -> option (list string)) (t : list string)
  : option (list string) :=
  match m t with
  | Some g => Some g
  | None =>
      match t with
      | [] => None
      | _ :: t' => search m t'
      end
  end.

(** The same for a pattern anchored by the caret under
    [re.MULTILINE]: the positions tried are the start of the text and
    the ones after a line feed. *)
Fixpoint search_lines (m : list string -> option (list string))
         (line_start : bool) (t : list string) : option (list string) :=
  match (if line_start then m t else None) with
  | Some g => Some g
  | None =>
      match t with
      | [] => None
      | x :: t' => search_lines m (String.eqb x nl) t'
      end
  end.

(** No position of [pre] starts a match of [m] in the text made of
    [pre] and [rest]: a search there finds what it finds in [rest]. *)
Fixpoint no_match_before (m : list string -> option (list string))
         (pre rest : list string) : bool :=
  match pre with
  | [] => true
  | _ :: pre' =>
      match m (pre ++ rest)%list with
      | Some _ => false
      | None => no_match_before m pre' rest
      end
  end.

(** White space that stays on its line: no character of [ws] but white
    space, and no line feed. *)
Definition blank (ws : string) : bool :=
  forallb (fun x => is_space x && negb (String.eqb x nl)) (chars ws).

(** What ends the group of a header: the end of the text, a line feed
    or a left angle. *)
Definition ends_group (rest : string) : bool :=
  match rest with
  | EmptyString => true
  | String c _ => Ascii.eqb c LF || Ascii.eqb c "<"%char
  end.

(** [re.search(pattern, s)], then [match.group(1)]. *)
Definition re_search (m : list string -> option (list string)) (s : string)
  : option string :=
  option_map join (search m (chars s)).

Definition re_search_lines (m : list string -> option (list string))
           (s : string) : option string :=
  option_map join (search_lines m true (chars s)).

(** The four patterns, each giving its group 1. *)
Definition patterns : list (string -> option string) :=
  [ re_search (header_at "From:");
    re_search (header_at "Sender:");
    re_search_lines name_then_angle;
    re_search_lines local_then_at ].

(** The clean-up of a group. *)
Definition clean (g : string) : string :=
  normalize_ws (remove_quotes (strip g)).

(** [if name and len(name) > 1] *)
Definition acceptable (name : string) : bool :=
  truthy name && (1 <? len name)%nat.

Fixpoint first_name (ps : list (string -> option string))
         (email_content : string) : option string :=
  match ps with
  | [] => None
  | p :: ps' =>
      match p email_content with
      | Some g =>
          let name := clean g in
          if acceptable name then Some name
          else first_name ps' email_content
      | None => first_name ps' email_content
      end
  end.

Definition extract_sender_name_fallback (email_content : string)
  : option string :=
  first_name patterns email_content.

End Parser.

(* ================================================================== *)
(** * Batch processing *)

(** [asyncio.gather] with [return_exceptions=True]: one result per
    task, in the order of the tasks, an exception raised by a task being
    its result.  The interleaving of the tasks at their suspension points
    is not modelled: they run one after the other. *)
Module Asyncio.
Section Gather.
Variables W R : Type.

Fixpoint gather (tasks : list (Eff.M W R)) (w : W) : list (result R) * W :=
  match tasks with
  | [] => ([], w)
  | t :: ts =>
      let '(r, w') := t w in
      let '(rs, w'') := gather ts w' in
      (r :: rs, w'')
  end.
End Gather.
End Asyncio.

(** ** ai_provider_manager.py *)
Module AIProviderManager.

(** An e-mail of the batch is a dictionary; the code reads its key
    [content] only, with the empty string for a missing key. *)
Record Email : Type := mkEmail { content : option string }.

Definition email_get_content (email : Email) : string :=
  match content email with Some c => c | None => "" end.

(** The dictionary returned by [process_single_email]. *)
Inductive SingleResult : Type :=
| SingleOk (sender_name : option string) (reply : string)
           (provider : string)                        (* success: True *)
| SingleError (error : string) (provider : string).   (* success: False *)

(** An entry of the list returned by [batch_process_emails]: the result
    of the task, or the marker with the error and the e-mail. *)
Inductive BatchEntry (R : Type) : Type :=
| Processed (r : R)
| ErrorMarker (error : string) (email : Email).
Arguments Processed {R} r.
Arguments ErrorMarker {R} error email.

(** The entry for one e-mail and the result of its task. *)
Definition classify (R : Type) (email : Email) (r : result R)
  : BatchEntry R :=
  match r with
  | Raised e => ErrorMarker (exn_msg e) email
  | Returned v => Processed v
  end.

Section Manager.
Variable W : Type.
(** Not among the sources: the enumeration [AIProvider] with its
    [value], and the response type and cache helpers behind
    [generate_response], which is taken as the call that yields
    [response.reply] or raises. *)
Variable AIProvider : Type.
Variable provider_value : AIProvider -> string.
Variable generate_response :
  string -> AIProvider -> option string -> Eff.M W string.

Local Open Scope eff_scope.

Definition extract_sender_name (email_content : string)
           (provider : AIProvider) : Eff.M W (option string) :=
  Eff.try_except
    (reply <- generate_response email_content provider
                (Some LLM.extract_system_prompt) ;;
     let name := Str.strip reply in
     Eff.ret (if Str.truthy name && negb (String.eqb name "Unknown")
              then Some name else None))
    (fun _ => Eff.ret None).

Definition reply_system_prompt (sender_name : string) : string :=
  "You are a professional email assistant. Generate a helpful, "
  ++ Str.nl
  ++ "        concise reply to " ++ sender_name
  ++ ". Be polite, professional, and address their concerns appropriately.".

Definition generate_reply (sender_name email_content : string)
           (provider : AIProvider) : Eff.M W string :=
  Eff.try_except
    (generate_response email_content provider
                       (Some (reply_system_prompt sender_name)))
    (fun _ => Eff.ret ("Thank you for your email, " ++ sender_name
                       ++ ". I'll get back to you soon.")).

(** [sender_name or "there"] *)
Definition or_there (sender_name : option string) : string :=
  match sender_name with
  | Some n => if Str.truthy n then n else "there"
  | None => "there"
  end.

Definition process_single_email (email : Email) (provider : AIProvider)
  : Eff.M W SingleResult :=
  Eff.try_except
    (sender_name <- extract_sender_name (email_get_content email)
                                        provider ;;
     reply <- generate_reply (or_there sender_name)
                             (email_get_content email) provider ;;
     Eff.ret (SingleOk sender_name reply (provider_value provider)))
    (fun e => Eff.ret (SingleError (exn_msg e) (provider_value provider))).

(** The loop over [enumerate(results)]; [emails[i]] raises
    [IndexError] past the end of the list. *)
Fixpoint collect (R : Type) (emails : list Email) (i : nat)
         (results : list (result R)) : result (list (BatchEntry R)) :=
  match results with
  | [] => Returned []
  | r :: rs =>
      let entry :=
        match r with
        | Raised e =>
            match nth_error emails i with
            | Some email => Returned (ErrorMarker (exn_msg e) email)
            | None => Raised (Exn IndexError "list index out of range")
            end
        | Returned v => Returned (Processed v)
        end in
      match entry with
      | Raised e => Raised e
      | Returned x =>
          match collect emails (S i) rs with
          | Returned xs => Returned (x :: xs)
          | Raised e => Raised e
          end
      end
  end.

(** [batch_process_emails] for any per-e-mail coroutine. *)
Definition batch_with (R : Type) (task : Email -> Eff.M W R)
           (emails : list Email) : Eff.M W (list (BatchEntry R)) :=
  fun w =>
    let tasks := map task emails in
    let '(results, w') := Asyncio.gather tasks w in
    (collect emails 0 results, w').

Definition batch_process_emails (emails : list Email)
           (provider : AIProvider)
  : Eff.M W (list (BatchEntry SingleResult)) :=
  batch_with (fun email => process_single_email email provider) emails.
End Manager.
End AIProviderManager.

(** ** services/file_logger.py *)
Module FileLogger.
(** The attributes of a [FileLogger] object: the three set by
    [__init__] and the methods of the class. *)
Definition attributes : list string :=
  [ "data_dir"; "senders_file"; "logs_file";
    "__init__"; "_ensure_data_directory"; "_initialize_csv_file";
    "log_email_data"; "log_message"; "get_processed_emails"; "get_logs" ].

(** [file_logger.<name>] *)
Definition getattr (name : string) : result string :=
  if existsb (String.eqb name) attributes then Returned name
  else Raised (Exn AttributeError
                 ("'FileLogger' object has no attribute '" ++ name ++ "'")).
End FileLogger.

(** ** web_server.py *)
Module WebServer.

(** An e-mail of the batch: the keys [content] and [sender_name]. *)
Record Email : Type := mkEmail {
  content : option string;
  sender_name : option string
}.

Inductive BatchItem : Type :=
| ItemOk (index : nat) (sender_name : option string) (reply : string)
| ItemError (index : nat) (error : string).

Definition item_success (r : BatchItem) : bool :=
  match r with ItemOk _ _ _ => true | ItemError _ _ => false end.

Definition item_index (r : BatchItem) : nat :=
  match r with ItemOk i _ _ => i | ItemError i _ => i end.

Record BatchResponse : Type := mkResponse {
  success : bool;
  results : list BatchItem;
  total_processed : nat;
  successful : nat
}.

Section Endpoint.
Context {H : LLM.Host}.
Variable llm_manager : LLM.LLMManager.

Local Open Scope eff_scope.

Definition lift_total {A} (f : LLM.World -> A * LLM.World)
  : Eff.M LLM.World A :=
  fun w => let '(a, w') := f w in (Returned a, w').

Definition is_truthy (s : option string) : bool :=
  match s with Some n => Str.truthy n | None => false end.

Definition or_there (s : option string) : string :=
  match s with
  | Some n => if Str.truthy n then n else "there"
  | None => "there"
  end.

(** The body of the loop for the e-mail of index [i], with its
    handler. *)
Definition process_one (i : nat) (email : Email)
           (preferred_model : option string)
  : Eff.M LLM.World BatchItem :=
  Eff.try_except
    (let email_content :=
       match content email with Some c => c | None => "" end in
     name <- (if is_truthy (sender_name email)
              then Eff.ret (sender_name email)
              else lift_total (LLM.extract_sender_name
                                 llm_manager email_content
                                 preferred_model)) ;;
     reply <- lift_total (LLM.generate_email_reply
                            llm_manager (or_there name) email_content
                            preferred_model) ;;
     Eff.ret (ItemOk i name reply))
    (fun e => Eff.ret (ItemError i (exn_msg e))).

(** [for i, email in enumerate(emails)] *)
Fixpoint process_all (i : nat) (emails : list Email)
         (preferred_model : option string)
  : Eff.M LLM.World (list BatchItem) :=
  match emails with
  | [] => Eff.ret []
  | email :: rest =>
      r <- process_one i email preferred_model ;;
      rs <- process_all (S i) rest preferred_model ;;
      Eff.ret (r :: rs)
  end.

(** The endpoint [batch_process_emails]: the loop, the call of
    [file_logger.log_request], the response; any exception becomes
    [HTTPException(status_code=500)]. *)
Definition batch_process_emails (emails : list Email)
           (preferred_model : option string)
  : Eff.M LLM.World BatchResponse :=
  Eff.try_except
    (results <- process_all 0 emails preferred_model ;;
     _ <- Eff.lift (FileLogger.getattr "log_request") ;;
     Eff.ret (mkResponse true results (List.length results)
                (List.length (filter item_success results))))
    (fun e => Eff.raise (Exn HTTPException (exn_msg e))).
End Endpoint.
End WebServer.

(* ================================================================== *)
(** * prompt_builder.py *)

Module PromptBuilder.
Import Json.

Record EmailRequest : Type := mkRequest {
  from_email : string;
  name : string;
  subject : string;
  content : string;
  intent : option string
}.

Definition company_name : string := "Thryvix AI".

(** [email_request.intent or "general"] *)
Definition intent_or_general (r : EmailRequest) : string :=
  match intent r with
  | Some i => if Str.truthy i then i else "general"
  | None => "general"
  end.

Definition new_customer_subject : string :=
  "Welcome to " ++ company_name ++ " – You Are Very Important to Us!".

Definition new_customer_body (r : EmailRequest) : string :=
  "Hi " ++ name r ++ "," ++ Str.nl ++ Str.nl
  ++ "We are absolutely thrilled by your interest in " ++ company_name
  ++ "! You are very important to us, and we want to make sure your experience with our products is exceptional."
  ++ Str.nl ++ Str.nl
  ++ "Our team is excited to work with you and will reach out shortly to provide you with a personalized introduction to our services. We're committed to making you feel valued and ensuring your success."
  ++ Str.nl ++ Str.nl
  ++ "Thank you for choosing " ++ company_name ++ "!"
  ++ Str.nl ++ Str.nl
  ++ "Warm regards," ++ Str.nl
  ++ "The " ++ company_name ++ " Team".

Definition existing_customer_body (r : EmailRequest) : string :=
  "Hi " ++ name r ++ "," ++ Str.nl ++ Str.nl
  ++ "Thank you for reaching out to " ++ company_name
  ++ ". We've received your message and appreciate your continued business."
  ++ Str.nl ++ Str.nl
  ++ "Our team will review your request and get back to you within 24 hours with a detailed response."
  ++ Str.nl ++ Str.nl
  ++ "If you have any urgent questions, please don't hesitate to contact us directly."
  ++ Str.nl ++ Str.nl
  ++ "Best regards," ++ Str.nl
  ++ "The " ++ company_name ++ " Team".

(** [generate_fallback_email]: the two hand-written templates.  The
    body of its [try] formats strings only and does not raise, so its
    last-resort handler is not entered. *)
Definition generate_fallback_email (email_request : EmailRequest)
           (is_new_customer : bool) : json :=
  if is_new_customer
  then JObj [ ("subject", JStr new_customer_subject);
              ("body", JStr (new_customer_body email_request));
              ("intent", JStr (intent_or_general email_request));
              ("tone", JStr "warm_personalized");
              ("next_steps", JArr [ JStr "Personalized consultation";
                                    JStr "Product demonstration";
                                    JStr "Follow-up call" ]);
              ("personalization_level", JStr "high") ]
  else JObj [ ("subject", JStr ("Re: " ++ subject email_request));
              ("body", JStr (existing_customer_body email_request));
              ("intent", JStr (intent_or_general email_request));
              ("tone", JStr "professional");
              ("next_steps", JArr [ JStr "Review request";
                                    JStr "Prepare response";
                                    JStr "Follow-up" ]);
              ("personalization_level", JStr "medium") ].
End PromptBuilder.

(* ================================================================== *)
(** * AI_AGENTS/agents/email_agent.py *)

Module EmailAgent.
Import Json.
Import PromptBuilder.

Record EmailResponse : Type := mkResponse {
  subject : json;
  body : json;
  intent : json;
  customer_type : string;
  is_new_lead : bool;
  sent : bool;
  message_id : option string
}.

(** What [crm_service.check_lead] returns. *)
Record LeadInfo : Type := mkLead {
  lead_exists : bool;
  lead_type : string;
  lead_data : json
}.

(** What [email_service.send_email] returns. *)
Record SendResult : Type := mkSend {
  send_success : bool;
  send_message_id : option string;
  send_error : option string
}.

(** The dictionary passed to [crm_service.add_new_lead]. *)
Record NewLead : Type := mkNewLead {
  lead_name : string;
  lead_email : string;
  lead_intent : json;
  lead_status : string
}.

Record OutboxEntry : Type := mkOutbox {
  out_timestamp : Q;
  out_from : string;
  out_to : string;
  out_subject : json;
  out_body : json;
  out_intent : json;
  out_customer_type : string;
  out_sent : bool;
  out_message_id : option string
}.

(** The services the agent calls.  Each is a coroutine on the outside
    world that returns or raises; the agent does not rely on their
    catching their own errors. *)
Class Services {H : LLM.Host} : Type := {
  check_lead : string -> Eff.M LLM.World LeadInfo;
  cache_get : string -> Eff.M LLM.World json;       (* [None] is [JNull] *)
  cache_set : string -> json -> Z -> Eff.M LLM.World bool;
  json_loads : string -> result json;
  build_new_customer_prompt : EmailRequest -> string;
  build_existing_customer_prompt : EmailRequest -> string;
  send_email : string -> json -> json -> Eff.M LLM.World SendResult;
  add_new_lead : NewLead -> Eff.M LLM.World bool;
  get_existing_emails : Eff.M LLM.World (list string);
  add_to_outbox : OutboxEntry -> Eff.M LLM.World bool;
  event_loop_time : Eff.M LLM.World Q
}.

Section Agent.
Context {H : LLM.Host} {S : Services}.
Variable llm_manager : LLM.LLMManager.

Local Open Scope eff_scope.

Definition str_bool (b : bool) : string := if b then "True" else "False".
Definition str_optional (s : option string) : string :=
  match s with Some x => x | None => "None" end.

Definition agent_system_prompt : string :=
  "You are a professional email assistant for Thryvix AI. Generate appropriate email responses.".

Definition is_json_decode_error (k : exn_kind) : bool :=
  match k with JSONDecodeError => true | _ => false end.

Definition generate_text (prompt : string) (system_prompt : string)
  : Eff.M LLM.World LLM.GenerateResult :=
  fun w =>
    let r := LLM.generate_text llm_manager prompt (Some system_prompt)
                               None w in
    (Returned (LLM.returned r), LLM.world r).

(** The body of the [try] of [_generate_email_content]. *)
Definition generate_email_content_body (email_request : EmailRequest)
           (is_new : bool) : Eff.M LLM.World json :=
  let cache_key :=
    "email_" ++ from_email email_request ++ "_" ++ str_bool is_new
    ++ "_" ++ str_optional (PromptBuilder.intent email_request) in
  cached_result <- cache_get cache_key ;;
  if truthy cached_result then Eff.ret cached_result
  else
    let prompt :=
      if is_new then build_new_customer_prompt email_request
      else build_existing_customer_prompt email_request in
    result <- generate_text prompt agent_system_prompt ;;
    if LLM.success result
    then
      Eff.try_except_class is_json_decode_error
        (email_content <- Eff.lift (json_loads (LLM.response result)) ;;
         _ <- cache_set cache_key email_content 3600 ;;
         Eff.ret email_content)
        (fun _ => Eff.ret (generate_fallback_email email_request is_new))
    else Eff.ret (generate_fallback_email email_request is_new).

(** [_generate_email_content]: that body, and the handler that
    returns the template. *)
Definition _generate_email_content (email_request : EmailRequest)
           (is_new : bool) (lead_info : LeadInfo)
  : Eff.M LLM.World json :=
  Eff.try_except
    (generate_email_content_body email_request is_new)
    (fun _ => Eff.ret (generate_fallback_email email_request is_new)).

Definition contains_email (x : string) (l : list string) : bool :=
  existsb (String.eqb x) l.

(** [_log_to_outbox] *)
Definition _log_to_outbox (email_request : EmailRequest)
           (email_content : json) (send_result : SendResult)
  : Eff.M LLM.World unit :=
  Eff.try_except
    (t <- event_loop_time ;;
     s <- Eff.lift (subscript email_content "subject") ;;
     b <- Eff.lift (subscript email_content "body") ;;
     i <- Eff.lift (subscript email_content "intent") ;;
     existing <- get_existing_emails ;;
     let ct := if contains_email (from_email email_request) existing
               then "existing_lead" else "new_lead" in
     _ <- add_to_outbox
            (mkOutbox t "noreply@thryvix.ai" (from_email email_request)
                      s b i ct (send_success send_result)
                      (send_message_id send_result)) ;;
     Eff.ret tt)
    (fun _ => Eff.ret tt).

(** The body of the [try] of [process_email]. *)
Definition process_email_body (email_request : EmailRequest)
  : Eff.M LLM.World EmailResponse :=
  lead_info <- check_lead (from_email email_request) ;;
  let is_new := negb (lead_exists lead_info) in
  email_content <- _generate_email_content email_request is_new
                                           lead_info ;;
  let validated_content := email_content in
  s <- Eff.lift (subscript validated_content "subject") ;;
  b <- Eff.lift (subscript validated_content "body") ;;
  send_result <- send_email (from_email email_request) s b ;;
  _ <- (if is_new
        then i <- Eff.lift (subscript validated_content "intent") ;;
             _ <- add_new_lead
                    (mkNewLead (name email_request)
                               (from_email email_request) i "New Lead") ;;
             Eff.ret tt
        else Eff.ret tt) ;;
  _ <- _log_to_outbox email_request validated_content send_result ;;
  s' <- Eff.lift (subscript validated_content "subject") ;;
  b' <- Eff.lift (subscript validated_content "body") ;;
  i' <- Eff.lift (subscript validated_content "intent") ;;
  Eff.ret (mkResponse s' b' i'
             (if is_new then "new_lead" else "existing_lead")
             is_new (send_success send_result)
             (send_message_id send_result)).

(** The handler of [process_email]. *)
Definition process_email_handler (email_request : EmailRequest)
  : Eff.M LLM.World EmailResponse :=
  let fallback_content := generate_fallback_email email_request true in
  s <- Eff.lift (subscript fallback_content "subject") ;;
  b <- Eff.lift (subscript fallback_content "body") ;;
  i <- Eff.lift (subscript fallback_content "intent") ;;
  Eff.ret (mkResponse s b i "new_lead" true true None).

Definition process_email (email_request : EmailRequest)
  : Eff.M LLM.World EmailResponse :=
  Eff.try_except (process_email_body email_request)
                 (fun _ => process_email_handler email_request).
End Agent.

(** Services for examples, on the example host of the manager: the
    cache answers every key with a string (a value that is true and is
    not a dictionary), nothing is delivered. *)
Definition demo_services : @Services LLM.demo_host :=
  {| check_lead := fun _ => Eff.ret (mkLead false "new_lead" JNull);
     cache_get := fun _ => Eff.ret (JStr "cached reply");
     cache_set := fun _ _ _ => Eff.ret true;
     json_loads := fun _ => Raised (Exn JSONDecodeError "Expecting value");
     build_new_customer_prompt := fun r => "new customer " ++ name r;
     build_existing_customer_prompt :=
       fun r => "existing customer " ++ name r;
     send_email := fun _ _ _ =>
       Eff.ret (mkSend false None (Some "connection refused"));
     add_new_lead := fun _ => Eff.ret true;
     get_existing_emails := Eff.ret [];
     add_to_outbox := fun _ => Eff.ret true;
     event_loop_time := Eff.ret 0%Q |}.

Definition demo_request : EmailRequest :=
  mkRequest "jane@example.org" "Jane" "Pricing" "What does it cost?" None.

(** The same services with a cache that is down: every look-up
    raises. *)
Definition cache_down_services : @Services LLM.demo_host :=
  {| check_lead := fun _ => Eff.ret (mkLead false "new_lead" JNull);
     cache_get := fun _ => Eff.raise (Exn RuntimeError "cache is down");
     cache_set := fun _ _ _ => Eff.ret true;
     json_loads := fun _ => Raised (Exn JSONDecodeError "Expecting value");
     build_new_customer_prompt := fun r => "new customer " ++ name r;
     build_existing_customer_prompt :=
       fun r => "existing customer " ++ name r;
     send_email := fun _ _ _ =>
       Eff.ret (mkSend false None (Some "connection refused"));
     add_new_lead := fun _ => Eff.ret true;
     get_existing_emails := Eff.ret [];
     add_to_outbox := fun _ => Eff.ret true;
     event_loop_time := Eff.ret 0%Q |}.
End EmailAgent.

(* ================================================================== *)
(** * llm_manager.py: the information calls *)

Module LLMInfo.
Section Info.
Context {H : LLM.Host}.

(** [get_available_models]: [list(self.models.keys())] *)
Definition get_available_models (self : LLM.LLMManager) : list string :=
  Dict.keys (LLM.models self).

(** The dictionary returned by [get_model_info]. *)
Record ModelInfo : Type := mkInfo {
  available_models : list string;
  model_count : nat;
  model_order : list string
}.

Definition get_model_info (self : LLM.LLMManager) : ModelInfo :=
  mkInfo (get_available_models self) (List.length (LLM.models self))
         (LLM.model_order self).

(** The four blocks of [_initialize_models], in their order: the
    identifier, the client, the setting read and its placeholder. *)
Definition preference (s : LLM.Settings)
  : list (string * LLM.Provider * option string * string) :=
  [ ("openai", LLM.OpenAI, LLM.openai_api_key s, "your_openai_key");
    ("groq", LLM.Groq, LLM.groq_api_key s, "your_groq_key");
    ("google", LLM.Google, LLM.google_api_key s, "your_google_key");
    ("anthropic", LLM.Anthropic, LLM.anthropic_api_key s,
     "your_anthropic_key") ].

(** A block registers its provider when the key is set, is not the
    placeholder, and the constructor of the client returns. *)
Definition registers
           (entry : string * LLM.Provider * option string * string) : bool :=
  let '(_, p, key, placeholder) := entry in
  match LLM.configured key placeholder with
  | Some k => negb (is_raised (LLM.new_client p k))
  | None => false
  end.

Definition entry_name
           (entry : string * LLM.Provider * option string * string)
  : string :=
  fst (fst (fst entry)).
End Info.
End LLMInfo.

(* ================================================================== *)
(** * email_parser.py: headers and message body *)

Module ParserMore.
Import Str Parser.

(** [s[n:]] for a text whose first [n] characters are ASCII *)
Fixpoint drop (n : nat) (s : string) : string :=
  match n, s with
  | O, _ => s
  | S n', String _ s' => drop n' s'
  | S _, EmptyString => EmptyString
  end.

(** [s.split(sep, 1)[1]]: what follows the first occurrence of [sep],
    when there is one. *)
Fixpoint after_first (sep s : string) : option string :=
  if startswith sep s then Some (drop (String.length sep) s)
  else match s with
       | EmptyString => None
       | String _ s' => after_first sep s'
       end.

Definition separators : list string := [ nl ++ nl; "---"; "___" ].

(** The loop of [extract_message_body] over the separators. *)
Fixpoint body_after (seps : list string) (email_content : string)
  : option string :=
  match seps with
  | [] => None
  | separator :: rest =>
      if contains separator email_content
      then match after_first separator email_content with
           | Some part => Some (strip part)
           | None => body_after rest email_content
           end
      else body_after rest email_content
  end.

Definition extract_message_body (email_content : string) : string :=
  match body_after separators email_content with
  | Some body => body
  | None => strip email_content
  end.

(** The class of the header patterns: any character but the line
    feed. *)
Definition not_nl (x : string) : bool := negb (String.eqb x nl).

(** White space, greedy, then the rest of the line, one character at
    least; the white space gives characters back when the line cannot
    start after it. *)
Fixpoint ws_then_line (t : list string) : option (list string) :=
  match t with
  | [] => None
  | x :: t' =>
      if is_space x
      then match ws_then_line t' with
           | Some g => Some g
           | None => run1 not_nl t
           end
      else run1 not_nl t
  end.

Definition header_line_at (lit : string) (t : list string)
  : option (list string) :=
  match match_literal lit t with
  | Some rest => ws_then_line rest
  | None => None
  end.

(** The patterns of [parse_email_headers], in the order of the
    dictionary: the name of the header and the literal that starts its
    pattern. *)
Definition header_patterns : list (string * string) :=
  [ ("from", "From:"); ("to", "To:"); ("subject", "Subject:");
    ("date", "Date:"); ("reply_to", "Reply-To:") ].

Fixpoint collect_headers (ps : list (string * string))
         (email_content : string) : Dict.dict string :=
  match ps with
  | [] => []
  | (header_name, lit) :: ps' =>
      match re_search (header_line_at lit) email_content with
      | Some g => (header_name, strip g) :: collect_headers ps' email_content
      | None => collect_headers ps' email_content
      end
  end.

Definition parse_email_headers (email_content : string) : Dict.dict string :=
  collect_headers header_patterns email_content.

(** Properties of strings used to describe results. *)
Fixpoint all_chars (p : ascii -> bool) (s : string) : bool :=
  match s with
  | EmptyString => true
  | String c s' => p c && all_chars p s'
  end.

Definition not_quote (c : ascii) : bool :=
  negb (Ascii.eqb c DQUOTE || Ascii.eqb c SQUOTE).

(** Every white space character of ASCII is a space and no two are
    adjacent; [prev_space] tells that the character before was a
    space. *)
Fixpoint single_spaced (prev_space : bool) (s : string) : bool :=
  match s with
  | EmptyString => true
  | String c s' =>
      if isspace c
      then Ascii.eqb c " "%char && negb prev_space && single_spaced true s'
      else single_spaced false s'
  end.

End ParserMore.

(* ================================================================== *)
(** * AI_AGENTS/services/email_service.py *)

Module EmailService.
Import EmailAgent.

(** An entry of the list [results] of [send_bulk_email]. *)
Record BulkItem : Type := mkItem {
  recipient : string;
  item_success : bool;
  item_error : option string
}.

(** The dictionary returned by [send_bulk_email]; the first return has
    the key [results], the return of the handler has the key [error]. *)
Record BulkResult : Type := mkBulk {
  bulk_success : bool;
  total : nat;
  successful : nat;
  failed : nat;
  bulk_results : option (list BulkItem);
  bulk_error : option string
}.

(** The entry built for a recipient from the result of its task. *)
Definition item_of (rcpt : string) (r : result SendResult) : BulkItem :=
  match r with
  | Raised e => mkItem rcpt false (Some (exn_msg e))
  | Returned res => mkItem rcpt (send_success res) (send_error res)
  end.

(** The numbers of successful and of failed entries of a list. *)
Definition count_ok (items : list BulkItem) : nat :=
  List.length (filter item_success items).

Definition count_failed (items : list BulkItem) : nat :=
  List.length (filter (fun x => negb (item_success x)) items).

Section Service.
Variable W : Type.
(** Not part of the service: the construction of the MIME message
    (recipient, subject, body, HTML body) and the SMTP session that
    delivers it and makes the message identifier; each may raise. *)
Variable Message : Type.
Variable build_message :
  string -> string -> string -> option string -> result Message.
Variable smtp_session : Message -> string -> Eff.M W string.

Local Open Scope eff_scope.

(** [_send_smtp_email] *)
Definition _send_smtp_email (message : Message) (to : string)
  : Eff.M W SendResult :=
  Eff.try_except
    (message_id <- smtp_session message to ;;
     Eff.ret (mkSend true (Some message_id) None))
    (fun e => Eff.ret (mkSend false None (Some (exn_msg e)))).

(** [send_email] *)
Definition send_email (to subject body : string) (html_body : option string)
  : Eff.M W SendResult :=
  Eff.try_except
    (message <- Eff.lift (build_message to subject body html_body) ;;
     result <- _send_smtp_email message to ;;
     Eff.ret result)
    (fun e => Eff.ret (mkSend false None (Some (exn_msg e)))).

(** The loop over [enumerate(email_results)] with its three
    accumulators; [recipients[i]] raises [IndexError] past the end. *)
Fixpoint tally (recipients : list string) (i : nat)
         (email_results : list (result SendResult))
         (results : list BulkItem) (n_ok n_failed : nat)
  : result (list BulkItem * nat * nat) :=
  match email_results with
  | [] => Returned (results, n_ok, n_failed)
  | r :: rest =>
      match nth_error recipients i with
      | None => Raised (Exn IndexError "list index out of range")
      | Some rcpt =>
          let item := item_of rcpt r in
          if item_success item
          then tally recipients (S i) rest (results ++ [item])%list
                     (S n_ok) n_failed
          else tally recipients (S i) rest (results ++ [item])%list
                     n_ok (S n_failed)
      end
  end.

(** [send_bulk_email] *)
Definition send_bulk_email (recipients : list string)
           (subject body : string) (html_body : option string) (w : W)
  : BulkResult * W :=
  let tasks :=
    map (fun rcpt => send_email rcpt subject body html_body) recipients in
  let '(email_results, w') := Asyncio.gather tasks w in
  match tally recipients 0 email_results [] 0 0 with
  | Returned (results, n_ok, n_failed) =>
      (mkBulk (Nat.eqb n_failed 0) (List.length recipients) n_ok n_failed
              (Some results) None, w')
  | Raised e =>
      (mkBulk false (List.length recipients) 0 (List.length recipients)
              None (Some (exn_msg e)), w')
  end.
End Service.
End EmailService.

(* ================================================================== *)
(** * AI_AGENTS/services/crm_service.py *)

Module CRM.
Import Json.

(** [str(n)] of an integer *)
Definition str_int (n : Z) : string :=
  DecimalString.NilZero.string_of_int (Z.to_int n).

(** The two ways a write fails.  Either [open(path, 'w')] raises and
    the file is not touched; or the file is opened, which empties it,
    and [json.dump] or the closing of the file raises (a full disk, an
    input-output error): what the file gives when it is read after that
    is [left_behind], for an empty or cut file a [JSONDecodeError]. *)
Inductive WriteError : Type :=
| OpenFails (e : exn)
| DumpFails (e : exn) (left_behind : result json).

(** A JSON file of the data directory.  [on_read] is what opening the
    file and [json.load] give: the value, or the exception one of them
    raises (a missing file, text that is not JSON).  [on_write] is the
    way a write fails, if it fails; otherwise [json.dump] replaces the
    content by the value dumped. *)
Record File : Type := mkFile {
  on_read : result json;
  on_write : option WriteError
}.

Record Store : Type := mkStore {
  existing_leads_file : File;
  new_leads_file : File;
  outbox_file : File
}.

Definition with_existing (s : Store) (f : File) : Store :=
  mkStore f (new_leads_file s) (outbox_file s).
Definition with_new (s : Store) (f : File) : Store :=
  mkStore (existing_leads_file s) f (outbox_file s).
Definition with_outbox (s : Store) (f : File) : Store :=
  mkStore (existing_leads_file s) (new_leads_file s) f.

(** [with open(path, 'w') as f: json.dump(v, f, indent=2)]: what the
    statement gives, and the file it leaves. *)
Definition dump (v : json) (f : File) : result unit * File :=
  match on_write f with
  | None => (Returned tt, mkFile (Returned v) None)
  | Some (OpenFails e) => (Raised e, f)
  | Some (DumpFails e left_behind) =>
      (Raised e, mkFile left_behind (on_write f))
  end.

(** The three getters: the content, or the empty list on any error. *)
Definition load_or_empty (f : File) : json :=
  match on_read f with
  | Returned v => v
  | Raised _ => JArr []
  end.

Definition get_existing_leads (s : Store) : json :=
  load_or_empty (existing_leads_file s).
Definition get_new_leads (s : Store) : json :=
  load_or_empty (new_leads_file s).
Definition get_outbox (s : Store) : json :=
  load_or_empty (outbox_file s).

(** The two savers: [True], or [False] when the write raises. *)
Definition save (v : json) (f : File) : bool * File :=
  match dump v f with
  | (Returned _, f') => (true, f')
  | (Raised _, f') => (false, f')
  end.

Definition save_existing_leads (leads : json) (s : Store) : bool * Store :=
  let '(ok, f) := save leads (existing_leads_file s) in
  (ok, with_existing s f).
Definition save_new_leads (leads : json) (s : Store) : bool * Store :=
  let '(ok, f) := save leads (new_leads_file s) in
  (ok, with_new s f).

(** [for x in v]: the elements of a list, the keys of a dictionary, the
    characters of a string; nothing else can be iterated. *)
Definition iter (v : json) : result (list json) :=
  match v with
  | JArr l => Returned l
  | JObj d => Returned (map (fun kv => JStr (fst kv)) d)
  | JStr s => Returned (map JStr (Str.chars s))
  | _ => Raised (Exn TypeError "object is not iterable")
  end.

Section Leads.
Context {U : Str.Lower}.

(** [lead.get('email', '').lower()] *)
Definition email_lower_of (lead : json) : result string :=
  match get_default lead "email" (JStr "") with
  | Returned (JStr e) => Returned (Str.lower e)
  | Returned _ => Raised (Exn AttributeError "object has no attribute lower")
  | Raised e => Raised e
  end.

(** The search loop of [check_lead], [promote_lead] and
    [validate_lead]: the index and the value of the first lead whose
    address is [email_lower]; a lead that comes before it and has no
    method [get], or whose address is not a string, raises. *)
Fixpoint find_lead (email_lower : string) (i : nat) (leads : list json)
  : result (option (nat * json)) :=
  match leads with
  | [] => Returned None
  | lead :: rest =>
      match email_lower_of lead with
      | Raised e => Raised e
      | Returned a =>
          if String.eqb a email_lower then Returned (Some (i, lead))
          else find_lead email_lower (S i) rest
      end
  end.

(** [check_lead] *)
Definition check_lead (email : string) (s : Store) : EmailAgent.LeadInfo :=
  let email_lower := Str.lower email in
  let not_found := EmailAgent.mkLead false "new_lead" JNull in
  match iter (get_existing_leads s) with
  | Raised _ => not_found
  | Returned existing_leads =>
      match find_lead email_lower 0 existing_leads with
      | Raised _ => not_found
      | Returned (Some (_, lead)) =>
          EmailAgent.mkLead true "existing_lead" lead
      | Returned None =>
          match iter (get_new_leads s) with
          | Raised _ => not_found
          | Returned new_leads =>
              match find_lead email_lower 0 new_leads with
              | Raised _ => not_found
              | Returned (Some (_, lead)) =>
                  EmailAgent.mkLead true "new_lead" lead
              | Returned None => not_found
              end
          end
      end
  end.

(** [d.get(key, default)] for an argument that is a dictionary *)
Definition getd (d : Dict.dict json) (key : string) (default : json)
  : json :=
  match Dict.get key d with Some x => x | None => default end.

(** The entry built by [add_new_lead]. *)
Definition lead_entry (lead_data : Dict.dict json) (lead_id : string)
           (created_at last_contact : string) : json :=
  JObj [ ("id", JStr lead_id);
         ("name", getd lead_data "name" (JStr ""));
         ("email", getd lead_data "email" (JStr ""));
         ("intent", getd lead_data "intent" (JStr "general"));
         ("status", getd lead_data "status" (JStr "New Lead"));
         ("account_id", JNull);
         ("created_at", JStr created_at);
         ("last_contact", JStr last_contact) ].

(** [add_new_lead]; [clock_ms] is the value of
    [int(asyncio.get_event_loop().time() * 1000)], and [created_at] and
    [last_contact] are the two readings of [datetime.now().isoformat()].
    Only a list has the method [append]; the answer of
    [save_new_leads] is not looked at. *)
Definition add_new_lead (lead_data : Dict.dict json) (clock_ms : Z)
           (created_at last_contact : string) (s : Store) : bool * Store :=
  match get_new_leads s with
  | JArr new_leads =>
      let lead_id := "lead_" ++ str_int clock_ms in
      let entry := lead_entry lead_data lead_id created_at last_contact in
      let '(_, s') := save_new_leads (JArr (new_leads ++ [entry])%list) s in
      (true, s')
  | _ => (false, s)
  end.

(** [l.pop(i)] leaves the list without its element of index [i]. *)
Definition pop (i : nat) (l : list json) : list json :=
  (firstn i l ++ skipn (S i) l)%list.

(** The three assignments of [promote_lead] to the lead found. *)
Definition promoted (d : Dict.dict json) (clock_s : Z) (now : string)
  : Dict.dict json :=
  Dict.set "last_contact" (JStr now)
    (Dict.set "account_id" (JStr ("AC" ++ str_int clock_s))
       (Dict.set "status" (JStr "Existing Lead") d)).

(** [promote_lead]; [clock_s] is the value of
    [int(asyncio.get_event_loop().time())].  A search that ends with a
    lead found has run over a list of dictionaries; the empty
    dictionary is false; the answers of the two savers are not looked
    at. *)
Definition promote_lead (email : string) (clock_s : Z) (now : string)
           (s : Store) : bool * Store :=
  let email_lower := Str.lower email in
  match iter (get_new_leads s) with
  | Raised _ => (false, s)
  | Returned leads =>
      match find_lead email_lower 0 leads with
      | Raised _ => (false, s)
      | Returned None => (false, s)
      | Returned (Some (i, lead_to_promote)) =>
          match get_new_leads s, lead_to_promote with
          | JArr new_leads, JObj d =>
              if truthy lead_to_promote
              then
                match get_existing_leads s with
                | JArr existing_leads =>
                    let lead := JObj (promoted d clock_s now) in
                    let '(_, s1) :=
                      save_existing_leads
                        (JArr (existing_leads ++ [lead])%list) s in
                    let '(_, s2) :=
                      save_new_leads (JArr (pop i new_leads)) s1 in
                    (true, s2)
                | _ => (false, s)
                end
              else (false, s)
          | _, _ => (false, s)
          end
      end
  end.

(** [add_to_outbox] *)
Definition add_to_outbox (email_data : json) (s : Store) : bool * Store :=
  match get_outbox s with
  | JArr outbox =>
      match dump (JArr (outbox ++ [email_data])%list) (outbox_file s) with
      | (Returned _, f) => (true, with_outbox s f)
      | (Raised _, f) => (false, with_outbox s f)
      end
  | _ => (false, s)
  end.

(** A record that the search loop can pass: a dictionary whose address,
    when it has one, is a string. *)
Definition lead_ok (lead : json) : bool :=
  match lead with
  | JObj d =>
      match Dict.get "email" d with
      | Some (JStr _) | None => true
      | Some _ => false
      end
  | _ => false
  end.

(** The lead holds the address [email], letter case apart. *)
Definition has_address (email : string) (lead : json) : bool :=
  match email_lower_of lead with
  | Returned a => String.eqb a (Str.lower email)
  | Raised _ => false
  end.

(** ** ValidationAgent.validate_lead (validation_agent.py) *)

Record ValidationResult : Type := mkValidation {
  v_exists : bool;
  v_lead_id : json;
  v_lead_type : string;
  v_status : json;
  v_account_id : json;
  v_last_contact : json;
  v_confidence : Q
}.

(** [lead.get(key)] and [lead.get(key, default)] on a lead found by
    the search, which is a dictionary. *)
Definition field (lead : json) (key : string) (default : json) : json :=
  match lead with
  | JObj d => getd d key default
  | _ => default
  end.

Definition validate_lead (email : string) (s : Store) : ValidationResult :=
  let email_lower := Str.lower email in
  let failed :=
    mkValidation false JNull "new_lead" (JStr "New Lead") JNull JNull 0 in
  let absent :=
    mkValidation false JNull "new_lead" (JStr "New Lead") JNull JNull 1 in
  match iter (get_existing_leads s) with
  | Raised _ => failed
  | Returned existing_leads =>
      match find_lead email_lower 0 existing_leads with
      | Raised _ => failed
      | Returned (Some (_, lead)) =>
          mkValidation true (field lead "id" JNull) "existing_lead"
                       (field lead "status" (JStr "Existing Lead"))
                       (field lead "account_id" JNull)
                       (field lead "last_contact" JNull) 1
      | Returned None =>
          match iter (get_new_leads s) with
          | Raised _ => failed
          | Returned new_leads =>
              match find_lead email_lower 0 new_leads with
              | Raised _ => failed
              | Returned (Some (_, lead)) =>
                  mkValidation true (field lead "id" JNull) "new_lead"
                               (field lead "status" (JStr "New Lead"))
                               (field lead "account_id" JNull)
                               (field lead "last_contact" JNull) (9 # 10)
              | Returned None => absent
              end
          end
      end
  end.
End Leads.

End CRM.

(* ================================================================== *)
(** * Stores for the examples of the CRM service *)

Module CRMDemo.
Import Json CRM.

Definition demo_lead (email : string) : json :=
  JObj [("id", JStr "lead_1"); ("email", JStr email)].

(** One existing lead, one new lead, an outbox that cannot be read. *)
Definition demo_store : Store :=
  mkStore (mkFile (Returned (JArr [demo_lead "Ann@Example.org"])) None)
          (mkFile (Returned (JArr [demo_lead "bob@example.org"])) None)
          (mkFile (Raised (Exn ValueError "Expecting value")) None).

(** Empty files, of which only the first can be opened for writing. *)
Definition read_only_store : Store :=
  mkStore (mkFile (Returned (JArr [])) None)
          (mkFile (Returned (JArr []))
                  (Some (OpenFails
                           (Exn RuntimeError "read-only file system"))))
          (mkFile (Returned (JArr []))
                  (Some (OpenFails
                           (Exn RuntimeError "read-only file system")))).

(** What reading an emptied file gives. *)
Definition emptied : result json :=
  Raised (Exn JSONDecodeError "Expecting value").

(** The files of [demo_store] on a full disk: each can be opened for
    writing, and is left empty by the write that fails. *)
Definition full_disk_store : Store :=
  let full := Some (DumpFails (Exn RuntimeError "no space left on device")
                              emptied) in
  mkStore (mkFile (Returned (JArr [demo_lead "Ann@Example.org"])) full)
          (mkFile (Returned (JArr [demo_lead "bob@example.org"])) full)
          (mkFile (Returned (JArr [])) full).
End CRMDemo.

(* ================================================================== *)
(** * agents/email_workflow.py: validation, reply, logging, workflow *)

Module Workflow.
Import Json Intent.

(** [ValidationResult]; [None] is [JNull]. *)
Record ValidationResult : Type := mkValidation {
  validated : bool;
  user_id : json;
  customer_type : json;
  is_new_lead : bool
}.

(** [ValidationResult(validated=False)], with the defaults of the
    dataclass. *)
Definition validation_failed : ValidationResult :=
  mkValidation false JNull JNull true.

(** The customer appended for a new lead. *)
Definition new_customer (new_customer_id : nat) (email_payload : EmailPayload)
           (created_at last_contact : string) : json :=
  JObj [ ("id", JNum (inject_Z (Z.of_nat new_customer_id)));
         ("name", JStr (name email_payload));
         ("email", JStr (from_email email_payload));
         ("type", JStr "new_lead");
         ("status", JStr "New Lead");
         ("account_id", JNull);
         ("created_at", JStr created_at);
         ("last_contact", JStr last_contact) ].

Section Validation.
Context {U : Str.Lower}.

(** [ValidationAgent.validate_email] on the file [data/crm/customers.json].
    [isoformat n] is the [n]-th reading of [datetime.now().isoformat()]
    and [t] the number of readings made before the call; the call reads
    the clock twice when its search ends without a customer found, and
    returns the number of readings made.  Every exception (the file
    cannot be read, a record cannot be searched, the content is not a
    list, the file cannot be written) gives
    [ValidationResult(validated=False)]. *)
Definition validate_email (isoformat : nat -> string)
           (email_payload : EmailPayload) (t : nat) (crm_file : CRM.File)
  : ValidationResult * CRM.File * nat :=
  match CRM.on_read crm_file with
  | Raised _ => (validation_failed, crm_file, t)
  | Returned customers =>
      match CRM.iter customers with
      | Raised _ => (validation_failed, crm_file, t)
      | Returned records =>
          match CRM.find_lead (Str.lower (from_email email_payload)) 0
                              records with
          | Raised _ => (validation_failed, crm_file, t)
          | Returned (Some (_, customer)) =>
              (mkValidation true (CRM.field customer "id" JNull)
                            (CRM.field customer "type" (JStr "existing"))
                            false,
               crm_file, t)
          | Returned None =>
              match customers with
              | JArr l =>
                  let new_customer_id := (List.length l + 1)%nat in
                  let c := new_customer new_customer_id email_payload
                                        (isoformat t) (isoformat (t + 1)%nat) in
                  match CRM.dump (JArr (l ++ [c])%list) crm_file with
                  | (Returned _, f) =>
                      (mkValidation true
                         (JNum (inject_Z (Z.of_nat new_customer_id)))
                         (JStr "lead") true, f, (t + 2)%nat)
                  | (Raised _, f) => (validation_failed, f, (t + 2)%nat)
                  end
              | _ => (validation_failed, crm_file, (t + 2)%nat)
              end
          end
      end
  end.
End Validation.

Record ReplyResult : Type := mkReply {
  reply_subject : json;
  reply_body : json;
  reply_intent : json
}.

(** [intent == s] for a string [s] *)
Definition is_str (v : json) (s : string) : bool :=
  match v with JStr x => String.eqb x s | _ => false end.

(** [ReplyGeneratorAgent._fallback_reply] *)
Definition _fallback_reply (email_payload : EmailPayload) (intent : json)
           (is_new : bool) : ReplyResult :=
  if is_new
  then
    mkReply
      (JStr "Welcome to Thryvix AI – You Are Very Important to Us!")
      (JStr ("Hi " ++ name email_payload ++ "," ++ Str.nl ++ Str.nl
             ++ "We are absolutely thrilled by your interest in Thryvix AI! You are very important to us, and we want to make sure your experience with our products is exceptional."
             ++ Str.nl ++ Str.nl
             ++ "Our team is excited to work with you and will reach out shortly to provide you with a personalized introduction to our services. We're committed to making you feel valued and ensuring your success."
             ++ Str.nl ++ Str.nl
             ++ "Thank you for choosing Thryvix AI!"
             ++ Str.nl ++ Str.nl
             ++ "Warm regards," ++ Str.nl ++ "The Thryvix AI Team"))
      intent
  else if is_str intent "sales"
  then
    mkReply
      (JStr ("Re: " ++ subject email_payload))
      (JStr ("Hi " ++ name email_payload ++ "," ++ Str.nl ++ Str.nl
             ++ "Thank you for your interest! Our team will contact you shortly to discuss your requirements."
             ++ Str.nl ++ Str.nl
             ++ "Best regards," ++ Str.nl ++ "Thryvix AI Team"))
      intent
  else if is_str intent "support"
  then
    mkReply
      (JStr ("Re: " ++ subject email_payload))
      (JStr ("Hi " ++ name email_payload ++ "," ++ Str.nl ++ Str.nl
             ++ "Thank you for reaching out. We've received your support request and will get back to you within 24 hours."
             ++ Str.nl ++ Str.nl
             ++ "Best regards," ++ Str.nl ++ "Thryvix AI Support Team"))
      intent
  else
    mkReply
      (JStr ("Re: " ++ subject email_payload))
      (JStr ("Hi " ++ name email_payload ++ "," ++ Str.nl ++ Str.nl
             ++ "Thank you for your email. We'll review your message and get back to you soon."
             ++ Str.nl ++ Str.nl
             ++ "Best regards," ++ Str.nl ++ "Thryvix AI Team"))
      intent.

(** [d[key]] on a dictionary; [str] of a [KeyError] is the key between
    quotes. *)
Definition item (V : Type) (d : Dict.dict V) (key : string) : result V :=
  match Dict.get key d with
  | Some v => Returned v
  | None => Raised (Exn KeyError ("'" ++ key ++ "'"))
  end.

(** What [EmailWorkflow.process_email] returns: the dictionary with
    status [processed], or the one with status [error]. *)
Inductive WorkflowResult : Type :=
| Processed (to : string) (reply_subject reply_body intent : json)
            (customer_type : json) (is_new_lead : bool) (user_id : json)
            (log_file : string) (processed_at : string)
| Failed (error : string) (processed_at : string).

Section Agents.
Context {H : LLM.Host} {U : Str.Lower}.
(** [json.loads], and the two prompts built from the payload by
    f-strings (the second one also from the intent and the kind of
    customer). *)
Variable json_loads : string -> result json.
Variable intent_prompt : EmailPayload -> string.
Variable reply_prompt : EmailPayload -> json -> bool -> string.
(** The two folders of the logging agent and the call that writes one
    entry: the folder, the reading of the clock used for the file name,
    the address of the sender and the entry give the path of the file
    written, or an exception. *)
Variable Logs : Type.
Variable write_log :
  string -> string -> string -> json -> Logs -> result string * Logs.
(** The readings of [datetime.now()], numbered: [isoformat] and
    [strftime] are the two formats of a reading. *)
Variable isoformat : nat -> string.
Variable strftime : nat -> string.
Variable llm_manager : LLM.LLMManager.

Definition reply_system_prompt : string :=
  "You are a professional email assistant. Generate helpful, contextually appropriate replies.".

(** [ReplyGeneratorAgent.generate_reply]; the argument [customer_type]
    is not used by the function. *)
Definition generate_reply (email_payload : EmailPayload) (intent : json)
           (is_new : bool) (w : LLM.World) : ReplyResult * LLM.World :=
  let r := LLM.generate_text llm_manager
             (reply_prompt email_payload intent is_new)
             (Some reply_system_prompt) None w in
  let w' := LLM.world r in
  if LLM.success (LLM.returned r)
  then
    match json_loads (LLM.response (LLM.returned r)) with
    | Returned parsed_reply =>
        match get_default parsed_reply "subject"
                          (JStr ("Re: " ++ subject email_payload)),
              get_default parsed_reply "body"
                          (JStr "Thank you for your email. We'll get back to you soon.")
        with
        | Returned s, Returned b => (mkReply s b intent, w')
        | _, _ => (_fallback_reply email_payload intent is_new, w')
        end
    | Raised _ => (_fallback_reply email_payload intent is_new, w')
    end
  else (_fallback_reply email_payload intent is_new, w').

(** Every model fails, whatever the prompt and the world. *)
Definition models_down : Prop :=
  forall prompt system_prompt w,
    LLM.success (LLM.returned (LLM.generate_text llm_manager prompt
                                                 system_prompt None w))
    = false.

(** The state the workflow works on: the world of the models, the file
    of customers, the folders of the logs, and the number of readings
    of the clock made so far. *)
Record State : Type := mkState {
  llm : LLM.World;
  crm_file : CRM.File;
  logs : Logs;
  ticks : nat
}.

(** The entry written by [log_interaction]. *)
Definition log_entry (email_payload : EmailPayload)
           (validation_result : ValidationResult)
           (reply_result : ReplyResult) (intent : json)
           (timestamp processed_at : string) : json :=
  JObj [ ("timestamp", JStr timestamp);
         ("email", JObj [ ("from", JStr (from_email email_payload));
                          ("name", JStr (name email_payload));
                          ("subject", JStr (subject email_payload));
                          ("content", JStr (email_content email_payload)) ]);
         ("validation",
          JObj [ ("validated", JBool (validated validation_result));
                 ("user_id", user_id validation_result);
                 ("customer_type", customer_type validation_result);
                 ("is_new_lead", JBool (is_new_lead validation_result)) ]);
         ("reply", JObj [ ("subject", reply_subject reply_result);
                          ("body", reply_body reply_result);
                          ("intent", reply_intent reply_result) ]);
         ("processing", JObj [ ("intent", intent);
                               ("processed_at", JStr processed_at) ]) ].

(** [LoggingAgent.log_interaction]: three readings of the clock, the
    folder chosen by [is_new_lead], the path of the file written, or
    the empty string when anything raises. *)
Definition log_interaction (email_payload : EmailPayload)
           (validation_result : ValidationResult)
           (reply_result : ReplyResult) (intent : json) (st : State)
  : string * State :=
  let t := ticks st in
  let folder := if is_new_lead validation_result
                then "data/new_leads" else "data/existing_leads" in
  let entry := log_entry email_payload validation_result reply_result intent
                         (isoformat (t + 1)%nat) (isoformat (t + 2)%nat) in
  let '(r, logs') :=
    write_log folder (strftime t) (from_email email_payload) entry
              (logs st) in
  (match r with Returned filepath => filepath | Raised _ => "" end,
   mkState (llm st) (crm_file st) logs' (t + 3)%nat).

(** The payload built at the start of [process_email]; the values of
    the four fields are strings. *)
Definition payload_of (email_data : Dict.dict (Dict.dict string))
  : result EmailPayload :=
  match item email_data "email" with
  | Raised e => Raised e
  | Returned email_info =>
      match item email_info "from", item email_info "name",
            item email_info "subject", item email_info "Email_Content" with
      | Returned f, Returned n, Returned s, Returned c =>
          Returned (mkPayload f n s c)
      | Raised e, _, _, _ => Raised e
      | _, Raised e, _, _ => Raised e
      | _, _, Raised e, _ => Raised e
      | _, _, _, Raised e => Raised e
      end
  end.

(** [EmailWorkflow.process_email] *)
Definition process_email (email_data : Dict.dict (Dict.dict string))
           (st : State) : WorkflowResult * State :=
  match payload_of email_data with
  | Raised e =>
      (Failed (exn_msg e) (isoformat (ticks st)),
       mkState (llm st) (crm_file st) (logs st) (ticks st + 1)%nat)
  | Returned email_payload =>
      let '(parse_result, w1) :=
        parse_email json_loads intent_prompt llm_manager email_payload
                    (llm st) in
      let intent := Intent.intent parse_result in
      let '(validation_result, f, t) :=
        validate_email isoformat email_payload (ticks st) (crm_file st) in
      let '(reply_result, w2) :=
        generate_reply email_payload intent
                       (is_new_lead validation_result) w1 in
      let '(log_file, st') :=
        log_interaction email_payload validation_result reply_result intent
                        (mkState w2 f (logs st) t) in
      (Processed (from_email email_payload)
                 (reply_subject reply_result) (reply_body reply_result)
                 intent (customer_type validation_result)
                 (is_new_lead validation_result)
                 (user_id validation_result) log_file
                 (isoformat (ticks st')),
       mkState (llm st') (crm_file st') (logs st') (ticks st' + 1)%nat)
  end.

End Agents.

(** The workflow on the example host, for examples: no JSON is ever
    decoded, every log is written to the same path. *)
Definition demo_json_loads (s : string) : result json :=
  Raised (Exn JSONDecodeError "Expecting value").

Definition demo_write_log (folder timestamp sender : string) (entry : json)
           (l : list json) : result string * list json :=
  (Returned (folder ++ "/" ++ timestamp ++ ".json"), (l ++ [entry])%list).

Definition demo_state (crm_file : CRM.File) : @State LLM.demo_host (list json) :=
  @mkState LLM.demo_host (list json) 0%nat crm_file [] 0%nat.

Definition demo_email_data (sender : string) : Dict.dict (Dict.dict string) :=
  [("email", [("from", sender); ("name", "Jane");
              ("subject", "Pricing"); ("Email_Content", "hello")])].

Definition demo_process (email_data : Dict.dict (Dict.dict string))
           (st : @State LLM.demo_host (list json))
  : WorkflowResult * @State LLM.demo_host (list json) :=
  @process_email LLM.demo_host Str.ascii_lower demo_json_loads
                 (fun _ => "intent")
                 (fun _ _ _ => "reply") (list json) demo_write_log
                 (fun n => "t" ++ CRM.str_int (Z.of_nat n))
                 (fun n => "f" ++ CRM.str_int (Z.of_nat n))
                 LLM.demo_manager_down email_data st.

End Workflow.

(* ================================================================== *)
(** * web_server.py: the endpoints that log their request *)

Module WebServerMore.
Import Json Intent.

(** An endpoint answers with a value or raises
    [HTTPException(status_code, detail)]. *)
Inductive Answer (A : Type) : Type :=
| Ok (a : A)
| HTTPError (status_code : Z) (detail : string).

(** [file_logger.log_request(...)]: the attribute is looked up before
    the arguments of the call are evaluated. *)
Definition log_request : result string := FileLogger.getattr "log_request".

(** The end of every such endpoint: the call of [log_request], the
    value returned, and the handler of [Exception]. *)
Definition logged (A : Type) (a : A) : Answer A :=
  match log_request with
  | Returned _ => Ok a
  | Raised e => HTTPError A 500 (exn_msg e)
  end.

Definition required_fields : list string :=
  ["from"; "name"; "subject"; "Email_Content"].

Section Endpoints.
Context {H : LLM.Host} {U : Str.Lower}.
(** What the workflow takes from outside, as in [Workflow]. *)
Variable json_loads : string -> result json.
Variable intent_prompt : EmailPayload -> string.
Variable reply_prompt : EmailPayload -> json -> bool -> string.
Variable Logs : Type.
Variable write_log :
  string -> string -> string -> json -> Logs -> result string * Logs.
Variable isoformat : nat -> string.
Variable strftime : nat -> string.
Variable llm_manager : LLM.LLMManager.

(** [POST /api/email/process]; the payload is a dictionary of
    dictionaries of strings. *)
Definition process_email (email_data : Dict.dict (Dict.dict string))
           (st : @Workflow.State H Logs)
  : Answer Workflow.WorkflowResult * @Workflow.State H Logs :=
  match Dict.get "email" email_data with
  | None => (HTTPError _ 400 "Missing 'email' field in payload", st)
  | Some email_info =>
      match find (fun field => negb (Dict.mem field email_info))
                 required_fields with
      | Some field =>
          (HTTPError _ 400 ("Missing required field: " ++ field), st)
      | None =>
          let '(result, st') :=
            Workflow.process_email json_loads intent_prompt reply_prompt
                                   write_log isoformat strftime llm_manager
                                   email_data st in
          (logged result, st')
      end
  end.

(** [POST /api/generate] *)
Definition generate_text (prompt : string)
           (system_prompt preferred_model : option string) (w : LLM.World)
  : Answer LLM.GenerateResult * LLM.World :=
  let r := LLM.generate_text llm_manager prompt system_prompt
                             preferred_model w in
  (logged (LLM.returned r), LLM.world r).

(** [POST /api/email/reply]: the reply and the name of the sender *)
Definition generate_email_reply (sender_name email_content : string)
           (preferred_model : option string) (w : LLM.World)
  : Answer (string * string) * LLM.World :=
  let '(reply, w') :=
    LLM.generate_email_reply llm_manager sender_name email_content
                             preferred_model w in
  (logged (reply, sender_name), w').

(** [POST /api/email/extract-sender] *)
Definition extract_sender_name (email_content : string)
           (preferred_model : option string) (w : LLM.World)
  : Answer (option string) * LLM.World :=
  let '(sender_name, w') :=
    LLM.extract_sender_name llm_manager email_content preferred_model w in
  (logged sender_name, w').

(** [POST /api/email/process-simple]: the name of the sender and the
    reply *)
Definition process_email_simple (email_content : string)
           (preferred_model : option string) (w : LLM.World)
  : Answer (option string * string) * LLM.World :=
  let '(sender_name, w1) :=
    LLM.extract_sender_name llm_manager email_content preferred_model w in
  let '(reply, w2) :=
    LLM.generate_email_reply llm_manager (WebServer.or_there sender_name)
                             email_content preferred_model w1 in
  (logged (sender_name, reply), w2).
End Endpoints.
End WebServerMore.

(* ================================================================== *)
(** * services/file_logger.py: reading the log back *)

Module FileLoggerMore.

(** The file [data/logs.txt]: it does not exist, or opening and reading
    it gives its lines or raises. *)
Inductive LogFile : Type :=
| NoFile
| Holds (all_lines : result (list string)).

(** [l[start:]] *)
Definition slice_from (A : Type) (start : Z) (l : list A) : list A :=
  if start <? 0
  then skipn (Z.to_nat (Z.max 0 (Z.of_nat (List.length l) + start))) l
  else skipn (Z.to_nat start) l.

(** [get_logs] *)
Definition get_logs (lines : Z) (logs_file : LogFile) : list string :=
  match logs_file with
  | NoFile => []
  | Holds (Raised _) => []
  | Holds (Returned all_lines) =>
      if Z.of_nat (List.length all_lines) >? lines
      then slice_from (- lines) all_lines
      else all_lines
  end.
End FileLoggerMore.

(* ================================================================== *)
(** * Facts about dictionaries *)

Module DictFacts.
Section DictFacts.
Variable V : Type.
Implicit Types (d : Dict.dict V) (k : string) (v : V).

Lemma get_None_keys k d : Dict.get k d = None <-> ~ In k (Dict.keys d).
Proof.
  induction d as [|[k0 v0] d IH]; simpl.
  - tauto.
  - destruct (String.eqb_spec k k0) as [->|Hne].
    + split; [discriminate | intros Hn; exfalso; apply Hn; now left].
    + rewrite IH. split; intros Hn.
      * intros [Heq|Hin]; [congruence | tauto].
      * intros Hin; apply Hn; now right.
Qed.

Lemma mem_true_keys k d : Dict.mem k d = true <-> In k (Dict.keys d).
Proof.
  unfold Dict.mem. destruct (Dict.get k d) eqn:E.
  - split; [intros _ | reflexivity].
    destruct (in_dec string_dec k (Dict.keys d)) as [Hin|Hn]; [exact Hin|].
    apply get_None_keys in Hn. congruence.
  - split; [discriminate | intros Hin].
    apply get_None_keys in E. contradiction.
Qed.

Lemma get_Some_mem k d v : Dict.get k d = Some v -> Dict.mem k d = true.
Proof. unfold Dict.mem. now intros ->. Qed.

Lemma get_set_same k v d : Dict.get k (Dict.set k v d) = Some v.
Proof.
  induction d as [|[k0 v0] d IH]; simpl.
  - now rewrite String.eqb_refl.
  - destruct (String.eqb k k0) eqn:E; simpl; now rewrite E.
Qed.

Lemma get_set_other k k' v d :
  k <> k' -> Dict.get k' (Dict.set k v d) = Dict.get k' d.
Proof.
  intros Hne. induction d as [|[k0 v0] d IH]; simpl.
  - destruct (String.eqb_spec k' k); [congruence | reflexivity].
  - destruct (String.eqb_spec k k0) as [->|Hk]; simpl.
    + destruct (String.eqb_spec k' k0); [congruence | reflexivity].
    + now rewrite IH.
Qed.

Lemma get_del_other k k' d :
  k <> k' -> Dict.get k' (Dict.del k d) = Dict.get k' d.
Proof.
  intros Hne. induction d as [|[k0 v0] d IH]; simpl; [reflexivity|].
  destruct (String.eqb_spec k k0) as [->|Hk]; simpl.
  - destruct (String.eqb_spec k' k0); [congruence | reflexivity].
  - now rewrite IH.
Qed.

Lemma get_del_same k d : Dict.wf d -> Dict.get k (Dict.del k d) = None.
Proof.
  unfold Dict.wf. induction d as [|[k0 v0] d IH]; simpl; intros Hwf;
    [reflexivity|].
  inversion Hwf as [|? ? Hnin Hnd]; subst.
  destruct (String.eqb_spec k k0) as [->|Hk]; simpl.
  - now apply get_None_keys.
  - destruct (String.eqb_spec k k0); [congruence | now apply IH].
Qed.

Lemma keys_del_incl k d x :
  In x (Dict.keys (Dict.del k d)) -> In x (Dict.keys d).
Proof.
  induction d as [|[k0 v0] d IH]; simpl; [tauto|].
  destruct (String.eqb k k0); simpl; intuition.
Qed.

Lemma keys_set_incl k v d x :
  In x (Dict.keys (Dict.set k v d)) -> x = k \/ In x (Dict.keys d).
Proof.
  induction d as [|[k0 v0] d IH]; simpl.
  - intros [<-|[]]; now left.
  - destruct (String.eqb k k0); simpl; intuition.
Qed.

Lemma wf_del k d : Dict.wf d -> Dict.wf (Dict.del k d).
Proof.
  unfold Dict.wf. induction d as [|[k0 v0] d IH]; simpl; intros Hwf;
    [constructor|].
  inversion Hwf as [|? ? Hnin Hnd]; subst.
  destruct (String.eqb k k0); simpl; [assumption|].
  constructor; [|now apply IH].
  intros Hin. apply Hnin. eapply keys_del_incl; eassumption.
Qed.

Lemma wf_set k v d : Dict.wf d -> Dict.wf (Dict.set k v d).
Proof.
  unfold Dict.wf. induction d as [|[k0 v0] d IH]; simpl; intros Hwf.
  - constructor; [intros [] | constructor].
  - inversion Hwf as [|? ? Hnin Hnd]; subst.
    destruct (String.eqb_spec k k0) as [->|Hk]; simpl.
    + now constructor.
    + constructor; [|now apply IH].
      intros Hin. apply keys_set_incl in Hin. destruct Hin; congruence.
Qed.

Lemma length_set_present k v d :
  Dict.mem k d = true -> List.length (Dict.set k v d) = List.length d.
Proof.
  unfold Dict.mem. induction d as [|[k0 v0] d IH]; simpl;
    [discriminate|].
  destruct (String.eqb k k0); simpl; [reflexivity|].
  intros Hm. now rewrite IH.
Qed.

Lemma length_set_absent k v d :
  Dict.mem k d = false ->
  List.length (Dict.set k v d) = S (List.length d).
Proof.
  unfold Dict.mem. induction d as [|[k0 v0] d IH]; simpl;
    [reflexivity|].
  destruct (String.eqb k k0); simpl; [discriminate|].
  intros Hm. now rewrite IH.
Qed.

Lemma length_set_le k v d :
  (List.length (Dict.set k v d) <= S (List.length d))%nat.
Proof.
  destruct (Dict.mem k d) eqn:E.
  - rewrite length_set_present by assumption. lia.
  - rewrite length_set_absent by assumption. lia.
Qed.

Lemma length_del_present k d :
  Dict.mem k d = true ->
  S (List.length (Dict.del k d)) = List.length d.
Proof.
  unfold Dict.mem. induction d as [|[k0 v0] d IH]; simpl;
    [discriminate|].
  destruct (String.eqb k k0); simpl; [reflexivity|].
  intros Hm. now rewrite IH.
Qed.

Lemma length_del_le k d :
  (List.length (Dict.del k d) <= List.length d)%nat.
Proof.
  induction d as [|[k0 v0] d IH]; simpl; [lia|].
  destruct (String.eqb k k0); simpl; lia.
Qed.

Lemma mem_set_same k v d : Dict.mem k (Dict.set k v d) = true.
Proof. unfold Dict.mem. now rewrite get_set_same. Qed.

Lemma mem_set_other k k' v d :
  k <> k' -> Dict.mem k' (Dict.set k v d) = Dict.mem k' d.
Proof. intros Hne. unfold Dict.mem. now rewrite get_set_other. Qed.

Lemma mem_del_other k k' d :
  k <> k' -> Dict.mem k' (Dict.del k d) = Dict.mem k' d.
Proof. intros Hne. unfold Dict.mem. now rewrite get_del_other. Qed.

Lemma mem_del_same k d : Dict.wf d -> Dict.mem k (Dict.del k d) = false.
Proof. intros Hwf. unfold Dict.mem. now rewrite get_del_same. Qed.

End DictFacts.
End DictFacts.

(* ================================================================== *)
(** * Facts about the cache *)

Module CacheFacts.
Import Cache.
Section CacheFacts.
Variable V : Type.
Implicit Types (self : CacheService V) (e : CacheEntry V) (k key : string).

Lemma inv_init : inv (@CacheService_init V).
Proof.
  unfold inv, len; simpl. repeat split; try lia. constructor.
Qed.

Lemma In_get k e (d : Dict.dict (CacheEntry V)) :
  Dict.wf d -> In (k, e) d -> Dict.get k d = Some e.
Proof.
  unfold Dict.wf. induction d as [|[k0 e0] d IH]; simpl; intros Hwf Hin;
    [contradiction|].
  inversion Hwf as [|? ? Hnin Hnd]; subst.
  destruct Hin as [Heq|Hin].
  - inversion Heq; subst. now rewrite String.eqb_refl.
  - destruct (String.eqb_spec k k0) as [->|Hk]; [|now apply IH].
    exfalso. apply Hnin. change k0 with (fst (k0, e)). now apply in_map.
Qed.

Lemma get_In k e (d : Dict.dict (CacheEntry V)) :
  Dict.get k d = Some e -> In (k, e) d.
Proof.
  induction d as [|[k0 e0] d IH]; simpl; [discriminate|].
  destruct (String.eqb_spec k k0) as [->|Hk].
  - intros [= ->]. now left.
  - intros Hg. right. now apply IH.
Qed.

(** The scan of [min]: its result is the start value or an element of
    the list, and no element is older. *)
Lemma min_by_last_accessed_spec (d : Dict.dict (CacheEntry V)) :
  forall best,
    let p := min_by_last_accessed best d in
    (p = best \/ In p d)
    /\ last_accessed (snd p) <= last_accessed (snd best)
    /\ forall x, In x d -> last_accessed (snd p) <= last_accessed (snd x).
Proof.
  induction d as [|x d IH]; simpl; intros best.
  - repeat split; auto; try lia; intros ? [].
  - destruct (IH (if last_accessed (snd x) <? last_accessed (snd best)
                  then x else best)) as (Hp & Hle & Hall).
    destruct (Z.ltb_spec (last_accessed (snd x))
                         (last_accessed (snd best))) as [Hlt|Hge].
    + repeat split.
      * destruct Hp as [->|Hin]; auto.
      * lia.
      * intros y [<-|Hy]; [exact Hle | now apply Hall].
    + repeat split.
      * destruct Hp as [->|Hin]; auto.
      * exact Hle.
      * intros y [<-|Hy]; [lia | now apply Hall].
Qed.

(** The victim of an eviction is a key of the store whose entry is no
    younger than any other. *)
Lemma oldest_key_spec (d : Dict.dict (CacheEntry V)) k :
  Dict.wf d ->
  oldest_key d = Some k ->
  exists e, Dict.get k d = Some e
            /\ forall k' e', Dict.get k' d = Some e' ->
                             last_accessed e <= last_accessed e'.
Proof.
  intros Hwf Hk. destruct d as [|x d]; [discriminate|].
  unfold oldest_key in Hk. injection Hk as <-.
  destruct (min_by_last_accessed_spec d x) as (Hp & Hle & Hall).
  set (p := min_by_last_accessed x d) in *.
  assert (Hin : In p (x :: d)) by (destruct Hp as [->|]; simpl; auto).
  exists (snd p). split.
  - apply In_get; [exact Hwf|]. now destruct p.
  - intros k' e' Hg. apply get_In in Hg. destruct Hg as [Heq|Hg].
    + rewrite Heq in Hle. exact Hle.
    + exact (Hall _ Hg).
Qed.

Lemma oldest_key_nonempty (d : Dict.dict (CacheEntry V)) :
  d <> [] -> exists k, oldest_key d = Some k.
Proof. destruct d; [congruence | eexists; reflexivity]. Qed.

(** ** The operations keep the invariant *)

Lemma inv_del self k : inv self -> inv (with_cache self (Dict.del k (cache self))).
Proof.
  unfold inv, len; simpl. intros (Hwf & Hpos & Hle).
  repeat split; [now apply DictFacts.wf_del | assumption |].
  pose proof (DictFacts.length_del_le k (cache self)). lia.
Qed.

Lemma inv_set_present self k e :
  inv self -> Dict.mem k (cache self) = true ->
  inv (with_cache self (Dict.set k e (cache self))).
Proof.
  unfold inv, len; simpl. intros (Hwf & Hpos & Hle) Hm.
  repeat split; [now apply DictFacts.wf_set | assumption |].
  now rewrite DictFacts.length_set_present.
Qed.

Lemma get_inv now1 now2 k self : inv self -> inv (snd (get now1 now2 k self)).
Proof.
  intros Hinv. unfold get.
  destruct (Dict.get k (cache self)) as [e|] eqn:Hg; [|exact Hinv].
  destruct (is_expired now1 e); simpl.
  - now apply inv_del.
  - apply inv_set_present; [exact Hinv|].
    eapply DictFacts.get_Some_mem; eassumption.
Qed.

Lemma evict_inv self : inv self -> inv (_evict_oldest self).
Proof.
  intros Hinv. unfold _evict_oldest.
  destruct (oldest_key (cache self)); [now apply inv_del | exact Hinv].
Qed.

(** An eviction from a store that is not empty removes one entry. *)
Lemma evict_length self :
  Dict.wf (cache self) -> 0 < len self ->
  len (_evict_oldest self) = len self - 1.
Proof.
  intros Hwf Hpos. unfold _evict_oldest.
  destruct (cache self) as [|x d] eqn:Hc.
  - unfold len in Hpos. rewrite Hc in Hpos. simpl in Hpos. lia.
  - destruct (oldest_key_nonempty (d := x :: d)) as [k Hk]; [discriminate|].
    rewrite Hk.
    destruct (@oldest_key_spec (x :: d) k) as (e & Hg & _);
      [exact Hwf | exact Hk |].
    unfold len. cbn [cache with_cache]. rewrite Hc.
    pose proof (@DictFacts.length_del_present _ k (x :: d)
                  (DictFacts.get_Some_mem _ _ Hg)) as Hl.
    lia.
Qed.

Lemma set_inv now k v ttl self : inv self -> inv (snd (set now k v ttl self)).
Proof.
  intros Hinv. unfold set.
  destruct (CacheEntry_init now v _) as [entry|x]; [|exact Hinv].
  simpl.
  destruct (Z.leb_spec (max_size self) (len self)) as [Hfull|Hroom].
  - pose proof (evict_inv Hinv) as (Hwf' & Hpos' & Hle').
    destruct Hinv as (Hwf & Hpos & Hle).
    pose proof (evict_length self Hwf ltac:(lia)) as Hlen.
    unfold inv, len in *; simpl.
    repeat split; [now apply DictFacts.wf_set | exact Hpos' |].
    pose proof (DictFacts.length_set_le k entry (cache (_evict_oldest self))).
    assert (max_size (_evict_oldest self) = max_size self) as ->.
    { unfold _evict_oldest. now destruct (oldest_key (cache self)). }
    lia.
  - destruct Hinv as (Hwf & Hpos & Hle).
    unfold inv, len in *; simpl.
    repeat split; [now apply DictFacts.wf_set | exact Hpos |].
    pose proof (DictFacts.length_set_le k entry (cache self)). lia.
Qed.

Lemma cleanup_inv clock self : inv self -> inv (cleanup_expired_entries clock self).
Proof.
  unfold cleanup_expired_entries. generalize (expired_keys clock 0 (cache self)).
  intros ks. revert self. induction ks as [|k ks IH]; intros self Hinv; simpl.
  - destruct self; exact Hinv.
  - specialize (IH (with_cache self (Dict.del k (cache self)))
                   (inv_del k Hinv)).
    exact IH.
Qed.

Lemma step_inv o self : inv self -> inv (step o self).
Proof.
  intros Hinv. destruct o; simpl.
  - now apply get_inv.
  - now apply set_inv.
  - unfold delete. destruct (Dict.mem key (cache self)); simpl;
      [now apply inv_del | exact Hinv].
  - destruct Hinv as (Hwf & Hpos & Hle). unfold inv, len; simpl.
    repeat split; [constructor | exact Hpos | lia].
  - unfold exists_. destruct (Dict.get key (cache self)) as [e|];
      [|exact Hinv].
    destruct (is_expired now e); simpl; [now apply inv_del | exact Hinv].
  - now apply evict_inv.
  - now apply cleanup_inv.
  - unfold get_or_set.
    pose proof (get_inv now1 now2 key Hinv) as Hg.
    destruct (get now1 now2 key self) as [r self1]. simpl in Hg.
    destruct r as [x|]; simpl; [exact Hg|].
    unfold scripted_factory.
    destruct factory as [|[v'|x] fs']; simpl.
    + exact Hg.
    + pose proof (set_inv now3 key v' ttl Hg) as Hs.
      destruct (set now3 key v' ttl self1). exact Hs.
    + destruct fs'; simpl; exact Hg.
Qed.

Lemma step_max_size o self : max_size (step o self) = max_size self.
Proof.
  assert (Hev : forall s : CacheService V,
             max_size (_evict_oldest s) = max_size s).
  { intros s. unfold _evict_oldest. now destruct (oldest_key (cache s)). }
  assert (Hget : forall n1 n2 k (s : CacheService V),
             max_size (snd (get n1 n2 k s)) = max_size s).
  { intros. unfold get. destruct (Dict.get k (cache s)) as [e|]; [|reflexivity].
    now destruct (is_expired n1 e). }
  assert (Hset : forall n k v t (s : CacheService V),
             max_size (snd (set n k v t s)) = max_size s).
  { intros. unfold set. destruct (CacheEntry_init n v _); [|reflexivity].
    simpl. destruct (max_size s <=? len s); [apply Hev | reflexivity]. }
  destruct o; simpl; auto.
  - unfold delete. now destruct (Dict.mem key (cache self)).
  - unfold exists_. destruct (Dict.get key (cache self)) as [e|]; [|reflexivity].
    now destruct (is_expired now e).
  - unfold get_or_set.
    specialize (Hget now1 now2 key self).
    destruct (get now1 now2 key self) as [r self1]. simpl in Hget.
    destruct r as [x|]; simpl; [exact Hget|].
    unfold scripted_factory.
    destruct factory as [|[v'|x] fs']; simpl; auto.
    + specialize (Hset now3 key v' ttl self1).
      destruct (set now3 key v' ttl self1). simpl in *. congruence.
    + destruct fs'; simpl; exact Hget.
Qed.

(** ** What [get] and [set] compute *)

Lemma get_absent now1 now2 k self :
  Dict.get k (cache self) = None -> get now1 now2 k self = (None, self).
Proof. unfold get. now intros ->. Qed.

Lemma get_expired now1 now2 k self e :
  Dict.get k (cache self) = Some e -> expires_at e < now1 ->
  get now1 now2 k self
  = (None, with_cache self (Dict.del k (cache self))).
Proof.
  unfold get, is_expired. intros -> Hlt.
  destruct (Z.ltb_spec (expires_at e) now1); [reflexivity | lia].
Qed.

Lemma get_hit now1 now2 k self e :
  Dict.get k (cache self) = Some e -> now1 <= expires_at e ->
  get now1 now2 k self
  = (value e,
     with_cache self (Dict.set k (access now2 e) (cache self))).
Proof.
  unfold get, is_expired. intros -> Hle.
  destruct (Z.ltb_spec (expires_at e) now1); [lia | reflexivity].
Qed.

Lemma set_success now k v ttl self self1 :
  set now k v ttl self = (true, self1) ->
  let expiry := now + effective_ttl self ttl * 1000000 in
  0 <= expiry <= datetime_max
  /\ self1 = with_cache (room self)
               (Dict.set k (mkEntry v now expiry 0 now)
                         (cache (room self))).
Proof.
  unfold set, CacheEntry_init, datetime_add_seconds, room.
  set (expiry := now + effective_ttl self ttl * 1000000).
  destruct (Z.leb_spec 0 expiry); destruct (Z.leb_spec expiry datetime_max);
    simpl; intros [= <-]; (split; [lia | reflexivity]).
Qed.

Lemma set_stores now k v ttl self self1 :
  set now k v ttl self = (true, self1) ->
  Dict.get k (cache self1)
  = Some (mkEntry v now (now + effective_ttl self ttl * 1000000) 0 now).
Proof.
  intros Hs. apply set_success in Hs. destruct Hs as (_ & ->).
  simpl. apply DictFacts.get_set_same.
Qed.

Lemma room_wf self : Dict.wf (cache self) -> Dict.wf (cache (room self)).
Proof.
  intros Hwf. unfold room, _evict_oldest.
  destruct (max_size self <=? len self); [|exact Hwf].
  destruct (oldest_key (cache self)); [|exact Hwf].
  simpl. now apply DictFacts.wf_del.
Qed.

Lemma set_wf now k v ttl self :
  Dict.wf (cache self) -> Dict.wf (cache (snd (set now k v ttl self))).
Proof.
  intros Hwf. unfold set.
  destruct (CacheEntry_init now v _); [|exact Hwf].
  simpl. apply DictFacts.wf_set. now apply room_wf.
Qed.

Lemma run_inv os self :
  inv self -> inv (run os self) /\ max_size (run os self) = max_size self.
Proof.
  revert self. induction os as [|o os IH]; intros self Hinv; simpl.
  - now split.
  - destruct (IH (step o self) (step_inv o Hinv)) as (Hi & Hm).
    split; [exact Hi|]. rewrite Hm. apply step_max_size.
Qed.


(** ** The claims about the cache *)

(** C3.  [set(k, v, ttl=T)] followed by [get(k)] before the expiry time
    (the time of the [set] plus [T] seconds) has passed returns [v]; a
    [get(k)] after the expiry time of the entry has passed returns
    nothing and deletes the entry; a hit on an unexpired entry returns
    its value, adds one to its access count and sets its last access
    to the time of the hit. *)
Theorem ttl_round_trip self k :
  Dict.wf (cache self) ->
  (forall now v T self1,
      set now k v (Some T) self = (true, self1) ->
      (forall now1 now2,
          now1 <= now + T * 1000000 ->
          fst (get now1 now2 k self1) = v)
      /\ (forall now1 now2,
          now + T * 1000000 < now1 ->
          fst (get now1 now2 k self1) = None
          /\ Dict.get k (cache (snd (get now1 now2 k self1))) = None))
  /\ (forall e now1 now2,
      Dict.get k (cache self) = Some e ->
      expires_at e < now1 ->
      fst (get now1 now2 k self) = None
      /\ Dict.get k (cache (snd (get now1 now2 k self))) = None)
  /\ (forall e now1 now2,
      Dict.get k (cache self) = Some e ->
      now1 <= expires_at e ->
      fst (get now1 now2 k self) = value e
      /\ exists e',
          Dict.get k (cache (snd (get now1 now2 k self))) = Some e'
          /\ access_count e' = access_count e + 1
          /\ last_accessed e' = now2
          /\ value e' = value e
          /\ created_at e' = created_at e
          /\ expires_at e' = expires_at e).
Proof.
  intros Hwf.
  assert (Hexp : forall s e now1 now2,
             Dict.wf (cache s) ->
             Dict.get k (cache s) = Some e -> expires_at e < now1 ->
             fst (get now1 now2 k s) = None
             /\ Dict.get k (cache (snd (get now1 now2 k s))) = None).
  { intros s e now1 now2 Hw Hg Hlt.
    rewrite (@get_expired now1 now2 k s e Hg Hlt). simpl.
    split; [reflexivity | now apply DictFacts.get_del_same]. }
  split; [|split].
  - intros now v T self1 Hset.
    pose proof (@set_stores _ _ _ _ _ _ Hset) as Hst. simpl in Hst.
    assert (Hwf1 : Dict.wf (cache self1)).
    { pose proof (@set_wf now k v (Some T) self Hwf) as Hw.
      now rewrite Hset in Hw. }
    split; intros now1 now2 Hnow.
    + now rewrite (@get_hit now1 now2 k self1 _ Hst Hnow).
    + now apply (Hexp self1 _ now1 now2 Hwf1 Hst).
  - intros e now1 now2. now apply Hexp.
  - intros e now1 now2 Hg Hle.
    rewrite (@get_hit now1 now2 k self e Hg Hle). simpl.
    split; [reflexivity|].
    exists (access now2 e). rewrite DictFacts.get_set_same.
    repeat split.
Qed.

(** C4.  From a store within its bound no sequence of operations leads
    to a store of more than [max_size] entries; and a [set] on a store
    of exactly [max_size] entries first deletes one entry, whose last
    access is the oldest of the store, and then inserts: for a key that
    was not stored the victim is the only key lost and the store is
    full again. *)
Theorem size_bound self :
  Dict.wf (cache self) -> 0 < max_size self -> len self <= max_size self ->
  (forall os, len (run os self) <= max_size self)
  /\ (forall now k v ttl self1,
        len self = max_size self ->
        set now k v ttl self = (true, self1) ->
        exists victim ventry entry,
          Dict.get victim (cache self) = Some ventry
          /\ (forall k' e', Dict.get k' (cache self) = Some e' ->
                            last_accessed ventry <= last_accessed e')
          /\ _evict_oldest self
             = with_cache self (Dict.del victim (cache self))
          /\ len (_evict_oldest self) = max_size self - 1
          /\ cache self1
             = Dict.set k entry (Dict.del victim (cache self))
          /\ value entry = v
          /\ (Dict.mem k (cache self) = false ->
              len self1 = max_size self
              /\ Dict.mem victim (cache self1) = false
              /\ forall k', k' <> victim ->
                            Dict.mem k' (cache self) = true ->
                            Dict.mem k' (cache self1) = true)).
Proof.
  intros Hwf Hpos Hle. split.
  - intros os.
    destruct (@run_inv os self) as ((_ & _ & Hb) & Hm);
      [now repeat split|].
    now rewrite Hm in Hb.
  - intros now k v ttl self1 Hfull Hset.
    apply set_success in Hset. destruct Hset as (_ & ->).
    unfold room.
    destruct (Z.leb_spec (max_size self) (len self)) as [_|Hlt]; [|lia].
    assert (Hne : cache self <> []).
    { intros Hc. unfold len in Hfull. rewrite Hc in Hfull. simpl in Hfull.
      lia. }
    destruct (oldest_key_nonempty Hne) as [victim Hv].
    destruct (oldest_key_spec Hwf Hv) as (ventry & Hg & Hold).
    assert (Hev : _evict_oldest self
                  = with_cache self (Dict.del victim (cache self))).
    { unfold _evict_oldest. now rewrite Hv. }
    pose proof (evict_length self Hwf ltac:(lia)) as Hlen.
    exists victim, ventry. eexists.
    split; [exact Hg|]. split; [exact Hold|]. split; [exact Hev|].
    split; [lia|]. rewrite Hev. simpl.
    split; [reflexivity|]. split; [reflexivity|].
    intros Hnew.
    assert (Hkv : k <> victim).
    { intros ->. unfold Dict.mem in Hnew. now rewrite Hg in Hnew. }
    assert (Hnew' : Dict.mem k (Dict.del victim (cache self)) = false).
    { rewrite DictFacts.mem_del_other by congruence. exact Hnew. }
    split; [|split].
    + rewrite Hev in Hlen. unfold len in *. simpl in *.
      rewrite DictFacts.length_set_absent by exact Hnew'. lia.
    + rewrite DictFacts.mem_set_other by exact Hkv.
      now apply DictFacts.mem_del_same.
    + intros k' Hk' Hm.
      destruct (string_dec k k') as [<-|Hkk'].
      * apply DictFacts.mem_set_same.
      * rewrite DictFacts.mem_set_other by exact Hkk'.
        rewrite DictFacts.mem_del_other by congruence. exact Hm.
Qed.

(** C5, as the code has it.  When [get(k)] finds nothing (the key is
    absent or expired, or its stored value is [None]) the factory is
    called.  If that call returns, its value is returned after a [set]
    under [k], which stores it whenever the [set] succeeds.  If that
    call raises, the factory is called a second time and the caller
    gets the outcome of the second call, value or failure, while the
    store stays as the [get] left it: for an absent or expired key
    nothing is cached under [k].  When [k] holds an unexpired entry
    whose value is not [None], that value is returned and the factory
    is not called. *)
Theorem get_or_set_behaviour (FS : Type)
        (factory : FS -> result (Any V) * FS)
        self k ttl fs now1 now2 now3 :
  Dict.wf (cache self) ->
  let r := get_or_set factory now1 now2 now3 k ttl self fs in
  let self1 := snd (get now1 now2 k self) in
  (fst (get now1 now2 k self) = None ->
     (forall v fs1,
         factory fs = (Returned v, fs1) ->
         outcome r = Returned v
         /\ factory_calls r = 1%nat
         /\ factory_state r = fs1
         /\ service r = snd (set now3 k v ttl self1)
         /\ (fst (set now3 k v ttl self1) = true ->
             exists e, Dict.get k (cache (service r)) = Some e
                       /\ value e = v))
     /\ (forall x fs1,
         factory fs = (Raised x, fs1) ->
         outcome r = fst (factory fs1)
         /\ factory_calls r = 2%nat
         /\ factory_state r = snd (factory fs1)
         /\ service r = self1))
  /\ ((Dict.get k (cache self) = None
       \/ exists e, Dict.get k (cache self) = Some e
                    /\ expires_at e < now1) ->
      fst (get now1 now2 k self) = None
      /\ Dict.get k (cache self1) = None)
  /\ (forall e v,
        Dict.get k (cache self) = Some e ->
        now1 <= expires_at e ->
        value e = Some v ->
        outcome r = Returned (Some v)
        /\ factory_calls r = 0%nat
        /\ factory_state r = fs).
Proof.
  intros Hwf r self1. subst r self1. unfold get_or_set.
  split; [|split].
  - intros Hmiss.
    destruct (get now1 now2 k self) as [g s1] eqn:Hget.
    simpl in Hmiss. subst g. simpl.
    split.
    + intros v fs1 Hf. rewrite Hf.
      destruct (set now3 k v ttl s1) as [ok s2] eqn:Hs. simpl.
      repeat split. intros ->.
      pose proof (@set_stores _ _ _ _ _ _ Hs) as Hst.
      eexists. split; [exact Hst | reflexivity].
    + intros x fs1 Hf. rewrite Hf.
      destruct (factory fs1) as [r2 fs2]. simpl. repeat split.
  - intros [Habs | (e & Hg & Hlt)].
    + rewrite (@get_absent now1 now2 k self Habs). simpl. now split.
    + rewrite (@get_expired now1 now2 k self e Hg Hlt). simpl.
      split; [reflexivity | now apply DictFacts.get_del_same].
  - intros e v Hg Hle Hv.
    rewrite (@get_hit now1 now2 k self e Hg Hle). rewrite Hv. simpl.
    repeat split.
Qed.

(** C10.  A key whose unexpired entry holds [None] behaves as a missing
    key: [get] returns [None], as it does for an absent key, and
    [get_or_set] calls the factory although the entry is there; so a
    [None] stored by [set] is never read back as a hit. *)
Theorem none_value_is_a_miss self k e now1 now2 :
  Dict.get k (cache self) = Some e ->
  value e = None ->
  now1 <= expires_at e ->
  fst (get now1 now2 k self) = None
  /\ (forall self0 : CacheService V,
        Dict.get k (cache self0) = None ->
        fst (get now1 now2 k self0) = fst (get now1 now2 k self))
  /\ (forall (FS : Type) (factory : FS -> result (Any V) * FS)
             now3 ttl fs,
        (1 <= factory_calls
                (get_or_set factory now1 now2 now3 k ttl self fs))%nat)
  /\ (forall now ttl self1 n1 n2,
        set now k None ttl self = (true, self1) ->
        fst (get n1 n2 k self1) = None).
Proof.
  intros Hg Hv Hle.
  assert (Hmiss : fst (get now1 now2 k self) = None).
  { rewrite (@get_hit now1 now2 k self e Hg Hle). simpl. exact Hv. }
  split; [exact Hmiss|]. split; [|split].
  - intros self0 Habs. rewrite Hmiss.
    now rewrite (@get_absent now1 now2 k self0 Habs).
  - intros FS factory now3 ttl fs. unfold get_or_set.
    destruct (get now1 now2 k self) as [g s1]. simpl in Hmiss. subst g.
    destruct (factory fs) as [[v'|x] fs1].
    + destruct (set now3 k v' ttl s1). simpl. lia.
    + destruct (factory fs1). simpl. lia.
  - intros now ttl self1 n1 n2 Hs.
    pose proof (@set_stores _ _ _ _ _ _ Hs) as Hst.
    unfold get. rewrite Hst.
    destruct (is_expired n1 _); reflexivity.
Qed.

End CacheFacts.

(** ** The claims at concrete stores *)

Lemma ttl_round_trip_witness :
  let s := snd (set 0 "k" (Some 7) (Some 10) (CacheService_init Z)) in
  fst (get 5 6 "k" s) = Some 7
  /\ fst (get 10000001 10000002 "k" s) = None.
Proof.
  assert (Hwf : Dict.wf (cache (CacheService_init Z))) by constructor.
  destruct (@ttl_round_trip Z (CacheService_init Z) "k" Hwf) as (Hset & _).
  destruct (Hset 0 (Some 7) 10 _ eq_refl) as (Hlive & Hdead).
  split.
  - apply Hlive. lia.
  - apply Hdead. lia.
Defined.

(** A store of bound two, filled by two [set]s, the older key read
    afterwards. *)
Lemma size_bound_witness :
  let full := run [OpSet 1 "a" (Some 1) None; OpSet 2 "b" (Some 2) None;
                   OpGet 3 3 "a"] (mkService [] 2 3600 300) in
  len (run [OpSet 4 "c" (Some 3) None; OpDelete "a";
            OpSet 5 "d" (Some 4) (Some 60)] full) <= 2
  /\ len (snd (set 4 "c" (Some 3) None full)) = 2.
Proof.
  intros full.
  assert (Hwf : Dict.wf (cache full))
    by (repeat constructor; simpl; intuition discriminate).
  destruct (@size_bound Z full Hwf ltac:(simpl; lia)
              ltac:(unfold len; simpl; lia)) as (Hrun & Hevict).
  split; [apply Hrun|].
  destruct (Hevict 4 "c" (Some 3) None _ eq_refl eq_refl)
    as (victim & ventry & entry & _ & _ & _ & _ & _ & _ & Hnew).
  apply Hnew. reflexivity.
Defined.

(** The victim is the entry read least recently, not the one inserted
    first: after the read of "a", the [set] of "c" evicts "b". *)
Example evicts_least_recently_accessed :
  Dict.keys
    (cache (run [OpSet 1 "a" (Some 1) None; OpSet 2 "b" (Some 2) None;
                 OpGet 3 3 "a"; OpSet 4 "c" (Some 3) None]
                (mkService [] 2 3600 300)))
  = ["a"; "c"].
Proof. reflexivity. Qed.

(** The store of [__init__] keeps its bound of 1000 entries. *)
Lemma init_size_bound (V : Type) (os : list (op V)) :
  len (run os (CacheService_init V)) <= 1000.
Proof.
  destruct (@run_inv V os (CacheService_init V) (@inv_init V))
    as ((_ & _ & Hb) & Hm).
  now rewrite Hm in Hb.
Qed.

Lemma get_or_set_behaviour_witness :
  outcome (get_or_set (@scripted_factory Z) 0 0 0 "k" None
                      (CacheService_init Z)
                      [Raised (Exn ValueError "boom")])
  = Raised (Exn RuntimeError "factory").
Proof.
  assert (Hwf : Dict.wf (cache (CacheService_init Z))) by constructor.
  destruct (@get_or_set_behaviour Z _ (@scripted_factory Z)
              (CacheService_init Z) "k" None
              [Raised (Exn ValueError "boom")] 0 0 0 Hwf)
    as (Hmiss & _).
  destruct (Hmiss eq_refl) as (_ & Hraise).
  destruct (Hraise _ _ eq_refl) as (Hout & _).
  exact Hout.
Defined.

(** C5 as stated fails twice: a factory whose first call raises and
    whose second call returns has its value returned, not its failure;
    and for a key holding an unexpired [None] the factory is called. *)
Lemma get_or_set_counterexample :
  (let r := get_or_set (@scripted_factory Z) 0 0 0 "k" None
                       (CacheService_init Z)
                       [Raised (Exn ValueError "boom"); Returned (Some 7)] in
   outcome r = Returned (Some 7)
   /\ factory_calls r = 2%nat
   /\ Dict.get "k" (cache (service r)) = None)
  /\ (let s := snd (set 0 "k" None (Some 3600) (CacheService_init Z)) in
      let r := get_or_set (@scripted_factory Z) 1 1 1 "k" None s
                          [Returned (Some 5)] in
      (exists e, Dict.get "k" (cache s) = Some e
                 /\ is_expired 1 e = false)
      /\ factory_calls r = 1%nat
      /\ outcome r = Returned (Some 5)).
Proof.
  split.
  - repeat split.
  - split; [eexists; split; reflexivity | split; reflexivity].
Qed.

Lemma none_value_is_a_miss_witness :
  let s := snd (set 0 "k" None (Some 3600) (CacheService_init Z)) in
  fst (get 1 2 "k" s) = None.
Proof.
  exact (proj1 (@none_value_is_a_miss Z
                  (snd (set 0 "k" None (Some 3600) (CacheService_init Z)))
                  "k" _ 1 2 eq_refl eq_refl ltac:(simpl; lia))).
Defined.

End CacheFacts.

(* ================================================================== *)
(** * Facts about the fallback invoker *)

Module LLMFacts.
Import LLM.
Section LLMFacts.
Context {H : Host}.
Implicit Types (self : LLMManager) (names : list string) (w : World).

Lemma In_list_In x (l : list string) : In_list x l = true <-> In x l.
Proof.
  unfold In_list. rewrite existsb_exists. split.
  - intros (y & Hin & Heq). apply String.eqb_eq in Heq. now subst.
  - intros Hin. exists x. split; [exact Hin | apply String.eqb_refl].
Qed.

Lemma In_list_app x (l1 l2 : list string) :
  In_list x (l1 ++ l2) = In_list x l1 || In_list x l2.
Proof. apply existsb_app. Qed.

(** The loop that builds [models_to_try] appends, in order, the
    identifiers that are not yet in the list. *)
Lemma dedup_fold (l : list string) :
  NoDup l ->
  forall acc,
    fold_left (fun acc model => if In_list model acc then acc
                                else (acc ++ [model])%list) l acc
    = (acc ++ filter (fun m => negb (In_list m acc)) l)%list.
Proof.
  induction 1 as [|x l Hnin Hnd IH]; intros acc; simpl.
  - now rewrite app_nil_r.
  - destruct (In_list x acc) eqn:E; simpl.
    + apply IH.
    + rewrite IH, <- app_assoc. simpl. do 2 f_equal.
      apply filter_ext_in. intros m Hm.
      rewrite In_list_app. simpl.
      destruct (String.eqb_spec m x) as [->|Hne]; [contradiction|].
      now rewrite !orb_false_r.
Qed.

Lemma filter_all (l : list string) : filter (fun _ => true) l = l.
Proof. induction l; simpl; congruence. Qed.

Lemma models_to_try_spec self preferred_model :
  registry_ok self ->
  models_to_try self preferred_model = try_order_spec self preferred_model.
Proof.
  intros (Hnd & Hkeys & Hempty).
  unfold models_to_try, try_order_spec.
  rewrite (dedup_fold Hnd).
  destruct preferred_model as [p|]; simpl; [|apply filter_all].
  rewrite <- Hkeys.
  destruct (In_list p (model_order self)) eqn:Hp.
  - assert (Str.truthy p = true) as ->.
    { destruct p; [congruence | reflexivity]. }
    simpl. f_equal. apply filter_ext. intros m.
    now rewrite orb_false_r.
  - rewrite andb_false_r. simpl. apply filter_all.
Qed.

Lemma names_registered self preferred_model n :
  registry_ok self ->
  In n (models_to_try self preferred_model) ->
  Dict.mem n (models self) = true.
Proof.
  intros Hok Hin. rewrite (models_to_try_spec preferred_model Hok) in Hin.
  destruct Hok as (Hnd & Hkeys & Hempty). rewrite <- Hkeys.
  unfold try_order_spec in Hin.
  destruct preferred_model as [p|]; [|now apply In_list_In].
  destruct (In_list p (model_order self)) eqn:Hp; [|now apply In_list_In].
  destruct Hin as [<-|Hin]; [exact Hp|].
  apply filter_In in Hin. now apply In_list_In.
Qed.

(** The registry that [_initialize_models] returns is of this kind and
    holds one provider at least. *)
Lemma initialize_models_ok (s : Settings) self :
  _initialize_models s = Returned self ->
  registry_ok self /\ model_order self <> [].
Proof.
  unfold _initialize_models, register.
  destruct (configured (openai_api_key s) _);
    [destruct (new_client OpenAI _)|];
    (destruct (configured (groq_api_key s) _);
     [destruct (new_client Groq _)|]);
    (destruct (configured (google_api_key s) _);
     [destruct (new_client Google _)|]);
    (destruct (configured (anthropic_api_key s) _);
     [destruct (new_client Anthropic _)|]);
    cbn; intros Hret; try discriminate Hret;
    injection Hret as <-; (split; [|discriminate]);
    (split; [repeat constructor; cbn; intuition discriminate|]);
    (split; [|reflexivity]);
    intros name; unfold Dict.mem; cbn;
    destruct (String.eqb name "openai"), (String.eqb name "groq"),
      (String.eqb name "google"), (String.eqb name "anthropic");
    reflexivity.
Qed.

Lemma attempt_registered self messages n w m :
  Dict.get n (models self) = Some m ->
  attempt self messages n w
  = (fst (ainvoke m messages w), true, snd (ainvoke m messages w)).
Proof.
  unfold attempt. intros ->. now destruct (ainvoke m messages w).
Qed.

Lemma outcome_at_zero self messages n rest w :
  outcome_at self messages (n :: rest) w 0
  = Some (fst (fst (attempt self messages n w))).
Proof. reflexivity. Qed.

Lemma outcome_at_succ self messages n rest w i :
  outcome_at self messages (n :: rest) w (S i)
  = outcome_at self messages rest (snd (attempt self messages n w)) i.
Proof. reflexivity. Qed.

(** The loop stops at the first candidate that returns. *)
Lemma try_models_success self messages :
  forall names w k content,
    (forall n, In n names -> Dict.mem n (models self) = true) ->
    (forall i, (i < k)%nat ->
               exists e, outcome_at self messages names w i
                         = Some (Raised e)) ->
    outcome_at self messages names w k = Some (Returned content) ->
    exists name w',
      nth_error names k = Some name
      /\ try_models self messages names w
         = (Some (name, content), firstn (S k) names, w').
Proof.
  induction names as [|n rest IH]; intros w k content Hreg Hfail Hok.
  - unfold outcome_at in Hok. destruct k; discriminate.
  - assert (Hn : Dict.mem n (models self) = true) by (apply Hreg; now left).
    unfold Dict.mem in Hn.
    destruct (Dict.get n (models self)) as [m|] eqn:Hm; [|discriminate].
    pose proof (attempt_registered self messages n w Hm) as Hat.
    destruct k as [|k].
    + rewrite outcome_at_zero, Hat in Hok. simpl in Hok.
      exists n, (snd (ainvoke m messages w)). split; [reflexivity|].
      cbn [try_models]. rewrite Hat.
      injection Hok as ->. reflexivity.
    + destruct (Hfail 0%nat ltac:(lia)) as (e & He).
      rewrite outcome_at_zero, Hat in He. simpl in He.
      destruct (IH (snd (ainvoke m messages w)) k content) as (name & w' & Hnth & Htry).
      * intros x Hx. apply Hreg. now right.
      * intros i Hi. destruct (Hfail (S i) ltac:(lia)) as (e' & He').
        rewrite outcome_at_succ, Hat in He'. now exists e'.
      * now rewrite outcome_at_succ, Hat in Hok.
      * exists name, w'. split; [exact Hnth|].
        cbn [try_models]. rewrite Hat.
        injection He as ->. rewrite Htry. reflexivity.
Qed.

(** The loop ends without a result when every candidate raises. *)
Lemma try_models_failure self messages :
  forall names w,
    (forall i, (i < List.length names)%nat ->
               exists e, outcome_at self messages names w i
                         = Some (Raised e)) ->
    fst (fst (try_models self messages names w)) = None.
Proof.
  induction names as [|n rest IH]; intros w Hfail; [reflexivity|].
  destruct (Hfail 0%nat ltac:(simpl; lia)) as (e & He).
  rewrite outcome_at_zero in He.
  cbn [try_models].
  destruct (attempt self messages n w) as [[r called] w'] eqn:Hat.
  simpl in He. injection He as ->.
  specialize (IH w').
  destruct (try_models self messages rest w') as [[res log'] w''].
  simpl in *. apply IH.
  intros i Hi. destruct (Hfail (S i) ltac:(simpl; lia)) as (e' & He').
  rewrite outcome_at_succ, Hat in He'. now exists e'.
Qed.

(** C1.  On a registry as the manager builds it, the candidates are the
    preferred identifier, when it is registered, followed by the other
    registered identifiers in registration order (an unregistered
    preferred identifier is ignored); and when the first [k] candidates
    raise and the next one returns a text, the call reports success
    with that text and that candidate as the model used, having
    invoked the first [k + 1] candidates and no other. *)
Theorem generate_text_fallback self prompt system_prompt preferred_model w :
  registry_ok self ->
  let names := models_to_try self preferred_model in
  let messages := prepare_messages prompt system_prompt in
  let r := generate_text self prompt system_prompt preferred_model w in
  names = try_order_spec self preferred_model
  /\ forall k content,
      (forall i, (i < k)%nat ->
                 exists e, outcome_at self messages names
                                      (snd (time_time w)) i
                           = Some (Raised e)) ->
      outcome_at self messages names (snd (time_time w)) k
      = Some (Returned content) ->
      success (returned r) = true
      /\ response (returned r) = content
      /\ model_used (returned r) = nth_error names k
      /\ error (returned r) = None
      /\ invoked r = firstn (S k) names.
Proof.
  intros Hok names messages r.
  split; [now apply models_to_try_spec|].
  intros k content Hfail Hsucc.
  destruct (@try_models_success self messages names (snd (time_time w))
              k content) as (name & w' & Hnth & Htry).
  - intros n Hn. eapply names_registered; eassumption.
  - exact Hfail.
  - exact Hsucc.
  - subst r. unfold generate_text.
    destruct (time_time w) as [start_time w0]. simpl in Htry.
    fold names messages. rewrite Htry.
    destruct (time_time w') as [end_time w2]. simpl.
    rewrite Hnth. repeat split.
Qed.

(** The envelope of a call all of whose candidates raise. *)
Lemma generate_text_failure self prompt system_prompt preferred_model w :
  let names := models_to_try self preferred_model in
  let messages := prepare_messages prompt system_prompt in
  let r := generate_text self prompt system_prompt preferred_model w in
  (forall i, (i < List.length names)%nat ->
             exists e, outcome_at self messages names
                                  (snd (time_time w)) i
                       = Some (Raised e)) ->
  success (returned r) = false
  /\ response (returned r) = apology
  /\ model_used (returned r) = None.
Proof.
  intros names messages r Hfail.
  pose proof (@try_models_failure self messages names (snd (time_time w))
                Hfail) as Hnone.
  subst r. unfold generate_text.
  destruct (time_time w) as [start_time w0]. simpl in Hnone.
  fold names messages.
  destruct (try_models self messages names w0) as [[res log] w1].
  simpl in Hnone. subst res.
  destruct (time_time w1) as [end_time w2]. simpl.
  repeat split.
Qed.

(** C2.  When every candidate raises, and so when there is no
    candidate, the call reports failure with the fixed apology and no
    model; with an empty registry no client is invoked. *)
Theorem generate_text_all_fail self prompt system_prompt preferred_model w :
  let names := models_to_try self preferred_model in
  let messages := prepare_messages prompt system_prompt in
  let r := generate_text self prompt system_prompt preferred_model w in
  (forall i, (i < List.length names)%nat ->
             exists e, outcome_at self messages names
                                  (snd (time_time w)) i
                       = Some (Raised e)) ->
  success (returned r) = false
  /\ response (returned r)
     = "I apologize, but I'm unable to generate a response at this time. Please try again later."
  /\ model_used (returned r) = None
  /\ (names = [] -> invoked r = [])
  /\ (models self = [] -> model_order self = [] -> invoked r = []).
Proof.
  intros names messages r Hfail.
  assert (Hempty : names = [] -> invoked r = []).
  { intros Hn. subst r. unfold generate_text.
    destruct (time_time w) as [start_time w0].
    fold names. rewrite Hn. simpl.
    now destruct (time_time w0). }
  assert (Hregistry : models self = [] -> model_order self = [] ->
                      invoked r = []).
  { intros Hm Ho. apply Hempty.
    unfold names, models_to_try. rewrite Hm, Ho.
    destruct preferred_model as [p|]; [|reflexivity].
    unfold Dict.mem. simpl. now rewrite andb_false_r. }
  pose proof (@generate_text_failure self prompt system_prompt
                preferred_model w Hfail) as Hres.
  destruct Hres as (Hs & Hr & Hm).
  repeat split; assumption.
Qed.

End LLMFacts.

Lemma demo_manager_ok : @registry_ok demo_host demo_manager.
Proof.
  repeat split.
  - repeat constructor; simpl; intuition discriminate.
  - intros name. unfold Dict.mem. simpl.
    destruct (String.eqb name "openai"), (String.eqb name "groq"),
      (String.eqb name "google"); reflexivity.
Qed.

Lemma generate_text_fallback_witness :
  let r := @generate_text demo_host demo_manager "Hi" None (Some "groq")
                          0%nat in
  success (returned r) = true
  /\ response (returned r) = "Hello"
  /\ model_used (returned r) = Some "google"
  /\ invoked r = ["groq"; "openai"; "google"].
Proof.
  destruct (@generate_text_fallback demo_host demo_manager "Hi" None
              (Some "groq") 0%nat demo_manager_ok) as (_ & Hrun).
  destruct (Hrun 2%nat "Hello") as (Hs & Hr & Hm & _ & Hi).
  - intros i Hi. destruct i as [|[|i]]; [eexists; reflexivity ..|lia].
  - reflexivity.
  - repeat split; assumption.
Defined.

Lemma generate_text_all_fail_witness :
  let r := @generate_text demo_host demo_manager_down "Hi" None None
                          0%nat in
  success (returned r) = false /\ model_used (returned r) = None.
Proof.
  destruct (@generate_text_all_fail demo_host demo_manager_down "Hi" None
              None 0%nat) as (Hs & _ & Hm & _).
  - intros i Hi. destruct i as [|[|i]]; [eexists; reflexivity ..|].
    simpl in Hi. lia.
  - split; assumption.
Defined.

End LLMFacts.

(* ================================================================== *)
(** * Facts about the intent classifiers *)

Module IntentFacts.
Import Json Intent.

Section Classifiers.
Context {U : Str.Lower}.

Lemma hits_pos_any text kws :
  (0 < hits text kws)%nat <-> any_hit text kws = true.
Proof.
  unfold hits, any_hit. induction kws as [|kw kws IH]; simpl.
  - split; [lia | discriminate].
  - destruct (Str.contains kw text); simpl; [split; [reflexivity | lia]|].
    exact IH.
Qed.

Lemma ltb_hits_any text kws : (0 <? hits text kws)%nat = any_hit text kws.
Proof.
  destruct (any_hit text kws) eqn:E.
  - apply Nat.ltb_lt. now apply hits_pos_any.
  - apply Nat.ltb_ge. destruct (hits text kws) eqn:Eh; [lia|].
    assert (any_hit text kws = true) by (apply hits_pos_any; lia).
    congruence.
Qed.

(** The scan of [max]: with the four scores [a], [b], [c], [d] of the
    table it returns the first category of maximal score. *)
Lemma determine_intent_cases email_content subject :
  let text := combined subject email_content in
  let a := score text intent_keywords "sales" in
  let b := score text intent_keywords "support" in
  let c := score text intent_keywords "partnership" in
  let d := score text intent_keywords "general" in
  determine_intent email_content subject
  = let best1 := if (a <? b)%nat then ("support", b) else ("sales", a) in
    let best2 := if (snd best1 <? c)%nat then ("partnership", c)
                 else best1 in
    let best3 := if (snd best2 <? d)%nat then ("general", d) else best2 in
    if (0 <? snd best3)%nat then fst best3 else "general".
Proof. reflexivity. Qed.

(** C8, as the code has it, whatever [lower] is.  On the model path,
    when the call fails or its answer is not a JSON object,
    [parse_email] returns the keyword fallback, which picks the first
    of sales, support, partnership, general, in that order, one of
    whose keywords occurs in the lower-cased subject and body, and
    general when none occurs: a text containing "pricing" is sales.
    The scoring classifier [determine_intent] returns one of the four
    categories: general when no keyword occurs, and otherwise the
    category of the highest score that comes first in that order
    (every category before the one returned scores less); a text
    containing "pricing" is sales there when no other category scores
    more than sales. *)
Theorem keyword_fallback subject email_content :
  let text := combined subject email_content in
  let p from name := mkPayload from name subject email_content in
  (* the fallback of the model path *)
  (forall from name,
      intent (_fallback_intent_parsing (p from name))
      = JStr (if (0 <? score text parser_keywords "sales")%nat
              then "sales"
              else if (0 <? score text parser_keywords "support")%nat
              then "support"
              else if (0 <? score text parser_keywords "partnership")%nat
              then "partnership"
              else "general"))
  /\ (forall from name,
        Str.contains "pricing" text = true ->
        intent (_fallback_intent_parsing (p from name)) = JStr "sales")
  /\ (forall (H : LLM.Host) json_loads intent_prompt llm_manager
             from name w,
        let r := LLM.generate_text llm_manager
                   (intent_prompt (p from name))
                   (Some parser_system_prompt) None w in
        (LLM.success (LLM.returned r) = false
         \/ (exists e, json_loads (LLM.response (LLM.returned r))
                       = Raised e)
         \/ (exists v, json_loads (LLM.response (LLM.returned r))
                       = Returned v
                       /\ forall d, v <> JObj d)) ->
        fst (parse_email json_loads intent_prompt llm_manager
                         (p from name) w)
        = _fallback_intent_parsing (p from name))
  (* the scoring classifier *)
  /\ (let r := determine_intent email_content subject in
      In r ["sales"; "support"; "partnership"; "general"]
      /\ (forall category,
             (score text intent_keywords category
              <= score text intent_keywords r)%nat)
      /\ ((forall category, score text intent_keywords category = 0%nat) ->
          r = "general")
      /\ (r = "general" ->
          (forall category, score text intent_keywords category = 0%nat)
          \/ ((score text intent_keywords "sales"
               < score text intent_keywords "general")%nat
              /\ (score text intent_keywords "support"
                  < score text intent_keywords "general")%nat
              /\ (score text intent_keywords "partnership"
                  < score text intent_keywords "general")%nat))
      /\ (r = "support" ->
          (score text intent_keywords "sales"
           < score text intent_keywords "support")%nat)
      /\ (r = "partnership" ->
          (score text intent_keywords "sales"
           < score text intent_keywords "partnership")%nat
          /\ (score text intent_keywords "support"
              < score text intent_keywords "partnership")%nat)
      /\ (Str.contains "pricing" text = true ->
          (score text intent_keywords "support"
           <= score text intent_keywords "sales")%nat ->
          (score text intent_keywords "partnership"
           <= score text intent_keywords "sales")%nat ->
          (score text intent_keywords "general"
           <= score text intent_keywords "sales")%nat ->
          r = "sales")).
Proof.
  intros text p.
  assert (Hfb : forall from name,
             intent (_fallback_intent_parsing (p from name))
             = JStr (if (0 <? score text parser_keywords "sales")%nat
                     then "sales"
                     else if (0 <? score text parser_keywords "support")%nat
                     then "support"
                     else if (0 <? score text parser_keywords "partnership")%nat
                     then "partnership"
                     else "general")).
  { intros from name. unfold _fallback_intent_parsing, score.
    cbn [Intent.subject Intent.email_content p].
    fold (combined subject email_content). fold text.
    cbn [parser_keywords first_intent_hit Dict.get String.eqb Ascii.eqb
         Bool.eqb].
    rewrite !ltb_hits_any.
    repeat match goal with
    | |- context [any_hit text ?k] => destruct (any_hit text k)
    end; reflexivity. }
  split; [exact Hfb|]. split; [|split].
  - intros from name Hpricing. rewrite Hfb.
    assert ((0 <? score text parser_keywords "sales")%nat = true) as ->;
      [|reflexivity].
    apply Nat.ltb_lt. unfold score. cbn [parser_keywords Dict.get
      String.eqb Ascii.eqb Bool.eqb].
    apply hits_pos_any. unfold any_hit. simpl. rewrite Hpricing.
    now rewrite !orb_true_r.
  - intros H json_loads intent_prompt llm_manager from name w r Hcase.
    unfold parse_email. fold r.
    destruct Hcase as [Hf | [(e & He) | (v & Hv & Hno)]].
    + now rewrite Hf.
    + destruct (LLM.success (LLM.returned r)); [|reflexivity].
      now rewrite He.
    + destruct (LLM.success (LLM.returned r)); [|reflexivity].
      rewrite Hv.
      destruct v; try reflexivity. exfalso. now apply (Hno d).
  - pose proof (determine_intent_cases email_content subject) as Hd.
    cbv zeta in Hd. fold text in Hd.
    assert (Hscore : forall category,
               score text intent_keywords category
               = if String.eqb category "sales"
                 then score text intent_keywords "sales"
                 else if String.eqb category "support"
                 then score text intent_keywords "support"
                 else if String.eqb category "partnership"
                 then score text intent_keywords "partnership"
                 else if String.eqb category "general"
                 then score text intent_keywords "general"
                 else 0%nat).
    { intros category.
      destruct (String.eqb_spec category "sales") as [->|?]; [reflexivity|].
      destruct (String.eqb_spec category "support") as [->|?]; [reflexivity|].
      destruct (String.eqb_spec category "partnership") as [->|?];
        [reflexivity|].
      destruct (String.eqb_spec category "general") as [->|?]; [reflexivity|].
      unfold score. cbn [intent_keywords Dict.get].
      repeat match goal with
      | |- context [String.eqb category ?s] =>
          destruct (String.eqb_spec category s); [congruence|]
      end. reflexivity. }
    remember (score text intent_keywords "sales") as a.
    remember (score text intent_keywords "support") as b.
    remember (score text intent_keywords "partnership") as c.
    remember (score text intent_keywords "general") as d.
    assert (Hpr : Str.contains "pricing" text = true -> (0 < a)%nat).
    { intros Hpricing. subst a. unfold score.
      cbn [intent_keywords Dict.get String.eqb Ascii.eqb Bool.eqb].
      apply hits_pos_any. unfold any_hit. simpl. rewrite Hpricing.
      now rewrite !orb_true_r. }
    cbv zeta. rewrite Hd. clear Hd.
    split; [|split; [|split; [|split; [|split; [|split]]]]].
    + destruct (a <? b)%nat; cbn [fst snd];
        [destruct (b <? c)%nat | destruct (a <? c)%nat]; cbn [fst snd];
        match goal with
        | |- context [(?x <? d)%nat] => destruct (x <? d)%nat
        end; cbn [fst snd];
        match goal with
        | |- context [(0 <? ?x)%nat] => destruct (0 <? x)%nat
        end; simpl; tauto.
    + intros category. rewrite (Hscore category).
      destruct (Nat.ltb_spec a b); cbn [fst snd];
        [destruct (Nat.ltb_spec b c) | destruct (Nat.ltb_spec a c)];
        cbn [fst snd];
        match goal with
        | |- context [(?x <? d)%nat] => destruct (Nat.ltb_spec x d)
        end; cbn [fst snd];
        match goal with
        | |- context [(0 <? ?x)%nat] => destruct (Nat.ltb_spec 0 x)
        end;
        rewrite ?Hscore; cbn [String.eqb Ascii.eqb Bool.eqb];
        repeat match goal with
        | |- context [if String.eqb category ?s then _ else _] =>
            destruct (String.eqb category s)
        end; subst; lia.
    + intros Hzero.
      pose proof (Hzero "sales") as Ha. pose proof (Hzero "support") as Hb.
      pose proof (Hzero "partnership") as Hc.
      pose proof (Hzero "general") as Hdd.
      rewrite <- Heqa in Ha. rewrite <- Heqb in Hb.
      rewrite <- Heqc in Hc. rewrite <- Heqd in Hdd.
      rewrite Ha, Hb, Hc, Hdd. reflexivity.
    + destruct (Nat.ltb_spec a b); cbn [fst snd];
        [destruct (Nat.ltb_spec b c) | destruct (Nat.ltb_spec a c)];
        cbn [fst snd];
        match goal with
        | |- context [(?x <? d)%nat] => destruct (Nat.ltb_spec x d)
        end; cbn [fst snd];
        match goal with
        | |- context [(0 <? ?x)%nat] => destruct (Nat.ltb_spec 0 x)
        end; intros Hr; try discriminate Hr;
        first [ right; lia
              | left; intros category; rewrite (Hscore category);
                repeat match goal with
                | |- context [if String.eqb category ?s then _ else _] =>
                    destruct (String.eqb category s)
                end; lia ].
    + destruct (Nat.ltb_spec a b); cbn [fst snd];
        [destruct (Nat.ltb_spec b c) | destruct (Nat.ltb_spec a c)];
        cbn [fst snd];
        match goal with
        | |- context [(?x <? d)%nat] => destruct (Nat.ltb_spec x d)
        end; cbn [fst snd];
        match goal with
        | |- context [(0 <? ?x)%nat] => destruct (Nat.ltb_spec 0 x)
        end; intros Hr; try discriminate Hr; lia.
    + destruct (Nat.ltb_spec a b); cbn [fst snd];
        [destruct (Nat.ltb_spec b c) | destruct (Nat.ltb_spec a c)];
        cbn [fst snd];
        match goal with
        | |- context [(?x <? d)%nat] => destruct (Nat.ltb_spec x d)
        end; cbn [fst snd];
        match goal with
        | |- context [(0 <? ?x)%nat] => destruct (Nat.ltb_spec 0 x)
        end; intros Hr; try discriminate Hr; lia.
    + intros Hpricing Hb Hc Hdd. specialize (Hpr Hpricing).
      destruct (Nat.ltb_spec a b); [lia|]. cbn [fst snd].
      destruct (Nat.ltb_spec a c); [lia|]. cbn [fst snd].
      destruct (Nat.ltb_spec a d); [lia|]. cbn [fst snd].
      destruct (Nat.ltb_spec 0 a); [reflexivity | lia].
Qed.

End Classifiers.

Section Examples.
(** The texts of the examples are ASCII; [lower] is taken to be
    [Str.ascii_lower], with which every [lower] agrees on them. *)
#[local] Existing Instance Str.ascii_lower.

Lemma keyword_fallback_witness :
  intent (_fallback_intent_parsing
            (mkPayload "a@b.c" "Ann" "Question" "What is your pricing?"))
  = JStr "sales".
Proof.
  destruct (keyword_fallback "Question" "What is your pricing?")
    as (_ & Hpricing & _).
  apply (Hpricing "a@b.c" "Ann"). reflexivity.
Defined.

(** C8 as stated fails on both classifiers: the fallback of the model
    path answers sales for a text with one sales keyword and two
    support keywords, and the scoring classifier answers support for a
    text that contains "pricing". *)
Lemma keyword_fallback_counterexample :
  (let text := combined "demo" "help with an issue" in
   intent (_fallback_intent_parsing
             (mkPayload "a@b.c" "Ann" "demo" "help with an issue"))
   = JStr "sales"
   /\ score text parser_keywords "sales" = 1%nat
   /\ score text parser_keywords "support" = 2%nat)
  /\ (Str.contains "pricing" (combined "pricing" "help issue") = true
      /\ determine_intent "help issue" "pricing" = "support").
Proof. repeat split. Qed.

End Examples.

(** The same two answers with any [lower]: the texts are ASCII. *)
Lemma both_classifiers_any_lower (U : Str.Lower) :
  (let text := combined "demo" "help with an issue" in
   intent (_fallback_intent_parsing
             (mkPayload "a@b.c" "Ann" "demo" "help with an issue"))
   = JStr "sales"
   /\ score text parser_keywords "sales" = 1%nat
   /\ score text parser_keywords "support" = 2%nat)
  /\ (Str.contains "pricing" (combined "pricing" "help issue") = true
      /\ determine_intent "help issue" "pricing" = "support").
Proof.
  unfold _fallback_intent_parsing, determine_intent, combined.
  cbn [subject email_content].
  rewrite !Str.lower_on_ascii by reflexivity. repeat split.
Qed.

End IntentFacts.

(* ================================================================== *)
(** * Facts about strings and their characters *)

Module StrFacts.
Import Str.

Lemma chars_cons c s : chars (String c s) = push c (chars s).
Proof. reflexivity. Qed.

Lemma append_assoc_string (a b c : string) : (a ++ b) ++ c = a ++ (b ++ c).
Proof.
  induction a as [|x a IH]; [reflexivity|]. simpl. now rewrite IH.
Qed.

Lemma join_app l1 l2 : join (l1 ++ l2)%list = join l1 ++ join l2.
Proof.
  induction l1 as [|x l1 IH]; [reflexivity|]. simpl.
  rewrite IH. now rewrite append_assoc_string.
Qed.

(** The characters of a string make the string. *)
Lemma join_chars s : join (chars s) = s.
Proof.
  induction s as [|c s IH]; [reflexivity|].
  rewrite chars_cons. unfold push.
  destruct (chars s) as [|[|d x] l]; simpl in *; try now rewrite IH.
  destruct (negb (is_ascii c) && continuation d); simpl; now rewrite IH.
Qed.

(** A part of the characters of a string, at its end or at its start,
    is the characters of the string it makes. *)
Lemma chars_suffix s : forall l1 l2,
  chars s = (l1 ++ l2)%list -> chars (join l2) = l2.
Proof.
  induction s as [|c s IH]; intros l1 l2.
  - simpl. intros H. symmetry in H. apply app_eq_nil in H.
    destruct H as (_ & ->). reflexivity.
  - destruct l1 as [|x l1].
    + simpl app. intros <-. now rewrite join_chars.
    + rewrite chars_cons. unfold push.
      destruct (chars s) as [|[|d y] l] eqn:E.
      * intros [= _ H]. symmetry in H. apply app_eq_nil in H.
        destruct H as (_ & ->). reflexivity.
      * intros [= _ H]. apply (IH l1 l2). now rewrite H.
      * destruct (negb (is_ascii c) && continuation d).
        -- intros [= _ H]. apply (IH (String d y :: l1) l2).
           simpl. now rewrite H.
        -- intros [= _ H]. apply (IH l1 l2). now rewrite H.
Qed.

Lemma chars_prefix s : forall l1 l2,
  chars s = (l1 ++ l2)%list -> chars (join l1) = l1.
Proof.
  induction s as [|c s IH]; intros l1 l2.
  - simpl. intros H. symmetry in H. apply app_eq_nil in H.
    destruct H as (-> & _). reflexivity.
  - destruct l1 as [|x l1]; [reflexivity|].
    rewrite chars_cons. unfold push.
    destruct (chars s) as [|[|d y] l] eqn:E.
    + intros [= <- H]. symmetry in H. apply app_eq_nil in H.
      destruct H as (-> & _). reflexivity.
    + intros [= <- H]. cbn [join append]. rewrite chars_cons.
      rewrite (IH l1 l2 H). destruct l1 as [|z l1]; [reflexivity|].
      injection H as <- _. reflexivity.
    + destruct (negb (is_ascii c) && continuation d) eqn:G.
      * intros [= <- H]. subst l.
        specialize (IH (String d y :: l1) l2 eq_refl).
        cbn [join append] in *. rewrite chars_cons, IH. unfold push.
        now rewrite G.
      * intros [= <- H]. cbn [join append]. rewrite chars_cons.
        rewrite (IH l1 l2 H). destruct l1 as [|z l1]; [reflexivity|].
        injection H as <- _. unfold push. now rewrite G.
Qed.

(** The same for a part in the middle. *)
Lemma chars_middle s l1 m l2 :
  chars s = (l1 ++ m ++ l2)%list -> chars (join m) = m.
Proof.
  intros H. apply chars_suffix in H. now apply chars_prefix in H.
Qed.

Lemma continuation_not_ascii c : continuation c = true -> is_ascii c = false.
Proof.
  unfold continuation, is_ascii. intros H. apply andb_prop in H.
  destruct H as (H & _). apply Nat.leb_le in H. apply Nat.ltb_ge. exact H.
Qed.

Lemma isspace_ascii c : isspace c = true -> is_ascii c = true.
Proof.
  unfold isspace, is_ascii. intros H. apply Nat.ltb_lt.
  apply orb_prop in H. destruct H as [H|H]; apply andb_prop in H;
    destruct H as (_ & H); apply Nat.leb_le in H; lia.
Qed.

(** A character of a string is one byte, or bytes none of which is
    ASCII. *)
Lemma chars_units s : Forall unit (chars s).
Proof.
  induction s as [|c s IH]; [constructor|].
  rewrite chars_cons. unfold push.
  destruct (chars s) as [|[|d y] l].
  - constructor; [exists c, ""; auto | constructor].
  - constructor; [exists c, ""; auto | exact IH].
  - destruct (negb (is_ascii c) && continuation d) eqn:G.
    + apply andb_prop in G. destruct G as (Gc & Gd).
      inversion IH as [|? ? Hu Hl]; subst. constructor; [|exact Hl].
      exists c, (String d y). split; [reflexivity|]. right.
      cbn [no_ascii]. rewrite Gc. cbn [andb].
      destruct Hu as (c' & r' & [= -> ->] & [->|Hu]).
      * cbn [no_ascii]. now rewrite (continuation_not_ascii _ Gd).
      * exact Hu.
    + constructor; [exists c, ""; auto | exact IH].
Qed.

(** [len] counts characters, each of one byte at least. *)
Lemma len_le_length s : (len s <= String.length s)%nat.
Proof.
  unfold len. induction s as [|c s IH]; [simpl; lia|].
  rewrite chars_cons. unfold push.
  destruct (chars s) as [|[|d y] l]; simpl in *; try lia.
  destruct (negb (is_ascii c) && continuation d); simpl; lia.
Qed.

(** The characters of a text that is followed by a byte other than a
    continuation byte, or by nothing. *)
Lemma chars_app a b :
  match b with String d _ => continuation d = false | EmptyString => True end ->
  chars (a ++ b) = (chars a ++ chars b)%list.
Proof.
  intros Hb. induction a as [|c a IH]; [reflexivity|].
  cbn [append]. rewrite !chars_cons, IH. unfold push.
  destruct (chars a) as [|[|d y] l] eqn:E; cbn [app]; try reflexivity.
  - destruct b as [|d b]; [reflexivity|].
    rewrite chars_cons. unfold push at 2.
    assert (Hhead : exists y l, push d (chars b) = String d y :: l).
    { unfold push. destruct (chars b) as [|[|d' y'] l']; eauto.
      destruct (negb (is_ascii d) && continuation d'); eauto. }
    destruct Hhead as (y & l & ->). rewrite Hb.
    now rewrite andb_false_r.
  - destruct (negb (is_ascii c) && continuation d); reflexivity.
Qed.

Lemma drop_while_suffix p (l : list string) :
  exists a, l = (a ++ drop_while p l)%list.
Proof.
  induction l as [|x l (a & IH)]; [now exists []|]. simpl.
  destruct (p x); [|now exists []].
  exists (x :: a). simpl. now rewrite <- IH.
Qed.

Lemma rtrim_prefix l : exists b, l = (rtrim l ++ b)%list.
Proof.
  induction l as [|x l (b & IH)]; [now exists []|]. simpl.
  destruct (rtrim l) as [|y r] eqn:E.
  - destruct (is_space x); [now exists (x :: l)|].
    exists l. reflexivity.
  - exists b. simpl. now rewrite IH at 1.
Qed.

Lemma drop_while_head p (l : list string) x r :
  drop_while p l = x :: r -> p x = false.
Proof.
  induction l as [|a l IH]; simpl; [discriminate|].
  destruct (p a) eqn:E; [exact IH|]. now intros [= <- _].
Qed.

Lemma rtrim_head x r :
  is_space x = false -> exists r', rtrim (x :: r) = x :: r'.
Proof.
  intros Hx. simpl. destruct (rtrim r) as [|d r'].
  - rewrite Hx. now exists [].
  - now exists (d :: r').
Qed.

Lemma rtrim_idem l : rtrim (rtrim l) = rtrim l.
Proof.
  induction l as [|x l IH]; [reflexivity|].
  simpl. destruct (rtrim l) as [|d r] eqn:E.
  - destruct (is_space x) eqn:Hx; [reflexivity|]. simpl. now rewrite Hx.
  - change (rtrim (x :: d :: r))
      with (match rtrim (d :: r) with
            | [] => if is_space x then [] else [x]
            | y => x :: y
            end).
    now rewrite IH.
Qed.

(** What [strip] keeps is the characters of the result. *)
Lemma chars_strip s :
  chars (strip s) = rtrim (drop_while is_space (chars s)).
Proof.
  unfold strip.
  destruct (drop_while_suffix is_space (chars s)) as (a & Ha).
  destruct (rtrim_prefix (drop_while is_space (chars s))) as (b & Hb).
  set (m := rtrim (drop_while is_space (chars s))) in *.
  rewrite Hb in Ha. exact (chars_middle _ _ _ _ Ha).
Qed.

(** [strip] leaves a stripped string as it is. *)
Lemma strip_idem s : strip (strip s) = strip s.
Proof.
  unfold strip at 1. rewrite chars_strip. unfold strip. f_equal.
  destruct (drop_while is_space (chars s)) as [|x r] eqn:E; [reflexivity|].
  pose proof (@drop_while_head _ _ _ _ E) as Hx.
  destruct (@rtrim_head x r Hx) as (r' & Hr). rewrite Hr.
  cbn [drop_while]. rewrite Hx. rewrite <- Hr. apply rtrim_idem.
Qed.

End StrFacts.

(* ================================================================== *)
(** * Facts about the sender-name helpers *)

Module ParserFacts.
Import Str Parser StrFacts.

Lemma push_ascii c l : is_ascii c = true -> push c l = String c "" :: l.
Proof.
  intros Hc. unfold push. destruct l as [|[|d x] l]; try reflexivity.
  now rewrite Hc.
Qed.

(** The characters of a text that starts with ASCII characters. *)
Lemma chars_ascii_app a b :
  ascii_text a = true ->
  chars (a ++ b)
  = (map (fun c => String c "") (list_ascii_of_string a) ++ chars b)%list.
Proof.
  induction a as [|c a IH]; [reflexivity|]. cbn [ascii_text].
  intros H. apply andb_prop in H. destruct H as (Hc & Ha).
  cbn [append chars list_ascii_of_string map app].
  rewrite (IH Ha). now apply push_ascii.
Qed.

(** A search skips the positions at which the pattern does not
    match. *)
Lemma search_skip m pre rest :
  no_match_before m pre rest = true ->
  search m (pre ++ rest)%list = search m rest.
Proof.
  induction pre as [|x pre IH]; [reflexivity|].
  cbn [no_match_before]. intros H.
  destruct (m ((x :: pre) ++ rest)%list) eqn:E; [discriminate|].
  cbn [app] in *. cbn [search]. rewrite E. now apply IH.
Qed.

Lemma take_while_blank p w t :
  forallb p w = true ->
  take_while p (w ++ t)%list = (w ++ take_while p t)%list.
Proof.
  induction w as [|x w IH]; [reflexivity|]. cbn [forallb].
  intros H. apply andb_prop in H. destruct H as (Hx & Hw).
  cbn [app take_while]. rewrite Hx. now rewrite IH.
Qed.

Lemma rtrim_blank l w :
  forallb is_space w = true -> rtrim (l ++ w)%list = rtrim l.
Proof.
  intros Hw. assert (Hnil : rtrim w = []).
  { induction w as [|x w IH]; [reflexivity|]. cbn [forallb] in Hw.
    apply andb_prop in Hw. destruct Hw as (Hx & Hw).
    cbn [rtrim]. rewrite (IH Hw). now rewrite Hx. }
  induction l as [|x l IH]; [exact Hnil|].
  cbn [app rtrim]. now rewrite IH.
Qed.

Lemma blank_spec ws :
  blank ws = true ->
  forallb is_space (chars ws) = true
  /\ forallb not_lt_nl (chars ws) = true.
Proof.
  unfold blank. induction (chars ws) as [|x l IH]; [now split|].
  cbn [forallb]. intros H. apply andb_prop in H. destruct H as (Hx & Hl).
  apply andb_prop in Hx. destruct Hx as (Hs & Hn).
  destruct (IH Hl) as (H1 & H2). rewrite Hs, H1, H2. split; [reflexivity|].
  rewrite andb_true_r. unfold not_lt_nl. rewrite Hn, andb_true_r.
  destruct (String.eqb_spec x "<") as [->|]; [discriminate Hs | reflexivity].
Qed.

Lemma ends_group_cases rest :
  ends_group rest = true ->
  rest = "" \/ exists c rest', rest = String c rest' /\ is_ascii c = true
                               /\ not_lt_nl (String c "") = false.
Proof.
  destruct rest as [|c rest]; [now left|]. cbn [ends_group].
  intros H. right. exists c, rest. split; [reflexivity|].
  apply orb_prop in H. destruct H as [H|H]; apply Ascii.eqb_eq in H;
    subst c; split; reflexivity.
Qed.

Lemma take_while_end rest :
  ends_group rest = true -> take_while not_lt_nl (chars rest) = [].
Proof.
  intros H. destruct (@ends_group_cases _ H) as [->|(c & r & -> & Hc & Hn)];
    [reflexivity|].
  cbn [chars]. rewrite (@push_ascii c _ Hc). cbn [take_while]. now rewrite Hn.
Qed.

Lemma chars_blank_rest ws rest :
  ends_group rest = true -> chars (ws ++ rest) = (chars ws ++ chars rest)%list.
Proof.
  intros H. apply chars_app.
  destruct (@ends_group_cases _ H) as [->|(c & r & -> & Hc & _)]; [exact I|].
  unfold continuation. unfold is_ascii in Hc. apply Nat.ltb_lt in Hc.
  apply andb_false_iff. left. apply Nat.leb_gt. exact Hc.
Qed.

Lemma ws_then_group_space x t g :
  is_space x = true -> ws_then_group t = Some g ->
  ws_then_group (x :: t) = Some g.
Proof. intros Hx Ht. cbn [ws_then_group]. now rewrite Hx, Ht. Qed.

Lemma ws_then_group_start x t :
  is_space x = false -> ws_then_group (x :: t) = run1 not_lt_nl (x :: t).
Proof. intros Hx. cbn [ws_then_group]. now rewrite Hx. Qed.

(** The group of the header of Jane Doe and the name made of it. *)
Lemma header_group ws rest :
  blank ws = true -> ends_group rest = true ->
  exists g,
    header_at "From:" (chars ("From: Jane Doe" ++ ws ++ rest)) = Some g
    /\ clean (join g) = "Jane Doe".
Proof.
  intros Hws Hrest. destruct (@blank_spec ws Hws) as (Hsp & Hcl).
  exists (chars "Jane Doe" ++ chars ws)%list. split.
  - rewrite (@chars_ascii_app "From: Jane Doe" (ws ++ rest) eq_refl).
    rewrite (@chars_blank_rest ws rest Hrest).
    cbn [list_ascii_of_string map app].
    unfold header_at.
    change (match_literal "From:" ("F" :: "r" :: "o" :: "m" :: ":" :: ?t))
      with (Some t).
    cbv iota. apply ws_then_group_space; [reflexivity|].
    rewrite ws_then_group_start by reflexivity.
    change ("J" :: "a" :: "n" :: "e" :: " " :: "D" :: "o" :: "e"
                :: (chars ws ++ chars rest))%list
      with ((chars "Jane Doe" ++ chars ws) ++ chars rest)%list.
    unfold run1. rewrite take_while_blank.
    + rewrite (@take_while_end rest Hrest), app_nil_r. reflexivity.
    + rewrite forallb_app, Hcl. reflexivity.
  - rewrite join_app, !join_chars. unfold clean, strip.
    rewrite (@chars_ascii_app "Jane Doe" ws eq_refl).
    cbn [list_ascii_of_string map].
    change (drop_while is_space (?l ++ chars ws)%list) with (l ++ chars ws)%list.
    rewrite (@rtrim_blank _ _ Hsp). reflexivity.
Qed.

Lemma from_header_found pre ws rest :
  no_match_before (header_at "From:") (chars pre)
                  (chars ("From: Jane Doe" ++ ws ++ rest)) = true ->
  blank ws = true -> ends_group rest = true ->
  extract_sender_name_fallback (pre ++ "From: Jane Doe" ++ ws ++ rest)
  = Some "Jane Doe".
Proof.
  intros Hpre Hws Hrest.
  destruct (@header_group ws rest Hws Hrest) as (g & Hg & Hclean).
  unfold extract_sender_name_fallback, patterns. cbn [first_name].
  unfold re_search at 1.
  rewrite (@chars_app pre ("From: Jane Doe" ++ ws ++ rest) eq_refl).
  rewrite (@search_skip _ _ _ Hpre).
  assert (search (header_at "From:") (chars ("From: Jane Doe" ++ ws ++ rest))
          = Some g) as ->.
  { destruct (chars ("From: Jane Doe" ++ ws ++ rest)); cbn [search];
      now rewrite Hg. }
  cbn [option_map]. rewrite Hclean. reflexivity.
Qed.

(** C9, as the code has it.  When every candidate raises, the
    extraction of the manager returns nothing: it does not consult the
    regular expressions.  The fallback itself is a total function.  On
    a text in which the pattern of the header [From:] matches at no
    position before a header "From: Jane Doe", the name being followed
    by white space of its line, if any, and then by the end of the
    text, a line feed or a left angle, it returns "Jane Doe"; and when
    none of the four patterns matches it returns nothing. *)
Theorem sender_name_fallback :
  (forall (H : LLM.Host) (self : LLM.LLMManager) email_content
          preferred_model w,
      (forall i,
          (i < List.length (LLM.models_to_try self preferred_model))%nat ->
          exists e,
            LLM.outcome_at self
              (LLM.prepare_messages email_content
                                    (Some LLM.extract_system_prompt))
              (LLM.models_to_try self preferred_model)
              (snd (LLM.time_time w)) i
            = Some (Raised e)) ->
      fst (LLM.extract_sender_name self email_content preferred_model w)
      = None)
  /\ (forall pre ws rest,
        no_match_before (header_at "From:") (chars pre)
                        (chars ("From: Jane Doe" ++ ws ++ rest)) = true ->
        blank ws = true ->
        ends_group rest = true ->
        extract_sender_name_fallback (pre ++ "From: Jane Doe" ++ ws ++ rest)
        = Some "Jane Doe")
  /\ (forall email_content,
        (forall p, In p patterns -> p email_content = None) ->
        extract_sender_name_fallback email_content = None).
Proof.
  split; [|split].
  - intros H self email_content preferred_model w Hfail.
    unfold LLM.extract_sender_name.
    destruct (@LLMFacts.generate_text_failure H self email_content
                (Some LLM.extract_system_prompt) preferred_model w Hfail)
      as (Hs & _).
    now rewrite Hs.
  - intros pre ws rest Hpre Hws Hrest.
    now apply from_header_found.
  - intros email_content Hnone.
    unfold extract_sender_name_fallback.
    induction patterns as [|p ps IH]; [reflexivity|].
    cbn [first_name]. rewrite (Hnone p) by now left.
    apply IH. intros q Hq. apply Hnone. now right.
Qed.

Lemma sender_name_fallback_witness :
  extract_sender_name_fallback
    ("Subject: hi" ++ nl ++ "From: Jane Doe" ++ String CR nl ++ "Hello")
  = Some "Jane Doe".
Proof.
  destruct sender_name_fallback as (_ & Hfrom & _).
  apply (Hfrom ("Subject: hi" ++ nl) (String CR "") (nl ++ "Hello"));
    reflexivity.
Defined.

(** C9 as stated fails: with every provider down, the extraction of
    the manager returns nothing for a text whose first line is
    "From: Jane Doe", where the regular expressions find the name.  And
    the fallback does not return "Jane Doe" for every text that contains
    "From: Jane Doe": it returns the name of the first header that its
    pattern finds, and the whole of the name that follows. *)
Lemma sender_name_fallback_counterexample :
  (let text := "From: Jane Doe" ++ nl ++ "Hi" in
   fst (@LLM.extract_sender_name LLM.demo_host LLM.demo_manager_down
                                 text None 0%nat) = None
   /\ extract_sender_name_fallback text = Some "Jane Doe")
  /\ extract_sender_name_fallback
       ("from: Bob Ray" ++ nl ++ "From: Jane Doe" ++ nl)
     = Some "Bob Ray"
  /\ extract_sender_name_fallback ("From: Jane Doering" ++ nl)
     = Some "Jane Doering".
Proof. repeat split. Qed.

End ParserFacts.

(* ================================================================== *)
(** * Facts about batch processing *)

Module BatchFacts.

Section Gather.
Variables W R : Type.

Lemma gather_length (tasks : list (Eff.M W R)) :
  forall w, List.length (fst (Asyncio.gather tasks w)) = List.length tasks.
Proof.
  induction tasks as [|t ts IH]; intros w; simpl; [reflexivity|].
  destruct (t w) as [r w']. specialize (IH w').
  destruct (Asyncio.gather ts w') as [rs w'']. simpl in *. now rewrite IH.
Qed.

(** The result at a position is that of the task at that position,
    run in the world that the tasks before it have left. *)
Lemma gather_nth (tasks : list (Eff.M W R)) :
  forall w i t,
    nth_error tasks i = Some t ->
    nth_error (fst (Asyncio.gather tasks w)) i
    = Some (fst (t (snd (Asyncio.gather (firstn i tasks) w)))).
Proof.
  induction tasks as [|t0 ts IH]; intros w [|i] t; simpl; try discriminate.
  - intros [= ->]. destruct (t w) as [r w'].
    now destruct (Asyncio.gather ts w').
  - intros Hnth. destruct (t0 w) as [r w']. specialize (IH w' i t Hnth).
    destruct (Asyncio.gather ts w') as [rs w''].
    destruct (Asyncio.gather (firstn i ts) w') as [rs1 w1]. exact IH.
Qed.

Lemma nth_error_combine (A B : Type) (l1 : list A) (l2 : list B) :
  forall i a b,
    nth_error l1 i = Some a -> nth_error l2 i = Some b ->
    nth_error (combine l1 l2) i = Some (a, b).
Proof.
  revert l2. induction l1 as [|x l1 IH]; intros [|y l2] [|i] a b;
    simpl; try discriminate.
  - now intros [= ->] [= ->].
  - apply IH.
Qed.
End Gather.

Section Manager.
Import AIProviderManager.
Variables W R : Type.

Lemma collect_combine (emails : list Email) :
  forall (results : list (result R)) i,
    (List.length results + i = List.length emails)%nat ->
    collect emails i results
    = Returned (map (fun x => classify (fst x) (snd x))
                    (combine (skipn i emails) results)).
Proof.
  induction results as [|r rs IH]; intros i Hlen; simpl.
  - now destruct (skipn i emails).
  - destruct (nth_error emails i) as [email|] eqn:Hnth.
    + assert (Hskip : skipn i emails = email :: skipn (S i) emails).
      { clear -Hnth. revert i Hnth.
        induction emails as [|x xs IHx]; intros [|i] Hnth;
          simpl in *; try discriminate.
        - now injection Hnth as ->.
        - now apply IHx. }
      rewrite Hskip. simpl.
      rewrite (IH (S i)) by (simpl in Hlen; lia).
      now destruct r.
    + apply nth_error_None in Hnth. simpl in Hlen. lia.
Qed.

(** The gather-based batch never raises and returns, position by
    position, the result of each task or the marker of its error. *)
Lemma batch_with_positional (task : Email -> Eff.M W R)
      (emails : list Email) (w : W) :
  let outcomes := fst (Asyncio.gather (map task emails) w) in
  fst (batch_with task emails w)
  = Returned (map (fun x => classify (fst x) (snd x))
                  (combine emails outcomes))
  /\ List.length outcomes = List.length emails.
Proof.
  intros outcomes. unfold batch_with.
  pose proof (gather_length (map task emails) w) as Hlen.
  fold outcomes in Hlen. rewrite length_map in Hlen.
  subst outcomes.
  destruct (Asyncio.gather (map task emails) w) as [results w'].
  simpl in *. split; [|exact Hlen].
  now rewrite collect_combine by lia.
Qed.
End Manager.

Section Endpoint.
Import WebServer.
Context {H : LLM.Host}.
Variable llm_manager : LLM.LLMManager.

Lemma process_one_returns i email preferred_model w :
  exists r w',
    process_one llm_manager i email preferred_model w = (Returned r, w')
    /\ item_index r = i.
Proof.
  unfold process_one, Eff.try_except, Eff.bind, Eff.ret, lift_total.
  destruct (is_truthy (sender_name email)).
  - destruct (LLM.generate_email_reply _ _ _ _ _) as [reply w1].
    eexists _, _. split; reflexivity.
  - destruct (LLM.extract_sender_name _ _ _ _) as [name w1].
    destruct (LLM.generate_email_reply _ _ _ _ _) as [reply w2].
    eexists _, _. split; reflexivity.
Qed.

(** The loop of the endpoint builds one item per e-mail, in order. *)
Lemma process_all_returns emails preferred_model :
  forall i w,
  exists rs w',
    process_all llm_manager i emails preferred_model w = (Returned rs, w')
    /\ List.length rs = List.length emails
    /\ forall j r, nth_error rs j = Some r -> item_index r = (i + j)%nat.
Proof.
  induction emails as [|email rest IH]; intros i w.
  - exists [], w. repeat split. intros [|j] r; discriminate.
  - destruct (process_one_returns i email preferred_model w)
      as (r0 & w1 & Hone & Hidx).
    destruct (IH (S i) w1) as (rs & w2 & Hall & Hlen & Hnth).
    exists (r0 :: rs), w2.
    cbn [process_all]. unfold Eff.bind at 1. rewrite Hone.
    unfold Eff.bind at 1. rewrite Hall. unfold Eff.ret.
    repeat split.
    + simpl. now rewrite Hlen.
    + intros [|j] r Hr; simpl in Hr.
      * injection Hr as <-. lia.
      * rewrite (Hnth j r Hr). lia.
Qed.

(** The call of [file_logger.log_request] raises on every input, so
    the endpoint answers with the exception of status 500 and never
    with the list its loop has built. *)
Lemma endpoint_always_raises emails preferred_model w :
  exists w',
    batch_process_emails llm_manager emails preferred_model w
    = (Raised (Exn HTTPException
                 "'FileLogger' object has no attribute 'log_request'"),
       w').
Proof.
  destruct (process_all_returns emails preferred_model 0%nat w)
    as (rs & w' & Hall & _).
  exists w'. unfold batch_process_emails, Eff.try_except.
  unfold Eff.bind at 1. rewrite Hall. reflexivity.
Qed.
End Endpoint.

(** C7 at a batch of one e-mail: the loop of the endpoint produces its
    one item, and the endpoint raises the exception of status 500
    instead of returning the list. *)
Theorem batch_endpoint_raises :
  let emails := [WebServer.mkEmail (Some "From: Jane Doe") None] in
  fst (@WebServer.process_all LLM.demo_host LLM.demo_manager 0%nat emails
                              None 0%nat)
  = Returned [WebServer.ItemOk 0%nat (Some "Hello") "Hello"]
  /\ fst (@WebServer.batch_process_emails LLM.demo_host LLM.demo_manager
                                          emails None 0%nat)
     = Raised (Exn HTTPException
                 "'FileLogger' object has no attribute 'log_request'").
Proof. split; reflexivity. Qed.

End BatchFacts.

(* ================================================================== *)
(** * Facts about the e-mail agent *)

Module EmailAgentFacts.
Import Json PromptBuilder EmailAgent.

Section Handlers.
Context {H : LLM.Host} {S : Services}.
Variable llm_manager : LLM.LLMManager.

(** The content generation has its own handler: it returns a
    content, the fallback template when anything inside raises. *)
Lemma generate_email_content_returns email_request is_new lead_info w :
  exists content w',
    _generate_email_content llm_manager email_request is_new
                            lead_info w
    = (Returned content, w').
Proof.
  unfold _generate_email_content, Eff.try_except.
  match goal with
  | |- context [match ?m w with _ => _ end] => destruct (m w) as [[c|e] w1]
  end; eexists _, _; reflexivity.
Qed.

(** So has the logging to the outbox. *)
Lemma log_to_outbox_returns email_request content send_result w :
  exists w',
    _log_to_outbox email_request content send_result w
    = (Returned tt, w').
Proof.
  unfold _log_to_outbox, Eff.try_except.
  match goal with
  | |- context [match ?m w with _ => _ end] =>
      destruct (m w) as [[[]|e] w1]
  end; eexists; reflexivity.
Qed.
End Handlers.




End EmailAgentFacts.

(* ================================================================== *)
(** * More facts about the cache *)

Module CacheMore.
Import Cache.
Section CacheMore.
Variable V : Type.
Implicit Types (self : CacheService V) (e : CacheEntry V) (k key : string).

Lemma len_with_cache self (c : Dict.dict (CacheEntry V)) :
  len (with_cache self c) = Z.of_nat (List.length c).
Proof. reflexivity. Qed.

(** X1.  [delete(key)] answers whether the key was stored; afterwards the
    key is not stored, every other key has the entry it had, and the
    store has one entry less when the answer is [True]. *)
Theorem delete_removes_key self k :
  Dict.wf (cache self) ->
  fst (delete k self) = Dict.mem k (cache self)
  /\ Dict.mem k (cache (snd (delete k self))) = false
  /\ (forall k', k' <> k ->
        Dict.get k' (cache (snd (delete k self)))
        = Dict.get k' (cache self))
  /\ len (snd (delete k self))
     = len self - (if Dict.mem k (cache self) then 1 else 0).
Proof.
  intros Hwf. unfold delete.
  destruct (Dict.mem k (cache self)) eqn:Hm; simpl.
  - split; [reflexivity|]. split; [now apply DictFacts.mem_del_same|].
    split.
    + intros k' Hne. apply DictFacts.get_del_other. congruence.
    + unfold len. simpl.
      pose proof (DictFacts.length_del_present k (cache self) Hm). lia.
  - repeat split; try assumption. lia.
Qed.

(** X2.  [exists(key)] is [True] exactly for a stored entry that has not
    expired; a [True] answer leaves the store as it was (the access
    count and the last access of the entry are not touched), an expired
    entry is deleted, and the other keys keep their entries. *)
Theorem exists_is_read_only self k now :
  Dict.wf (cache self) ->
  (fst (exists_ now k self) = true
   <-> exists e, Dict.get k (cache self) = Some e /\ now <= expires_at e)
  /\ (fst (exists_ now k self) = true -> snd (exists_ now k self) = self)
  /\ (fst (exists_ now k self) = false ->
      Dict.mem k (cache (snd (exists_ now k self))) = false)
  /\ (forall k', k' <> k ->
        Dict.get k' (cache (snd (exists_ now k self)))
        = Dict.get k' (cache self)).
Proof.
  intros Hwf. unfold exists_, is_expired.
  destruct (Dict.get k (cache self)) as [e|] eqn:Hg.
  - destruct (Z.ltb_spec (expires_at e) now) as [Hlt|Hge]; simpl.
    + split; [split; [discriminate|]|].
      * intros (e' & [= <-] & Hle). lia.
      * split; [discriminate|]. split.
        -- intros _. now apply DictFacts.mem_del_same.
        -- intros k' Hne. apply DictFacts.get_del_other. congruence.
    + split; [split; [intros _; now exists e | reflexivity]|].
      split; [reflexivity|]. split; [discriminate | reflexivity].
  - simpl. split; [split; [discriminate | intros (e & [=] & _)]|].
    split; [discriminate|]. split; [|reflexivity].
    intros _. unfold Dict.mem. now rewrite Hg.
Qed.

(** Deleting keys that are not the first key keeps the first entry. *)
Lemma fold_del_head (ks : list string) k0 e0 (d : Dict.dict (CacheEntry V)) :
  ~ In k0 ks ->
  fold_left (fun d k => Dict.del k d) ks ((k0, e0) :: d)
  = (k0, e0) :: fold_left (fun d k => Dict.del k d) ks d.
Proof.
  revert d. induction ks as [|k ks IH]; intros d Hnin; [reflexivity|].
  simpl. destruct (String.eqb_spec k k0) as [->|Hne].
  - exfalso. apply Hnin. now left.
  - apply IH. intros Hin. apply Hnin. now right.
Qed.

Lemma expired_keys_frozen t (d : Dict.dict (CacheEntry V)) :
  forall i,
    expired_keys (fun _ => t) i d
    = map fst (filter (fun x => is_expired t (snd x)) d).
Proof.
  induction d as [|[k e] d IH]; intros i; simpl; [reflexivity|].
  destruct (is_expired t e); simpl; now rewrite IH.
Qed.

Lemma cleanup_filter t (d : Dict.dict (CacheEntry V)) :
  Dict.wf d ->
  fold_left (fun d k => Dict.del k d)
            (map fst (filter (fun x => is_expired t (snd x)) d)) d
  = filter (fun x => negb (is_expired t (snd x))) d.
Proof.
  unfold Dict.wf. induction d as [|[k e] d IH]; intros Hwf; [reflexivity|].
  inversion Hwf as [|? ? Hnin Hnd]; subst. simpl.
  destruct (is_expired t e); simpl.
  - rewrite String.eqb_refl. now apply IH.
  - rewrite fold_del_head; [now rewrite IH|].
    intros Hin. apply Hnin. apply in_map_iff in Hin.
    destruct Hin as (x & <- & Hx). apply filter_In in Hx.
    now apply in_map.
Qed.

(** X3.  One round of the background clean-up, the clock standing at
    [t] while it runs, leaves exactly the entries that are not expired at
    [t], unchanged and in their order. *)
Theorem cleanup_keeps_live_entries self t :
  Dict.wf (cache self) ->
  cache (cleanup_expired_entries (fun _ => t) self)
  = filter (fun x => negb (is_expired t (snd x))) (cache self).
Proof.
  intros Hwf. unfold cleanup_expired_entries. simpl.
  rewrite expired_keys_frozen. now apply cleanup_filter.
Qed.

(** A representable expiry time makes [set] return [True]. *)
Lemma set_returns_true self now k v ttl :
  0 <= now + effective_ttl self ttl * 1000000 <= datetime_max ->
  fst (set now k v ttl self) = true.
Proof.
  intros Hrep. unfold set, CacheEntry_init, datetime_add_seconds.
  set (expiry := now + effective_ttl self ttl * 1000000) in *.
  destruct (Z.leb_spec 0 expiry); [|lia].
  destruct (Z.leb_spec expiry datetime_max); [reflexivity | lia].
Qed.

(** X4.  [set] returns [True] exactly when the expiry time, the time of
    the call plus the time to live, is a [datetime]; when it returns
    [False] the store is as it was, also when the store is full. *)
Theorem set_fails_without_change self now k v ttl :
  (fst (set now k v ttl self) = true
   <-> 0 <= now + effective_ttl self ttl * 1000000 <= datetime_max)
  /\ (fst (set now k v ttl self) = false -> snd (set now k v ttl self) = self).
Proof.
  unfold set, CacheEntry_init, datetime_add_seconds.
  set (expiry := now + effective_ttl self ttl * 1000000).
  destruct (Z.leb_spec 0 expiry); destruct (Z.leb_spec expiry datetime_max);
    simpl; (split; [split; intros; first [lia | reflexivity | discriminate]
                   | intros; first [reflexivity | discriminate]]).
Qed.

(** The keys after an assignment. *)
Lemma keys_set k (x : CacheEntry V) (d : Dict.dict (CacheEntry V)) :
  Dict.keys (Dict.set k x d)
  = if Dict.mem k d then Dict.keys d else (Dict.keys d ++ [k])%list.
Proof.
  unfold Dict.mem. induction d as [|[k0 e0] d IH]; simpl; [reflexivity|].
  destruct (String.eqb k k0); simpl; [reflexivity|].
  rewrite IH. now destruct (Dict.get k d).
Qed.

(** X5.  A successful [set] on a store below its bound evicts nothing:
    the key holds a fresh entry (the value, created and last accessed at
    the time of the call, never accessed), a key that was stored keeps
    its place in the order and a new key comes last, and every other
    key has the entry it had. *)
Theorem set_below_bound self now k v ttl self1 :
  len self < max_size self ->
  set now k v ttl self = (true, self1) ->
  Dict.get k (cache self1)
  = Some (mkEntry v now (now + effective_ttl self ttl * 1000000) 0 now)
  /\ Dict.keys (cache self1)
     = (if Dict.mem k (cache self) then Dict.keys (cache self)
        else (Dict.keys (cache self) ++ [k])%list)
  /\ (forall k', k' <> k ->
        Dict.get k' (cache self1) = Dict.get k' (cache self)).
Proof.
  intros Hroom Hset.
  pose proof (@CacheFacts.set_stores V now k v ttl self self1 Hset) as Hst.
  apply CacheFacts.set_success in Hset. destruct Hset as (_ & ->).
  unfold room in *.
  destruct (Z.leb_spec (max_size self) (len self)); [lia|].
  simpl in *. split; [exact Hst|]. split; [apply keys_set|].
  intros k' Hne. apply DictFacts.get_set_other. congruence.
Qed.

(** X6.  A successful [set] of a key that is already stored, on a full
    store, still evicts: when the oldest entry is that of another key,
    that key is lost and the store ends one entry below its bound; when
    the oldest entry is that of the key itself, the key moves to the end
    of the order and the store stays full. *)
Theorem set_present_key_on_full_store self now k v ttl self1 victim :
  Dict.wf (cache self) ->
  len self = max_size self ->
  Dict.mem k (cache self) = true ->
  oldest_key (cache self) = Some victim ->
  set now k v ttl self = (true, self1) ->
  (victim <> k ->
     len self1 = max_size self - 1
     /\ Dict.mem victim (cache self1) = false
     /\ Dict.mem k (cache self1) = true)
  /\ (victim = k ->
      len self1 = max_size self
      /\ Dict.keys (cache self1)
         = (Dict.keys (Dict.del k (cache self)) ++ [k])%list).
Proof.
  intros Hwf Hfull Hmem Hold Hset.
  apply CacheFacts.set_success in Hset. destruct Hset as (_ & ->).
  unfold room, _evict_oldest.
  destruct (Z.leb_spec (max_size self) (len self)); [|lia].
  rewrite Hold. simpl.
  destruct (CacheFacts.oldest_key_spec Hwf Hold) as (ve & Hg & _).
  pose proof (DictFacts.length_del_present victim (cache self)
                (DictFacts.get_Some_mem _ _ Hg)) as Hlen.
  unfold len in *. simpl. split.
  - intros Hne.
    assert (Hk : Dict.mem k (Dict.del victim (cache self)) = true).
    { rewrite DictFacts.mem_del_other by exact Hne. exact Hmem. }
    rewrite DictFacts.length_set_present by exact Hk.
    split; [lia|]. split.
    + rewrite DictFacts.mem_set_other by congruence.
      now apply DictFacts.mem_del_same.
    + apply DictFacts.mem_set_same.
  - intros ->.
    assert (Hk : Dict.mem k (Dict.del k (cache self)) = false)
      by now apply DictFacts.mem_del_same.
    rewrite DictFacts.length_set_absent by exact Hk.
    split; [lia|]. rewrite keys_set. now rewrite Hk.
Qed.

(** The scan of [min] returns its start value, no element being older,
    or the first element that is older than the start value and than
    every element before it, no later element being older. *)
Lemma min_by_first (d : Dict.dict (CacheEntry V)) :
  forall best,
    let p := min_by_last_accessed best d in
    (p = best
     /\ forall x, In x d -> last_accessed (snd best) <= last_accessed (snd x))
    \/ (exists d1 d2,
          d = (d1 ++ p :: d2)%list
          /\ last_accessed (snd p) < last_accessed (snd best)
          /\ (forall x, In x d1 ->
                        last_accessed (snd p) < last_accessed (snd x))
          /\ (forall x, In x d2 ->
                        last_accessed (snd p) <= last_accessed (snd x))).
Proof.
  induction d as [|x d IH]; intros best; simpl.
  - left. split; [reflexivity | intros ? []].
  - specialize (IH (if last_accessed (snd x) <? last_accessed (snd best)
                    then x else best)).
    destruct (Z.ltb_spec (last_accessed (snd x)) (last_accessed (snd best)))
      as [Hlt|Hge]; simpl in IH.
    + destruct IH as [(Hp & Hall) | (d1 & d2 & Hd & Hlt' & H1 & H2)].
      * right. exists [], d. rewrite Hp. simpl.
        split; [reflexivity|]. split; [exact Hlt|].
        split; [intros ? [] | exact Hall].
      * right. exists (x :: d1), d2. simpl.
        split; [now rewrite <- Hd|]. split; [lia|].
        split; [|exact H2].
        intros y [<-|Hy]; [exact Hlt' | now apply H1].
    + destruct IH as [(Hp & Hall) | (d1 & d2 & Hd & Hlt' & H1 & H2)].
      * left. split; [exact Hp|].
        intros y [<-|Hy]; [exact Hge | now apply Hall].
      * right. exists (x :: d1), d2. simpl.
        split; [now rewrite <- Hd|]. split; [exact Hlt'|].
        split; [|exact H2].
        intros y [<-|Hy]; [lia | now apply H1].
Qed.

(** X7.  The key evicted is the first one, in the order of the store,
    among the entries of oldest last access: every entry before it was
    accessed later, no entry after it was accessed earlier. *)
Theorem eviction_takes_first_oldest (d : Dict.dict (CacheEntry V)) k :
  oldest_key d = Some k ->
  exists d1 e d2,
    d = (d1 ++ (k, e) :: d2)%list
    /\ (forall x, In x d1 -> last_accessed e < last_accessed (snd x))
    /\ (forall x, In x d2 -> last_accessed e <= last_accessed (snd x)).
Proof.
  destruct d as [|x d]; [discriminate|].
  unfold oldest_key. intros [= <-].
  destruct (min_by_first d x) as [(Hp & Hall) | (d1 & d2 & Hd & Hlt & H1 & H2)].
  - exists [], (snd x), d. rewrite Hp. simpl.
    split; [now destruct x|]. split; [intros ? [] | exact Hall].
  - set (p := min_by_last_accessed x d) in *.
    exists (x :: d1), (snd p), d2. simpl.
    split; [rewrite Hd; now destruct p|]. split; [|exact H2].
    intros y [<-|Hy]; [exact Hlt | now apply H1].
Qed.

(** X8.  A value computed by [get_or_set] is served from the store
    afterwards: when the first call finds nothing, the factory returns a
    value other than [None] and the expiry time is a [datetime], a
    second [get_or_set] of the key before that expiry returns the same
    value without calling the factory. *)
Theorem get_or_set_caches (FS : Type)
        (factory : FS -> result (Any V) * FS)
        self k ttl ttl' fs fs1 v now1 now2 now3 now1' now2' now3' :
  fst (get now1 now2 k self) = None ->
  factory fs = (Returned (Some v), fs1) ->
  0 <= now3 + effective_ttl self ttl * 1000000 <= datetime_max ->
  now1' <= now3 + effective_ttl self ttl * 1000000 ->
  let r1 := get_or_set factory now1 now2 now3 k ttl self fs in
  let r2 := get_or_set factory now1' now2' now3' k ttl' (service r1)
                       (factory_state r1) in
  outcome r1 = Returned (Some v)
  /\ factory_calls r1 = 1%nat
  /\ outcome r2 = Returned (Some v)
  /\ factory_calls r2 = 0%nat
  /\ factory_state r2 = fs1.
Proof.
  intros Hmiss Hf Hrep Hlive r1 r2.
  destruct (get now1 now2 k self) as [g s1] eqn:Hget.
  simpl in Hmiss. subst g.
  assert (Heff : effective_ttl s1 ttl = effective_ttl self ttl).
  { unfold effective_ttl. destruct ttl; [reflexivity|].
    pose proof (f_equal snd Hget) as Hs. simpl in Hs. subst s1.
    unfold get. destruct (Dict.get k (cache self)) as [e|]; [|reflexivity].
    now destruct (is_expired now1 e). }
  destruct (set now3 k (Some v) ttl s1) as [ok s2] eqn:Hset.
  assert (Hok : ok = true).
  { pose proof (set_returns_true s1 now3 k (Some v) ttl) as Htrue.
    rewrite Hset in Htrue. simpl in Htrue. apply Htrue. now rewrite Heff. }
  subst ok.
  pose proof (@CacheFacts.set_stores V now3 k (Some v) ttl s1 s2 Hset) as Hst.
  rewrite Heff in Hst.
  assert (Hr1 : r1 = mkGetOrSet (Returned (Some v)) s2 fs1 1).
  { subst r1. unfold get_or_set. now rewrite Hget, Hf, Hset. }
  subst r2. rewrite Hr1. simpl.
  unfold get_or_set.
  rewrite (@CacheFacts.get_hit V now1' now2' k s2 _ Hst Hlive). simpl.
  repeat split.
Qed.

End CacheMore.

Lemma delete_removes_key_witness :
  let s := snd (set 0 "k" (Some 7) (Some 10) (CacheService_init Z)) in
  fst (delete "k" s) = true /\ len (snd (delete "k" s)) = 0.
Proof.
  intros s.
  assert (Hwf : Dict.wf (cache s))
    by (repeat constructor; simpl; intuition discriminate).
  destruct (@delete_removes_key Z s "k" Hwf) as (Hr & _ & _ & Hl).
  split; [exact Hr | exact Hl].
Defined.

Lemma exists_is_read_only_witness :
  let s := snd (set 0 "k" (Some 7) (Some 10) (CacheService_init Z)) in
  snd (exists_ 5 "k" s) = s.
Proof.
  intros s.
  assert (Hwf : Dict.wf (cache s))
    by (repeat constructor; simpl; intuition discriminate).
  destruct (@exists_is_read_only Z s "k" 5 Hwf) as (_ & Hsame & _).
  apply Hsame. reflexivity.
Defined.

Lemma cleanup_keeps_live_entries_witness :
  let s := run [OpSet 0 "a" (Some 1) (Some 1); OpSet 0 "b" (Some 2) (Some 60)]
               (CacheService_init Z) in
  Dict.keys (cache (cleanup_expired_entries (fun _ => 2000000) s)) = ["b"].
Proof.
  intros s.
  assert (Hwf : Dict.wf (cache s))
    by (repeat constructor; simpl; intuition discriminate).
  rewrite (@cleanup_keeps_live_entries Z s 2000000 Hwf). reflexivity.
Defined.

Lemma set_fails_without_change_witness :
  snd (set datetime_max "k" (Some 1) (Some 1) (CacheService_init Z))
  = CacheService_init Z.
Proof.
  apply (proj2 (@set_fails_without_change Z (CacheService_init Z)
                  datetime_max "k" (Some 1) (Some 1))).
  reflexivity.
Defined.

Lemma set_below_bound_witness :
  let s := snd (set 0 "a" (Some 1) None (CacheService_init Z)) in
  Dict.keys (cache (snd (set 5 "b" (Some 2) None s))) = ["a"; "b"].
Proof.
  intros s.
  destruct (@set_below_bound Z s 5 "b" (Some 2) None _
              ltac:(unfold len; simpl; lia) eq_refl) as (_ & Hkeys & _).
  exact Hkeys.
Defined.

Lemma set_present_key_on_full_store_witness :
  let s := run [OpSet 1 "a" (Some 1) None; OpSet 2 "b" (Some 2) None]
               (mkService [] 2 3600 300) in
  len (snd (set 3 "b" (Some 5) None s)) = 1.
Proof.
  intros s.
  assert (Hwf : Dict.wf (cache s))
    by (repeat constructor; simpl; intuition discriminate).
  destruct (@set_present_key_on_full_store Z s 3 "b" (Some 5) None _ "a"
              Hwf eq_refl eq_refl eq_refl eq_refl) as (Hother & _).
  destruct (Hother ltac:(discriminate)) as (Hlen & _).
  exact Hlen.
Defined.

Lemma eviction_takes_first_oldest_witness :
  exists d1 e d2,
    [("a", mkEntry (Some 1) 0 9 0 4); ("b", mkEntry (Some 2) 0 9 0 3);
     ("c", mkEntry (Some 3) 0 9 0 3)]
    = (d1 ++ ("b", e) :: d2)%list
    /\ (forall x, In x d1 -> last_accessed e < last_accessed (snd x))
    /\ (forall x, In x d2 -> last_accessed e <= last_accessed (snd x)).
Proof.
  apply (@eviction_takes_first_oldest Z). reflexivity.
Defined.

Lemma get_or_set_caches_witness :
  let r1 := get_or_set (@scripted_factory Z) 0 0 0 "k" (Some 60)
                       (CacheService_init Z) [Returned (Some 7)] in
  outcome (get_or_set (@scripted_factory Z) 1 1 1 "k" None (service r1)
                      (factory_state r1))
  = Returned (Some 7).
Proof.
  destruct (@get_or_set_caches Z _ (@scripted_factory Z)
              (CacheService_init Z) "k" (Some 60) None
              [Returned (Some 7)] [] 7 0 0 0 1 1 1
              eq_refl eq_refl ltac:(unfold datetime_max; simpl; lia)
              ltac:(simpl; lia))
    as (_ & _ & Hout & _).
  exact Hout.
Defined.

End CacheMore.


(* ================================================================== *)
(** * More facts about the fallback invoker *)

Module LLMMore.
Import LLM.
Section LLMMore.
Context {H : Host}.
Implicit Types (self : LLMManager) (names : list string) (w : World).

(** X9.  [_initialize_models] registers the providers in the fixed order
    openai, groq, google, anthropic, each exactly when its key is set
    and is not the placeholder and its client can be built; it raises
    [ValueError] exactly when none is registered.  On the registry it
    returns, [get_available_models] lists the identifiers in that same
    order and [get_model_info] counts between one and four models. *)
Theorem initialize_models_order (s : Settings) :
  let order := map LLMInfo.entry_name
                   (filter LLMInfo.registers (LLMInfo.preference s)) in
  match _initialize_models s with
  | Returned self =>
      order <> []
      /\ model_order self = order
      /\ LLMInfo.get_available_models self = order
      /\ LLMInfo.model_count (LLMInfo.get_model_info self)
         = List.length order
      /\ (1 <= List.length order <= 4)%nat
  | Raised e => order = [] /\ exn_class e = ValueError
  end.
Proof.
  unfold _initialize_models, register, LLMInfo.preference,
    LLMInfo.get_model_info, LLMInfo.get_available_models.
  cbn [filter LLMInfo.registers].
  destruct (configured (openai_api_key s) _);
    [destruct (new_client OpenAI _)|];
    (destruct (configured (groq_api_key s) _);
     [destruct (new_client Groq _)|]);
    (destruct (configured (google_api_key s) _);
     [destruct (new_client Google _)|]);
    (destruct (configured (anthropic_api_key s) _);
     [destruct (new_client Anthropic _)|]);
    cbn; repeat split; try discriminate; lia.
Qed.

(** X10.  A name returned by [extract_sender_name] comes from a
    successful call and is the stripped answer of the model: it is not
    empty, has no white space around it, and is not the word
    "Unknown". *)
Theorem extract_sender_name_is_clean self email_content preferred_model w
        name :
  fst (extract_sender_name self email_content preferred_model w)
  = Some name ->
  let r := generate_text self email_content (Some extract_system_prompt)
                         preferred_model w in
  success (returned r) = true
  /\ name = Str.strip (response (returned r))
  /\ name <> ""
  /\ name <> "Unknown"
  /\ Str.strip name = name.
Proof.
  unfold extract_sender_name. intros Hname. cbv zeta in *.
  set (r := generate_text self email_content (Some extract_system_prompt)
                          preferred_model w) in *.
  destruct (success (returned r)); [|discriminate].
  simpl in Hname.
  destruct (Str.truthy (Str.strip (response (returned r)))) eqn:Ht;
    [|discriminate].
  destruct (String.eqb_spec (Str.strip (response (returned r))) "Unknown")
    as [Heq|Hne]; [discriminate|].
  simpl in Hname. injection Hname as <-.
  repeat split.
  - intros Hempty. rewrite Hempty in Ht. discriminate.
  - exact Hne.
  - apply StrFacts.strip_idem.
Qed.

(** The envelope of a call one of whose candidates returns. *)
Lemma generate_text_success self prompt system_prompt preferred_model w
      k content :
  registry_ok self ->
  let names := models_to_try self preferred_model in
  let messages := prepare_messages prompt system_prompt in
  let r := generate_text self prompt system_prompt preferred_model w in
  (forall i, (i < k)%nat ->
             exists e, outcome_at self messages names (snd (time_time w)) i
                       = Some (Raised e)) ->
  outcome_at self messages names (snd (time_time w)) k
  = Some (Returned content) ->
  success (returned r) = true /\ response (returned r) = content.
Proof.
  intros Hok names messages r Hfail Hsucc.
  destruct (@LLMFacts.try_models_success H self messages names
              (snd (time_time w)) k content)
    as (name & w' & Hnth & Htry).
  - intros n Hn. eapply LLMFacts.names_registered; eassumption.
  - exact Hfail.
  - exact Hsucc.
  - subst r. unfold generate_text.
    destruct (time_time w) as [start_time w0]. simpl in Htry.
    fold names messages. rewrite Htry.
    destruct (time_time w') as [end_time w2]. simpl. now split.
Qed.

(** X11.  [generate_email_reply] returns the text of the first candidate
    that answers; when every candidate raises it returns the fixed
    sentence of thanks with the name of the sender, never the apology of
    [generate_text]. *)
Theorem generate_email_reply_outcomes self sender_name email_content
        preferred_model w :
  registry_ok self ->
  let names := models_to_try self preferred_model in
  let messages := prepare_messages email_content
                    (Some (reply_system_prompt sender_name)) in
  (forall k content,
      (forall i, (i < k)%nat ->
                 exists e, outcome_at self messages names
                                      (snd (time_time w)) i
                           = Some (Raised e)) ->
      outcome_at self messages names (snd (time_time w)) k
      = Some (Returned content) ->
      fst (generate_email_reply self sender_name email_content
                                preferred_model w) = content)
  /\ ((forall i, (i < List.length names)%nat ->
                 exists e, outcome_at self messages names
                                      (snd (time_time w)) i
                           = Some (Raised e)) ->
      fst (generate_email_reply self sender_name email_content
                                preferred_model w)
      = "Thank you for your email, " ++ sender_name
        ++ ". I'll get back to you soon.").
Proof.
  intros Hok names messages. split.
  - intros k content Hfail Hsucc.
    destruct (@generate_text_success self email_content
                (Some (reply_system_prompt sender_name)) preferred_model w
                k content Hok Hfail Hsucc) as (Hs & Hr).
    unfold generate_email_reply. rewrite Hs. exact Hr.
  - intros Hfail.
    destruct (@LLMFacts.generate_text_failure H self email_content
                (Some (reply_system_prompt sender_name)) preferred_model w
                Hfail) as (Hs & _).
    unfold generate_email_reply. now rewrite Hs.
Qed.

Lemma In_firstn_list (A : Type) (l : list A) :
  forall n x, In x (firstn n l) -> In x l.
Proof.
  induction l as [|y l IH]; intros [|n] x; simpl; try tauto.
  intros [->|Hin]; [now left | right; eauto].
Qed.

Lemma NoDup_firstn_list (A : Type) (l : list A) n :
  NoDup l -> NoDup (firstn n l).
Proof.
  revert n. induction l as [|x l IH]; intros [|n] Hnd; simpl;
    try constructor.
  - inversion Hnd as [|? ? Hnin Hnd']; subst.
    intros Hin. apply Hnin. eapply In_firstn_list. exact Hin.
  - inversion Hnd; subst. now apply IH.
Qed.

(** The log of the loop is a prefix of the candidates: all of them when
    none returns, up to the one that returns otherwise. *)
Lemma try_models_prefix self messages :
  forall names w,
    (forall n, In n names -> Dict.mem n (models self) = true) ->
    exists n,
      snd (fst (try_models self messages names w)) = firstn n names
      /\ match fst (fst (try_models self messages names w)) with
         | Some (m, _) => (1 <= n)%nat /\ nth_error names (n - 1) = Some m
         | None => n = List.length names
         end.
Proof.
  induction names as [|x rest IH]; intros w Hreg.
  - exists 0%nat. now split.
  - assert (Hx : Dict.mem x (models self) = true) by (apply Hreg; now left).
    unfold Dict.mem in Hx.
    destruct (Dict.get x (models self)) as [m|] eqn:Hm; [|discriminate].
    cbn [try_models].
    rewrite (LLMFacts.attempt_registered self messages x w Hm).
    destruct (fst (ainvoke m messages w)) as [content|e].
    + exists 1%nat. simpl. now split.
    + destruct (IH (snd (ainvoke m messages w))) as (n & Hlog & Hres).
      { intros y Hy. apply Hreg. now right. }
      destruct (try_models self messages rest (snd (ainvoke m messages w)))
        as [[res log'] w''].
      simpl in *. exists (S n). subst log'. split; [reflexivity|].
      destruct res as [[m' c']|].
      * destruct Hres as (Hn & Hnth). split; [lia|].
        destruct n as [|n]; [lia|]. simpl in *.
        now rewrite Nat.sub_0_r in Hnth.
      * now rewrite Hres.
Qed.

Lemma try_order_spec_NoDup self preferred_model :
  registry_ok self -> NoDup (try_order_spec self preferred_model).
Proof.
  intros (Hnd & _ & _). unfold try_order_spec.
  destruct preferred_model as [p|]; [|exact Hnd].
  destruct (In_list p (model_order self)); [|exact Hnd].
  constructor.
  - intros Hin. apply filter_In in Hin. destruct Hin as (_ & Hp).
    now rewrite String.eqb_refl in Hp.
  - now apply NoDup_filter.
Qed.

(** X12.  Whatever the providers do, one call of [generate_text] invokes
    a prefix of its candidates, each once at most: every candidate when
    the call fails, and the candidates up to the one named as the model
    used when it succeeds. *)
Theorem generate_text_invokes_prefix self prompt system_prompt
        preferred_model w :
  registry_ok self ->
  let names := models_to_try self preferred_model in
  let r := generate_text self prompt system_prompt preferred_model w in
  NoDup (invoked r)
  /\ exists n,
      invoked r = firstn n names
      /\ (success (returned r) = false ->
          invoked r = names /\ model_used (returned r) = None)
      /\ (success (returned r) = true ->
          (1 <= n)%nat
          /\ model_used (returned r) = nth_error names (n - 1)
          /\ model_used (returned r) <> None).
Proof.
  intros Hok names r.
  assert (Hnd : NoDup names).
  { unfold names. rewrite (LLMFacts.models_to_try_spec preferred_model Hok).
    now apply try_order_spec_NoDup. }
  destruct (@try_models_prefix self (prepare_messages prompt system_prompt)
              names (snd (time_time w))) as (n & Hlog & Hres).
  { intros x Hx. eapply LLMFacts.names_registered; eassumption. }
  assert (Hinv : invoked r = firstn n names
                 /\ (success (returned r) = false ->
                     invoked r = names /\ model_used (returned r) = None)
                 /\ (success (returned r) = true ->
                     (1 <= n)%nat
                     /\ model_used (returned r) = nth_error names (n - 1)
                     /\ model_used (returned r) <> None)).
  { subst r. unfold generate_text.
    destruct (time_time w) as [start_time w0]. simpl in Hlog, Hres.
    fold names.
    destruct (try_models self (prepare_messages prompt system_prompt)
                         names w0) as [[res log] w1].
    simpl in Hlog, Hres. subst log.
    destruct (time_time w1) as [end_time w2].
    destruct res as [[m c]|]; simpl.
    - destruct Hres as (Hn & Hnth). split; [reflexivity|].
      split; [discriminate|]. intros _. rewrite Hnth.
      repeat split; [exact Hn | discriminate].
    - subst n. rewrite firstn_all. split; [reflexivity|].
      split; [now split | discriminate]. }
  split.
  - destruct Hinv as (-> & _). now apply NoDup_firstn_list.
  - exists n. exact Hinv.
Qed.

End LLMMore.

Lemma extract_sender_name_is_clean_witness :
  Str.strip "Hello" = "Hello".
Proof.
  exact (proj2 (proj2 (proj2 (proj2
    (@extract_sender_name_is_clean demo_host demo_manager "From: x" None
       0%nat "Hello" eq_refl))))).
Defined.

Lemma generate_email_reply_outcomes_witness :
  fst (@generate_email_reply demo_host demo_manager_down "Jane" "Hi" None
                             0%nat)
  = "Thank you for your email, Jane. I'll get back to you soon.".
Proof.
  assert (Hok : @registry_ok demo_host demo_manager_down).
  { repeat split.
    - repeat constructor; simpl; intuition discriminate.
    - intros name. unfold Dict.mem. simpl.
      destruct (String.eqb name "openai"), (String.eqb name "groq");
        reflexivity. }
  destruct (@generate_email_reply_outcomes demo_host demo_manager_down
              "Jane" "Hi" None 0%nat Hok) as (_ & Hfail).
  apply Hfail. intros i Hi.
  destruct i as [|[|i]]; [eexists; reflexivity ..|]. simpl in Hi. lia.
Defined.

Lemma generate_text_invokes_prefix_witness :
  NoDup (invoked (@generate_text demo_host demo_manager "Hi" None
                                 (Some "google") 0%nat)).
Proof.
  exact (proj1 (@generate_text_invokes_prefix demo_host demo_manager "Hi"
                  None (Some "google") 0%nat LLMFacts.demo_manager_ok)).
Defined.

End LLMMore.

(* ================================================================== *)
(** * More facts about the e-mail parser *)

Module ParserMoreFacts.
Import Str Parser ParserMore StrFacts.

Lemma first_name_some ps email_content name :
  first_name ps email_content = Some name ->
  exists g, name = clean g /\ acceptable name = true.
Proof.
  induction ps as [|p ps IH]; simpl; [discriminate|].
  destruct (p email_content) as [g|]; [|exact IH].
  destruct (acceptable (clean g)) eqn:E; [|exact IH].
  intros [= <-]. now exists g.
Qed.

Lemma remove_quotes_clean s : all_chars not_quote (remove_quotes s) = true.
Proof.
  induction s as [|c s IH]; [reflexivity|]. simpl.
  destruct (Ascii.eqb c DQUOTE || Ascii.eqb c SQUOTE) eqn:E; [exact IH|].
  simpl. unfold not_quote at 1. now rewrite E.
Qed.

Lemma all_chars_app p a b :
  all_chars p (a ++ b) = all_chars p a && all_chars p b.
Proof.
  induction a as [|c a IH]; [reflexivity|]. simpl. rewrite IH.
  now rewrite andb_assoc.
Qed.

Lemma collapse_keeps_quotes_out t :
  forall b, all_chars not_quote (join t) = true ->
            all_chars not_quote (collapse_ws b t) = true.
Proof.
  induction t as [|x t IH]; intros b; [reflexivity|]. cbn [join collapse_ws].
  rewrite all_chars_app. intros Hq. apply andb_prop in Hq.
  destruct Hq as (Hx & Ht).
  destruct (is_space x); [destruct b|].
  - now apply IH.
  - change (all_chars not_quote (collapse_ws true t) = true). now apply IH.
  - rewrite all_chars_app, Hx. now apply IH.
Qed.

Lemma not_ascii_not_space c : is_ascii c = false -> isspace c = false.
Proof.
  intros H. destruct (isspace c) eqn:E; [|reflexivity].
  apply isspace_ascii in E. congruence.
Qed.

Lemma single_spaced_no_ascii x r :
  no_ascii x = true -> forall b,
  single_spaced b (x ++ r)
  = match x with EmptyString => single_spaced b r
               | _ => single_spaced false r end.
Proof.
  induction x as [|c x IH]; intros Hx b; [reflexivity|].
  cbn [no_ascii] in Hx. apply andb_prop in Hx. destruct Hx as (Hc & Hx).
  apply negb_true_iff in Hc. cbn [append single_spaced].
  rewrite (not_ascii_not_space _ Hc). rewrite (IH Hx).
  now destruct x.
Qed.

(** A character that is not white space holds no white space of
    ASCII. *)
Lemma single_spaced_unit x r b :
  unit x -> is_space x = false ->
  single_spaced b (x ++ r) = single_spaced false r.
Proof.
  intros (c & r0 & -> & [->|Hn]) Hs.
  - cbn [is_space] in Hs. cbn [append single_spaced]. now rewrite Hs.
  - now rewrite (single_spaced_no_ascii _ r Hn).
Qed.

Lemma collapse_single_spaced t :
  Forall unit t -> forall b, single_spaced b (collapse_ws b t) = true.
Proof.
  induction t as [|x t IH]; intros Hu b; [reflexivity|].
  inversion Hu as [|? ? Hx Ht]; subst. cbn [collapse_ws].
  destruct (is_space x) eqn:Hs.
  - destruct b; [now apply IH|]. simpl. now apply IH.
  - rewrite (single_spaced_unit _ _ Hx Hs). now apply IH.
Qed.


Lemma startswith_split sep s :
  startswith sep s = true -> s = sep ++ drop (String.length sep) s.
Proof.
  revert s. induction sep as [|a sep IH]; intros s; [reflexivity|].
  destruct s as [|b s]; simpl; [discriminate|].
  intros Hs. apply andb_prop in Hs. destruct Hs as (Hab & Hs).
  apply Ascii.eqb_eq in Hab. subst b. f_equal. now apply IH.
Qed.

Lemma startswith_append sep x : startswith sep (sep ++ x) = true.
Proof.
  induction sep as [|a sep IH]; [reflexivity|]. simpl.
  now rewrite Ascii.eqb_refl, IH.
Qed.

(** What follows the first occurrence: the text splits there, and no
    split at the separator has a shorter first part. *)
Lemma after_first_spec sep s x :
  after_first sep s = Some x ->
  exists pre,
    s = pre ++ sep ++ x
    /\ forall pre' x', s = pre' ++ sep ++ x' ->
                       (String.length pre <= String.length pre')%nat.
Proof.
  induction s as [|c s IH].
  - simpl. destruct (startswith sep "") eqn:E; [|discriminate].
    intros [= <-]. exists "". split; [now apply startswith_split|].
    intros; simpl; lia.
  - cbn [after_first]. destruct (startswith sep (String c s)) eqn:E.
    + intros [= <-]. exists "". split; [now apply startswith_split|].
      intros; simpl; lia.
    + intros Hx. destruct (IH Hx) as (pre & -> & Hmin).
      exists (String c pre). split; [reflexivity|].
      intros pre' x' Heq. destruct pre' as [|c' pre'].
      * simpl in Heq. rewrite Heq, startswith_append in E. discriminate.
      * simpl in Heq. injection Heq as _ Heq. simpl.
        specialize (Hmin _ _ Heq). lia.
Qed.

Lemma contains_after_first sep s :
  contains sep s = true -> exists x, after_first sep s = Some x.
Proof.
  induction s as [|c s IH]; cbn [contains after_first].
  - rewrite orb_false_r. intros ->. eauto.
  - destruct (startswith sep (String c s)); [eauto|]. exact IH.
Qed.

(** X14.  [extract_message_body] returns a stripped text.  When the
    content holds a blank line the body is what follows the first blank
    line, whether or not one of the other separators comes before it;
    when it holds none of the three separators the body is the whole
    content, stripped. *)
Theorem message_body_after_blank_line email_content :
  strip (extract_message_body email_content)
  = extract_message_body email_content
  /\ (contains (nl ++ nl) email_content = true ->
      exists pre post,
        email_content = pre ++ (nl ++ nl) ++ post
        /\ (forall pre' post', email_content = pre' ++ (nl ++ nl) ++ post' ->
                               (String.length pre <= String.length pre')%nat)
        /\ extract_message_body email_content = strip post)
  /\ (contains (nl ++ nl) email_content = false ->
      contains "---" email_content = false ->
      contains "___" email_content = false ->
      extract_message_body email_content = strip email_content).
Proof.
  split; [|split].
  - unfold extract_message_body.
    destruct (body_after separators email_content) as [b|] eqn:E;
      [|apply StrFacts.strip_idem].
    revert E. generalize separators.
    induction l as [|sep l IH]; simpl; [discriminate|].
    destruct (contains sep email_content); [|exact IH].
    destruct (after_first sep email_content); [|exact IH].
    intros [= <-]. apply StrFacts.strip_idem.
  - intros Hc. destruct (contains_after_first _ _ Hc) as (post & Hpost).
    destruct (after_first_spec _ _ Hpost) as (pre & Heq & Hmin).
    exists pre, post. split; [exact Heq|]. split; [exact Hmin|].
    unfold extract_message_body, separators. cbn [body_after].
    now rewrite Hc, Hpost.
  - intros H1 H2 H3. unfold extract_message_body, separators.
    cbn [body_after]. now rewrite H1, H2, H3.
Qed.

(** [search] finds a match exactly when the matcher succeeds on some
    suffix of the text. *)
Lemma search_some m (t : list string) g :
  search m t = Some g -> exists pre u, t = (pre ++ u)%list /\ m u = Some g.
Proof.
  induction t as [|c t IH]; cbn [search].
  - destruct (m []) eqn:E; [|discriminate].
    intros [= <-]. now exists [], [].
  - destruct (m (c :: t)) eqn:E.
    + intros [= <-]. now exists [], (c :: t).
    + intros Hs. destruct (IH Hs) as (pre & u & -> & Hu).
      now exists (c :: pre), u.
Qed.

Lemma search_finds m (pre u : list string) g :
  m u = Some g -> exists g', search m (pre ++ u)%list = Some g'.
Proof.
  intros Hu. induction pre as [|c pre IH]; simpl.
  - destruct u; cbn [search]; rewrite Hu; eauto.
  - destruct (m (c :: (pre ++ u)%list)); eauto.
Qed.

(** A match of the literal of [Reply-To] ends with a match of the
    literal of [To]. *)
Lemma reply_to_literal t rest :
  match_literal "Reply-To:" t = Some rest ->
  exists head t', t = (head ++ t')%list
                  /\ match_literal "To:" t' = Some rest.
Proof.
  destruct t as [|c1 [|c2 [|c3 [|c4 [|c5 [|c6 t']]]]]];
    cbn [match_literal];
    repeat match goal with
           | |- context [if ci_match ?a ?x then _ else _] =>
               destruct (ci_match a x)
           end; try discriminate.
  intros Hm. exists [c1; c2; c3; c4; c5; c6], t'.
  split; [reflexivity | exact Hm].
Qed.

(** X15.  In [parse_email_headers] every value is a stripped piece of
    one line, and the pattern of [To:] also matches inside [Reply-To:]:
    whenever the header [reply_to] is found, a header [to] is reported
    as well. *)
Theorem headers_reply_to_implies_to email_content :
  let headers := parse_email_headers email_content in
  (Dict.mem "reply_to" headers = true -> Dict.mem "to" headers = true)
  /\ (forall name v, Dict.get name headers = Some v -> strip v = v)
  /\ (forall name, Dict.mem name headers = true ->
                   In name ["from"; "to"; "subject"; "date"; "reply_to"]).
Proof.
  intros headers.
  assert (Hto : re_search (header_line_at "Reply-To:") email_content
                <> None ->
                re_search (header_line_at "To:") email_content <> None).
  { unfold re_search.
    destruct (search (header_line_at "Reply-To:") (chars email_content))
      as [g|] eqn:E; [intros _ | intros Hn; now elim Hn].
    apply search_some in E. destruct E as (pre & t & Heq & Ht).
    unfold header_line_at in Ht.
    destruct (match_literal "Reply-To:" t) as [rest|] eqn:Hl; [|discriminate].
    destruct (reply_to_literal _ Hl) as (head & t' & -> & Hl').
    assert (Hm : header_line_at "To:" t' = Some g).
    { unfold header_line_at. now rewrite Hl'. }
    destruct (search_finds (header_line_at "To:") (pre ++ head)%list t' Hm)
      as (g' & Hg').
    rewrite <- app_assoc in Hg'. rewrite Heq, Hg'. discriminate. }
  subst headers. unfold parse_email_headers, header_patterns.
  cbn [collect_headers].
  destruct (re_search (header_line_at "From:") email_content) as [g1|];
    destruct (re_search (header_line_at "To:") email_content) as [g2|];
    destruct (re_search (header_line_at "Subject:") email_content) as [g3|];
    destruct (re_search (header_line_at "Date:") email_content) as [g4|];
    destruct (re_search (header_line_at "Reply-To:") email_content) as [g5|];
    (split; [first [ reflexivity
                   | intros _; exfalso; apply Hto; [discriminate | reflexivity]
                   | discriminate ]
            | split;
              [ intros name v; unfold Dict.get;
                repeat match goal with
                       | |- context [String.eqb name ?k] =>
                           destruct (String.eqb name k)
                       end;
                intros [= <-]; apply StrFacts.strip_idem
              | intros name; unfold Dict.mem, Dict.get;
                repeat match goal with
                       | |- context [String.eqb name ?k] =>
                           destruct (String.eqb_spec name k)
                       end; subst; simpl; intros; try discriminate; tauto ]]).
Qed.


Lemma message_body_after_blank_line_witness :
  extract_message_body ("Subject: x" ++ nl) = strip ("Subject: x" ++ nl)
  /\ exists pre post,
      "a---b" ++ nl ++ nl ++ " c " = pre ++ (nl ++ nl) ++ post
      /\ extract_message_body ("a---b" ++ nl ++ nl ++ " c ") = strip post.
Proof.
  split.
  - destruct (message_body_after_blank_line ("Subject: x" ++ nl))
      as (_ & _ & Hnone).
    apply Hnone; reflexivity.
  - destruct (message_body_after_blank_line ("a---b" ++ nl ++ nl ++ " c "))
      as (_ & Hblank & _).
    destruct (Hblank eq_refl) as (pre & post & Heq & _ & Hbody).
    now exists pre, post.
Defined.

Lemma headers_reply_to_implies_to_witness :
  Dict.mem "to" (parse_email_headers ("Reply-To: bob@x.org" ++ nl)) = true.
Proof.
  destruct (headers_reply_to_implies_to ("Reply-To: bob@x.org" ++ nl))
    as (Hto & _).
  apply Hto. reflexivity.
Defined.

End ParserMoreFacts.

(* ================================================================== *)
(** * Facts about the provider manager (ai_provider_manager.py) *)

Module ProviderFacts.
Import AIProviderManager.

Section Manager.
Variable W : Type.
Variable AIProvider : Type.
Variable provider_value : AIProvider -> string.
Variable generate_response :
  string -> AIProvider -> option string -> Eff.M W string.

(** [extract_sender_name] handles every exception itself; a name it
    returns is stripped and is neither empty nor the word [Unknown]. *)
Lemma extract_sender_name_returns email_content provider w :
  exists name w',
    extract_sender_name generate_response email_content provider w
    = (Returned name, w')
    /\ forall n, name = Some n ->
                 Str.strip n = n /\ n <> "" /\ n <> "Unknown".
Proof.
  unfold extract_sender_name, Eff.try_except, Eff.bind, Eff.ret.
  destruct (generate_response email_content provider
              (Some LLM.extract_system_prompt) w) as [[reply|e] w1].
  - eexists _, _. split; [reflexivity|].
    intros n.
    destruct (Str.truthy (Str.strip reply)) eqn:Ht; simpl;
      [|discriminate].
    destruct (String.eqb_spec (Str.strip reply) "Unknown") as [Heq|Hne];
      simpl; [discriminate|].
    intros [= <-]. split; [apply StrFacts.strip_idem|].
    split; [|exact Hne].
    intros Hempty. rewrite Hempty in Ht. discriminate.
  - eexists _, _. split; [reflexivity|]. discriminate.
Qed.

(** [generate_reply] handles every exception itself: it returns the
    reply of the provider, or the fixed sentence of thanks. *)
Lemma generate_reply_returns sender_name email_content provider w :
  exists reply w',
    generate_reply generate_response sender_name email_content provider w
    = (Returned reply, w')
    /\ match fst (generate_response email_content provider
                    (Some (reply_system_prompt sender_name)) w) with
       | Returned r => reply = r
       | Raised _ => reply = "Thank you for your email, " ++ sender_name
                             ++ ". I'll get back to you soon."
       end.
Proof.
  unfold generate_reply, Eff.try_except, Eff.ret.
  destruct (generate_response email_content provider
              (Some (reply_system_prompt sender_name)) w) as [[r|e] w1];
    eexists _, _; split; reflexivity.
Qed.

(** The two calls of [process_single_email] return, so it returns
    the dictionary of a success. *)
Lemma process_single_email_returns email provider w :
  exists name reply w',
    process_single_email provider_value generate_response email provider w
    = (Returned (SingleOk name reply (provider_value provider)), w')
    /\ forall n, name = Some n ->
                 Str.strip n = n /\ n <> "" /\ n <> "Unknown".
Proof.
  destruct (extract_sender_name_returns (email_get_content email) provider w)
    as (name & w1 & Hname & Hclean).
  destruct (generate_reply_returns (or_there name) (email_get_content email)
                                   provider w1)
    as (reply & w2 & Hreply & _).
  exists name, reply, w2. split; [|exact Hclean].
  unfold process_single_email, Eff.try_except.
  unfold Eff.bind at 1. rewrite Hname.
  unfold Eff.bind. rewrite Hreply. reflexivity.
Qed.

(** X16.  [process_single_email] reports success for every e-mail and
    every behaviour of the provider: the two calls it makes handle their
    exceptions themselves, so its own handler is never reached.  With a
    provider that raises, the sender name is [None] and the reply is the
    sentence of thanks addressed to [there]. *)
Theorem process_single_email_succeeds email provider w :
  (exists name reply w',
      process_single_email provider_value generate_response email provider w
      = (Returned (SingleOk name reply (provider_value provider)), w')
      /\ forall n, name = Some n ->
                   Str.strip n = n /\ n <> "" /\ n <> "Unknown")
  /\ ((forall prompt system_prompt w0,
          is_raised (fst (generate_response prompt provider system_prompt w0))
          = true) ->
      fst (process_single_email provider_value generate_response
                                email provider w)
      = Returned (SingleOk None
                    "Thank you for your email, there. I'll get back to you soon."
                    (provider_value provider))).
Proof.
  split; [apply process_single_email_returns|].
  intros Hdown.
    unfold process_single_email, extract_sender_name, generate_reply,
      Eff.try_except, Eff.bind, Eff.ret.
    pose proof (Hdown (email_get_content email)
                      (Some LLM.extract_system_prompt) w) as H1.
    destruct (generate_response (email_get_content email) provider
                (Some LLM.extract_system_prompt) w) as [[r|e] w1];
      [discriminate|].
    pose proof (Hdown (email_get_content email)
                      (Some (reply_system_prompt (or_there None))) w1) as H2.
    destruct (generate_response (email_get_content email) provider
                (Some (reply_system_prompt (or_there None))) w1)
      as [[r|e'] w2]; [discriminate|].
    reflexivity.
Qed.

End Manager.

Lemma process_single_email_succeeds_witness :
  fst (process_single_email (W:=unit) (AIProvider:=unit)
         (fun _ => "openai")
         (fun _ _ _ w => (Raised (Exn RuntimeError "no key"), w))
         (mkEmail (Some "hello")) tt tt)
  = Returned (SingleOk None
                "Thank you for your email, there. I'll get back to you soon."
                "openai").
Proof.
  apply (proj2 (@process_single_email_succeeds unit unit (fun _ => "openai")
                  (fun _ _ _ w => (Raised (Exn RuntimeError "no key"), w))
                  (mkEmail (Some "hello")) tt tt)).
  reflexivity.
Defined.


End ProviderFacts.

(* ================================================================== *)
(** * Facts about the e-mail service *)

Module EmailServiceFacts.
Import EmailAgent EmailService.

Lemma count_ok_app a b : count_ok (a ++ b)%list = (count_ok a + count_ok b)%nat.
Proof. unfold count_ok. now rewrite filter_app, length_app. Qed.

Lemma count_failed_app a b :
  count_failed (a ++ b)%list = (count_failed a + count_failed b)%nat.
Proof. unfold count_failed. now rewrite filter_app, length_app. Qed.

Lemma count_split items :
  (count_ok items + count_failed items = List.length items)%nat.
Proof.
  unfold count_ok, count_failed.
  induction items as [|x xs IH]; [reflexivity|]. simpl.
  destruct (item_success x); simpl; lia.
Qed.

Lemma count_failed_zero items :
  count_failed items = 0%nat <-> Forall (fun x => item_success x = true) items.
Proof.
  unfold count_failed. induction items as [|x xs IH]; simpl.
  - split; [constructor | reflexivity].
  - destruct (item_success x) eqn:E; simpl.
    + rewrite IH. split; [now constructor | now inversion 1].
    + split; [discriminate|]. inversion 1; congruence.
Qed.

(** The loop takes the results in order, one entry each. *)
Lemma tally_spec (recipients : list string) :
  forall (email_results : list (result SendResult)) i results n_ok n_failed,
    (List.length email_results + i = List.length recipients)%nat ->
    let items := map (fun x => item_of (fst x) (snd x))
                     (combine (skipn i recipients) email_results) in
    tally recipients i email_results results n_ok n_failed
    = Returned ((results ++ items)%list,
                (n_ok + count_ok items)%nat,
                (n_failed + count_failed items)%nat).
Proof.
  induction email_results as [|r rs IH]; intros i results n_ok n_failed Hlen.
  - simpl. destruct (skipn i recipients); simpl;
      now rewrite app_nil_r, !Nat.add_0_r.
  - cbn [tally]. destruct (nth_error recipients i) as [rcpt|] eqn:Hnth.
    + assert (Hskip : skipn i recipients = rcpt :: skipn (S i) recipients).
      { clear -Hnth. revert i Hnth.
        induction recipients as [|x xs IHx]; intros [|i] Hnth;
          simpl in *; try discriminate.
        - now injection Hnth as ->.
        - now apply IHx. }
      rewrite Hskip. cbn [combine map fst snd].
      set (items := map _ (combine (skipn (S i) recipients) rs)).
      assert (Hrec : (List.length rs + S i = List.length recipients)%nat)
        by (simpl in Hlen; lia).
      destruct (item_success (item_of rcpt r)) eqn:Hs.
      * rewrite (IH (S i) _ _ _ Hrec). fold items.
        rewrite <- app_assoc. simpl. unfold count_ok, count_failed. simpl.
        rewrite Hs. simpl. apply f_equal.
        apply f_equal2; [apply f_equal2; [reflexivity | lia] | lia].
      * rewrite (IH (S i) _ _ _ Hrec). fold items.
        rewrite <- app_assoc. simpl. unfold count_ok, count_failed. simpl.
        rewrite Hs. simpl. apply f_equal.
        apply f_equal2; [apply f_equal2; [reflexivity | lia] | lia].
    + apply nth_error_None in Hnth. simpl in Hlen. lia.
Qed.

Section Service.
Variable W : Type.
Variable Message : Type.
Variable build_message :
  string -> string -> string -> option string -> result Message.
Variable smtp_session : Message -> string -> Eff.M W string.

(** X18.  [send_bulk_email] returns one entry per recipient, in the
    order of the recipients, built from the result of that recipient's
    task; the two counters are the numbers of successful and of failed
    entries, they add up to [total], the number of recipients, and
    [success] holds exactly when no entry failed.  The handler of the
    function is never reached. *)
Theorem send_bulk_email_counts recipients subject body html_body w :
  let r := fst (send_bulk_email build_message smtp_session
                                recipients subject body html_body w) in
  let outcomes :=
    fst (Asyncio.gather
           (map (fun rcpt => send_email build_message smtp_session
                                        rcpt subject body html_body)
                recipients) w) in
  exists items,
    bulk_results r = Some items
    /\ bulk_error r = None
    /\ items = map (fun x => item_of (fst x) (snd x))
                   (combine recipients outcomes)
    /\ map recipient items = recipients
    /\ total r = List.length recipients
    /\ successful r = count_ok items
    /\ failed r = count_failed items
    /\ (successful r + failed r = total r)%nat
    /\ (bulk_success r = true
        <-> Forall (fun x => item_success x = true) items).
Proof.
  intros r outcomes. subst r. unfold send_bulk_email.
  pose proof (BatchFacts.gather_length
                (map (fun rcpt => send_email build_message smtp_session
                                             rcpt subject body html_body)
                     recipients) w) as Hlen.
  fold outcomes in Hlen. rewrite length_map in Hlen.
  subst outcomes.
  destruct (Asyncio.gather _ w) as [email_results w']. simpl in Hlen |- *.
  rewrite tally_spec by lia. simpl.
  set (items := map _ (combine recipients email_results)).
  exists items. split; [reflexivity|]. split; [reflexivity|].
  split; [reflexivity|].
  assert (Hrcpt : map recipient items = recipients).
  { subst items. clear -Hlen. revert email_results Hlen.
    induction recipients as [|x xs IH]; intros [|o os] Hlen;
      simpl in *; try lia; [reflexivity|].
    f_equal; [now destruct o | apply IH; lia]. }
  split; [exact Hrcpt|]. split; [reflexivity|].
  split; [reflexivity|]. split; [reflexivity|].
  split.
  - rewrite count_split. rewrite <- (length_map recipient items).
    now rewrite Hrcpt.
  - rewrite <- count_failed_zero. apply Nat.eqb_eq.
Qed.
End Service.

Lemma send_bulk_email_counts_witness :
  bulk_success
    (fst (send_bulk_email (W:=unit) (Message:=string)
            (fun to _ _ _ => Returned to)
            (fun message _ w => (Returned ("msg_" ++ message), w))
            ["ann@example.org"; "bob@example.org"] "Hello" "Hi" None tt))
  = true.
Proof.
  destruct (@send_bulk_email_counts unit string
              (fun to _ _ _ => Returned to)
              (fun message _ w => (Returned ("msg_" ++ message), w))
              ["ann@example.org"; "bob@example.org"] "Hello" "Hi" None tt)
    as (items & _ & _ & Hitems & _ & _ & _ & _ & _ & Hsuccess).
  apply Hsuccess. rewrite Hitems. repeat constructor.
Defined.

End EmailServiceFacts.

(* ================================================================== *)
(** * Facts about the CRM service *)

Module CRMFacts.
Import Json CRM CRMDemo.

Section Leads.
Context {U : Str.Lower}.

Lemma lead_ok_address lead :
  lead_ok lead = true <-> exists a, email_lower_of lead = Returned a.
Proof.
  unfold lead_ok, email_lower_of, get_default.
  destruct lead as [| b | q | s | l | d];
    try (split; [discriminate | intros (a & [=])]).
  destruct (Dict.get "email" d) as [[| b | q | e | l | d']|];
    try (split; [discriminate | intros (a & [=])]);
    (split; [intros _; eexists; reflexivity | reflexivity]).
Qed.

Lemma has_address_spec email lead :
  has_address email lead = true
  <-> email_lower_of lead = Returned (Str.lower email).
Proof.
  unfold has_address. destruct (email_lower_of lead) as [a|e].
  - rewrite String.eqb_eq. split; [now intros -> | now intros [= ->]].
  - split; discriminate.
Qed.

(** A search that finds a lead: the lead is in the list at the index
    given, it has the address, and no lead before it has. *)
Lemma find_lead_some email leads :
  forall i j lead,
    find_lead (Str.lower email) i leads = Returned (Some (j, lead)) ->
    exists pre post,
      leads = (pre ++ lead :: post)%list
      /\ j = (i + List.length pre)%nat
      /\ has_address email lead = true
      /\ forallb lead_ok pre = true
      /\ existsb (has_address email) pre = false.
Proof.
  induction leads as [|x rest IH]; intros i j lead; cbn [find_lead];
    [discriminate|].
  destruct (email_lower_of x) as [a|e] eqn:Ha; [|discriminate].
  destruct (String.eqb_spec a (Str.lower email)) as [->|Hne].
  - intros [= <- <-]. exists [], rest. simpl.
    rewrite Nat.add_0_r. repeat split.
    now apply has_address_spec.
  - intros Hfind. destruct (IH _ _ _ Hfind)
      as (pre & post & -> & -> & Hlead & Hok & Hno).
    exists (x :: pre), post. simpl.
    split; [reflexivity|]. split; [lia|]. split; [exact Hlead|].
    split.
    + rewrite Hok, andb_true_r. apply lead_ok_address. now exists a.
    + rewrite Hno, orb_false_r. unfold has_address. rewrite Ha.
      now apply String.eqb_neq.
Qed.

(** A search over records that can be searched finds the first lead
    with the address. *)
Lemma find_lead_first email pre lead post :
  forall i,
    forallb lead_ok pre = true ->
    existsb (has_address email) pre = false ->
    has_address email lead = true ->
    find_lead (Str.lower email) i (pre ++ lead :: post)%list
    = Returned (Some ((i + List.length pre)%nat, lead)).
Proof.
  induction pre as [|x pre IH]; intros i Hok Hno Hlead; simpl.
  - apply has_address_spec in Hlead. rewrite Hlead, String.eqb_refl.
    now rewrite Nat.add_0_r.
  - simpl in Hok, Hno. apply andb_prop in Hok. destruct Hok as (Hx & Hok).
    apply orb_false_elim in Hno. destruct Hno as (Hnx & Hno).
    apply lead_ok_address in Hx. destruct Hx as (a & Ha).
    unfold has_address in Hnx. rewrite Ha in Hnx. rewrite Ha, Hnx.
    rewrite (IH (S i) Hok Hno Hlead). do 3 f_equal. lia.
Qed.

Lemma find_lead_none email leads :
  forall i,
    forallb lead_ok leads = true ->
    existsb (has_address email) leads = false ->
    find_lead (Str.lower email) i leads = Returned None.
Proof.
  induction leads as [|x rest IH]; intros i Hok Hno; simpl; [reflexivity|].
  simpl in Hok, Hno. apply andb_prop in Hok. destruct Hok as (Hx & Hok).
  apply orb_false_elim in Hno. destruct Hno as (Hnx & Hno).
  apply lead_ok_address in Hx. destruct Hx as (a & Ha).
  unfold has_address in Hnx. rewrite Ha in Hnx. rewrite Ha, Hnx.
  now apply IH.
Qed.

(** A record that cannot be searched stops the search with an
    exception, unless the lead is found before it. *)
Lemma find_lead_raises email pre bad post :
  forall i,
    forallb lead_ok pre = true ->
    existsb (has_address email) pre = false ->
    lead_ok bad = false ->
    exists e,
      find_lead (Str.lower email) i (pre ++ bad :: post)%list = Raised e.
Proof.
  induction pre as [|x pre IH]; intros i Hok Hno Hbad; simpl.
  - destruct (email_lower_of bad) as [a|e] eqn:Ha; [|now exists e].
    assert (lead_ok bad = true) by (apply lead_ok_address; now exists a).
    congruence.
  - simpl in Hok, Hno. apply andb_prop in Hok. destruct Hok as (Hx & Hok).
    apply orb_false_elim in Hno. destruct Hno as (Hnx & Hno).
    apply lead_ok_address in Hx. destruct Hx as (a & Ha).
    unfold has_address in Hnx. rewrite Ha in Hnx. rewrite Ha, Hnx.
    now apply IH.
Qed.

(** Only a list holds a lead that the search finds. *)
Lemma iter_found v leads email i j lead :
  iter v = Returned leads ->
  find_lead (Str.lower email) i leads = Returned (Some (j, lead)) ->
  v = JArr leads /\ exists d, lead = JObj d.
Proof.
  intros Hiter Hfind.
  destruct (find_lead_some _ _ _ Hfind)
    as (pre & post & Hleads & _ & Hlead & Hok & _).
  assert (Hobj : exists d, lead = JObj d).
  { apply has_address_spec in Hlead. unfold email_lower_of in Hlead.
    destruct lead; simpl in Hlead; try discriminate. eauto. }
  split; [|exact Hobj].
  destruct Hobj as (d & ->).
  destruct v as [| b | q | s | l | d0]; simpl in Hiter; try discriminate.
  - exfalso. injection Hiter as Hiter.
    assert (Hin : In (JObj d) leads) by (rewrite Hleads; apply in_elt).
    rewrite <- Hiter in Hin. apply in_map_iff in Hin.
    destruct Hin as (c & [=] & _).
  - now injection Hiter as ->.
  - exfalso. injection Hiter as Hiter.
    assert (Hin : In (JObj d) leads) by (rewrite Hleads; apply in_elt).
    rewrite <- Hiter in Hin. apply in_map_iff in Hin.
    destruct Hin as (c & [=] & _).
Qed.

(** X19.  [check_lead] reports only what is stored: a lead it returns
    holds the address asked for, letter case apart, and is a record of
    the file of existing leads when the type is [existing_lead], and a
    record of the file of new leads otherwise. *)
Theorem check_lead_sound email s :
  EmailAgent.lead_exists (check_lead email s) = true ->
  has_address email (EmailAgent.lead_data (check_lead email s)) = true
  /\ ((EmailAgent.lead_type (check_lead email s) = "existing_lead"
       /\ exists leads, get_existing_leads s = JArr leads
                        /\ In (EmailAgent.lead_data (check_lead email s))
                              leads)
      \/ (EmailAgent.lead_type (check_lead email s) = "new_lead"
          /\ exists leads, get_new_leads s = JArr leads
                           /\ In (EmailAgent.lead_data (check_lead email s))
                                 leads)).
Proof.
  unfold check_lead.
  destruct (iter (get_existing_leads s)) as [existing|e] eqn:Hie;
    [|discriminate].
  destruct (find_lead (Str.lower email) 0 existing)
    as [[[j lead]|]|e] eqn:Hfe; [| |discriminate].
  - intros _. simpl.
    destruct (iter_found _ _ _ Hie Hfe) as (Hv & _).
    destruct (find_lead_some _ _ _ Hfe) as (pre & post & Hl & _ & Ha & _).
    split; [exact Ha|]. left. split; [reflexivity|].
    exists existing. split; [exact Hv|]. rewrite Hl. apply in_elt.
  - destruct (iter (get_new_leads s)) as [new|e] eqn:Hin; [|discriminate].
    destruct (find_lead (Str.lower email) 0 new)
      as [[[j lead]|]|e] eqn:Hfn; [|discriminate|discriminate].
    intros _. simpl.
    destruct (iter_found _ _ _ Hin Hfn) as (Hv & _).
    destruct (find_lead_some _ _ _ Hfn) as (pre & post & Hl & _ & Ha & _).
    split; [exact Ha|]. right. split; [reflexivity|].
    exists new. split; [exact Hv|]. rewrite Hl. apply in_elt.
Qed.

Lemma find_first (A : Type) (p : A -> bool) (l : list A) x :
  find p l = Some x ->
  exists pre post, l = (pre ++ x :: post)%list
                   /\ existsb p pre = false /\ p x = true.
Proof.
  induction l as [|y l IH]; simpl; [discriminate|].
  destruct (p y) eqn:Hy.
  - intros [= <-]. now exists [], l.
  - intros Hf. destruct (IH Hf) as (pre & post & -> & Hno & Hx).
    exists (y :: pre), post. simpl. now rewrite Hy, Hno.
Qed.

Lemma find_none_existsb (A : Type) (p : A -> bool) (l : list A) :
  find p l = None -> existsb p l = false.
Proof.
  induction l as [|y l IH]; simpl; [reflexivity|].
  destruct (p y); [discriminate | exact IH].
Qed.

Lemma forallb_prefix (A : Type) (p : A -> bool) (pre post : list A) :
  forallb p (pre ++ post)%list = true -> forallb p pre = true.
Proof. rewrite forallb_app. intros H. now apply andb_prop in H. Qed.

(** The answer of [check_lead] over files whose records can all be
    searched. *)
Lemma check_lead_searchable email s existing new :
  get_existing_leads s = JArr existing ->
  get_new_leads s = JArr new ->
  forallb lead_ok existing = true ->
  forallb lead_ok new = true ->
  check_lead email s
  = match find (has_address email) existing with
    | Some lead => EmailAgent.mkLead true "existing_lead" lead
    | None =>
        match find (has_address email) new with
        | Some lead => EmailAgent.mkLead true "new_lead" lead
        | None => EmailAgent.mkLead false "new_lead" JNull
        end
    end.
Proof.
  intros He Hn Hoke Hokn. unfold check_lead. rewrite He, Hn. cbn [iter].
  destruct (find (has_address email) existing) as [lead|] eqn:Hfe.
  - destruct (find_first _ _ Hfe) as (pre & post & -> & Hno & Hlead).
    rewrite (find_lead_first email pre lead post 0
               (forallb_prefix _ _ _ Hoke) Hno Hlead).
    reflexivity.
  - rewrite (find_lead_none email existing 0 Hoke
               (find_none_existsb _ _ Hfe)).
    destruct (find (has_address email) new) as [lead|] eqn:Hfn.
    + destruct (find_first _ _ Hfn) as (pre & post & -> & Hno & Hlead).
      rewrite (find_lead_first email pre lead post 0
                 (forallb_prefix _ _ _ Hokn) Hno Hlead).
      reflexivity.
    + now rewrite (find_lead_none email new 0 Hokn
                     (find_none_existsb _ _ Hfn)).
Qed.

(** X20.  Over files whose records are dictionaries with a string for
    address (or none), [check_lead] finds every stored address whatever
    the letter case of the query and of the record; the file of existing
    leads comes first: an address held in both files is reported as an
    existing lead, with the first record of that file that holds it. *)
Theorem check_lead_complete email s existing new :
  get_existing_leads s = JArr existing ->
  get_new_leads s = JArr new ->
  forallb lead_ok existing = true ->
  forallb lead_ok new = true ->
  (EmailAgent.lead_exists (check_lead email s)
   = existsb (has_address email) (existing ++ new)%list)
  /\ (forall lead,
         find (has_address email) existing = Some lead ->
         check_lead email s = EmailAgent.mkLead true "existing_lead" lead)
  /\ (forall lead,
         existsb (has_address email) existing = false ->
         find (has_address email) new = Some lead ->
         check_lead email s = EmailAgent.mkLead true "new_lead" lead)
  /\ (forall email',
         Str.lower email' = Str.lower email ->
         check_lead email' s = check_lead email s).
Proof.
  intros He Hn Hoke Hokn.
  rewrite (@check_lead_searchable email s existing new He Hn Hoke Hokn).
  split; [|split; [|split]].
  - rewrite existsb_app.
    destruct (find (has_address email) existing) as [lead|] eqn:Hfe.
    + destruct (find_first _ _ Hfe) as (pre & post & -> & _ & Hlead).
      rewrite existsb_app. simpl. rewrite Hlead.
      now rewrite orb_true_r.
    + rewrite (find_none_existsb _ _ Hfe). simpl.
      destruct (find (has_address email) new) as [lead|] eqn:Hfn.
      * destruct (find_first _ _ Hfn) as (pre & post & -> & _ & Hlead).
        rewrite existsb_app. simpl. rewrite Hlead.
        now rewrite orb_true_r.
      * now rewrite (find_none_existsb _ _ Hfn).
  - now intros lead ->.
  - intros lead Hno Hfn.
    destruct (find (has_address email) existing) as [l0|] eqn:Hfe.
    + destruct (find_first _ _ Hfe) as (pre & post & -> & _ & Hlead).
      rewrite existsb_app in Hno. simpl in Hno. rewrite Hlead in Hno.
      rewrite orb_true_r in Hno. discriminate.
    + now rewrite Hfn.
  - intros email' Hlow.
    rewrite <- (@check_lead_searchable email s existing new He Hn Hoke Hokn).
    unfold check_lead. now rewrite Hlow.
Qed.

(** X21.  One record that cannot be searched hides every lead stored
    after it: when such a record of the file of existing leads comes
    before any record with the address, [check_lead] answers that the
    lead does not exist, whatever the rest of that file and the file of
    new leads hold. *)
Theorem unsearchable_record_hides_leads email s pre bad post :
  get_existing_leads s = JArr (pre ++ bad :: post)%list ->
  forallb lead_ok pre = true ->
  existsb (has_address email) pre = false ->
  lead_ok bad = false ->
  check_lead email s = EmailAgent.mkLead false "new_lead" JNull.
Proof.
  intros He Hok Hno Hbad. unfold check_lead. rewrite He. cbn [iter].
  destruct (find_lead_raises email pre bad post 0 Hok Hno Hbad) as (e & ->).
  reflexivity.
Qed.

Lemma get_new_leads_saved v s :
  on_write (new_leads_file s) = None ->
  save_new_leads v s
  = (true, with_new s (mkFile (Returned v) None)).
Proof.
  intros Hw. unfold save_new_leads, save, dump. now rewrite Hw.
Qed.

Lemma get_existing_leads_saved v s :
  on_write (existing_leads_file s) = None ->
  save_existing_leads v s
  = (true, with_existing s (mkFile (Returned v) None)).
Proof.
  intros Hw. unfold save_existing_leads, save, dump. now rewrite Hw.
Qed.

Lemma lead_entry_address lead_data e lead_id created_at last_contact :
  Dict.get "email" lead_data = Some (JStr e) ->
  has_address e (lead_entry lead_data lead_id created_at last_contact)
  = true
  /\ lead_ok (lead_entry lead_data lead_id created_at last_contact) = true.
Proof.
  intros He. unfold has_address, lead_ok, email_lower_of, lead_entry, getd.
  simpl. rewrite He. now rewrite String.eqb_refl.
Qed.

(** X22.  A lead added is found afterwards.  When the files can be
    searched, the file of new leads can be written and the address is
    not stored yet, [add_new_lead] returns [True] and appends its entry
    to the file of new leads, and [check_lead] of that address, in any
    letter case, then returns that entry as a new lead. *)
Theorem add_new_lead_then_check lead_data e e' clock_ms created_at
        last_contact s existing new :
  get_existing_leads s = JArr existing ->
  get_new_leads s = JArr new ->
  forallb lead_ok existing = true ->
  forallb lead_ok new = true ->
  on_write (new_leads_file s) = None ->
  Dict.get "email" lead_data = Some (JStr e) ->
  EmailAgent.lead_exists (check_lead e s) = false ->
  Str.lower e' = Str.lower e ->
  let entry := lead_entry lead_data ("lead_" ++ str_int clock_ms)
                          created_at last_contact in
  let r := add_new_lead lead_data clock_ms created_at last_contact s in
  fst r = true
  /\ get_new_leads (snd r) = JArr (new ++ [entry])%list
  /\ get_existing_leads (snd r) = JArr existing
  /\ check_lead e' (snd r) = EmailAgent.mkLead true "new_lead" entry.
Proof.
  intros He Hn Hoke Hokn Hw Hmail Habsent Hlow entry r.
  destruct (lead_entry_address lead_data ("lead_" ++ str_int clock_ms)
              created_at last_contact Hmail) as (Haddr & Hentry).
  fold entry in Haddr, Hentry.
  assert (Hr : r = (true, with_new s
                            (mkFile (Returned (JArr (new ++ [entry])%list))
                                    None))).
  { subst r. unfold add_new_lead. rewrite Hn.
    now rewrite get_new_leads_saved by exact Hw. }
  rewrite Hr. cbn [fst snd].
  set (s' := with_new s _).
  assert (Hn' : get_new_leads s' = JArr (new ++ [entry])%list)
    by reflexivity.
  assert (He' : get_existing_leads s' = JArr existing) by exact He.
  split; [reflexivity|]. split; [exact Hn'|]. split; [exact He'|].
  pose proof (@check_lead_searchable e s existing new He Hn Hoke Hokn) as Hc.
  rewrite Hc in Habsent.
  destruct (find (has_address e) existing) as [l0|] eqn:Hfe; [discriminate|].
  destruct (find (has_address e) new) as [l1|] eqn:Hfn; [discriminate|].
  assert (Hokn' : forallb lead_ok (new ++ [entry])%list = true).
  { rewrite forallb_app, Hokn. cbn [forallb]. now rewrite Hentry. }
  assert (Hcase : check_lead e' s' = check_lead e s')
    by (unfold check_lead; now rewrite Hlow).
  rewrite Hcase.
  rewrite (@check_lead_searchable e s' existing _ He' Hn' Hoke Hokn'), Hfe.
  assert (Hfind : find (has_address e) (new ++ [entry])%list = Some entry).
  { clear -Hfn Haddr. induction new as [|x new IH]; simpl in *.
    - now rewrite Haddr.
    - destruct (has_address e x); [discriminate|]. now apply IH. }
  now rewrite Hfind.
Qed.


Lemma promoted_keeps_address d clock_s now :
  Dict.get "email" (promoted d clock_s now) = Dict.get "email" d.
Proof.
  unfold promoted.
  rewrite !DictFacts.get_set_other by discriminate. reflexivity.
Qed.

Lemma pop_middle (pre post : list json) x :
  pop (List.length pre) (pre ++ x :: post)%list = (pre ++ post)%list.
Proof.
  unfold pop. induction pre as [|y pre IH]; [reflexivity|].
  simpl in *. now rewrite IH.
Qed.

(** X24.  [promote_lead] moves a lead between the files.  When the
    first record of the file of new leads with the address is a
    dictionary that is not empty, and both files can be written, the
    call returns [True], the record leaves the file of new leads, the
    other records keeping their order, and it is appended to the file of
    existing leads with its status, account and last contact set and
    its other keys unchanged; [check_lead] then reports the address as
    an existing lead. *)
Theorem promote_lead_moves_lead email clock_s now s existing pre d post :
  get_existing_leads s = JArr existing ->
  get_new_leads s = JArr (pre ++ JObj d :: post)%list ->
  forallb lead_ok existing = true ->
  forallb lead_ok pre = true ->
  existsb (has_address email) pre = false ->
  has_address email (JObj d) = true ->
  d <> [] ->
  on_write (existing_leads_file s) = None ->
  on_write (new_leads_file s) = None ->
  let r := promote_lead email clock_s now s in
  fst r = true
  /\ get_new_leads (snd r) = JArr (pre ++ post)%list
  /\ get_existing_leads (snd r)
     = JArr (existing ++ [JObj (promoted d clock_s now)])%list
  /\ outbox_file (snd r) = outbox_file s
  /\ (forall key, key <> "status" -> key <> "account_id" ->
                  key <> "last_contact" ->
                  Dict.get key (promoted d clock_s now) = Dict.get key d)
  /\ EmailAgent.lead_exists (check_lead email (snd r)) = true
  /\ EmailAgent.lead_type (check_lead email (snd r)) = "existing_lead".
Proof.
  intros He Hn Hoke Hokp Hno Hlead Hne Hwe Hwn r.
  assert (Hd : truthy (JObj d) = true) by (destruct d; [congruence | reflexivity]).
  set (lead := JObj (promoted d clock_s now)).
  set (s1 := with_existing s
               (mkFile (Returned (JArr (existing ++ [lead])%list)) None)).
  set (s2 := with_new s1 (mkFile (Returned (JArr (pre ++ post)%list)) None)).
  assert (Hr : r = (true, s2)).
  { subst r. unfold promote_lead. rewrite Hn. cbn [iter].
    rewrite (find_lead_first email pre (JObj d) post 0 Hokp Hno Hlead).
    rewrite Hd, He. simpl Nat.add.
    rewrite get_existing_leads_saved by exact Hwe. fold lead. fold s1.
    rewrite get_new_leads_saved by exact Hwn.
    rewrite pop_middle. reflexivity. }
  rewrite Hr. cbn [fst snd].
  split; [reflexivity|]. split; [reflexivity|]. split; [reflexivity|].
  split; [reflexivity|]. split.
  { intros key H1 H2 H3. unfold promoted.
    now rewrite !DictFacts.get_set_other by congruence. }
  assert (Hlead' : has_address email lead = true).
  { apply has_address_spec. apply has_address_spec in Hlead.
    unfold lead, email_lower_of, get_default in *.
    now rewrite promoted_keeps_address. }
  assert (Hfound : exists j l,
             find_lead (Str.lower email) 0 (existing ++ [lead])%list
             = Returned (Some (j, l))).
  { clear -Hoke Hlead'. generalize 0%nat.
    induction existing as [|x rest IH]; intros i; simpl.
    - apply has_address_spec in Hlead'. rewrite Hlead', String.eqb_refl.
      eauto.
    - simpl in Hoke. apply andb_prop in Hoke. destruct Hoke as (Hx & Hoke).
      apply lead_ok_address in Hx. destruct Hx as (a & ->).
      destruct (String.eqb a (Str.lower email)); [eauto|].
      now apply IH. }
  destruct Hfound as (j & l & Hfound).
  unfold check_lead.
  change (get_existing_leads s2) with (JArr (existing ++ [lead])%list).
  cbn [iter]. rewrite Hfound. split; reflexivity.
Qed.

(** X25.  The outbox only grows: entries added one after the other to
    an outbox that holds a list and can be written are all accepted,
    and the outbox then holds what it held followed by the entries in
    the order of the calls; the files of leads are not touched. *)
Theorem outbox_appends entries :
  forall s held,
    get_outbox s = JArr held ->
    on_write (outbox_file s) = None ->
    let r := fold_left (fun acc entry =>
                          (fst acc && fst (add_to_outbox entry (snd acc)),
                           snd (add_to_outbox entry (snd acc))))
                       entries (true, s) in
    fst r = true
    /\ get_outbox (snd r) = JArr (held ++ entries)%list
    /\ existing_leads_file (snd r) = existing_leads_file s
    /\ new_leads_file (snd r) = new_leads_file s.
Proof.
  induction entries as [|entry rest IH]; intros s held Hheld Hw.
  - cbn. rewrite app_nil_r. repeat split. exact Hheld.
  - assert (Hadd : add_to_outbox entry s
                   = (true, with_outbox s
                              (mkFile (Returned (JArr (held ++ [entry])%list))
                                      None))).
    { unfold add_to_outbox, dump. now rewrite Hheld, Hw. }
    cbn [fold_left fst snd]. rewrite Hadd. cbn [fst snd andb].
    set (s1 := with_outbox s _).
    destruct (IH s1 (held ++ [entry])%list eq_refl eq_refl)
      as (Hok & Hout & He & Hn).
    cbn zeta in Hok, Hout, He, Hn.
    rewrite Hok, Hout, He, Hn. rewrite <- app_assoc.
    repeat split.
Qed.

(** X26.  [validate_lead] and [check_lead] search the same files in
    the same way and agree: on whether the lead exists, on its type,
    and, for a lead found, on the record, whose identifier, account and
    last contact the validation reports.  The confidence is 1 for an
    existing lead, 0.9 for a new one, and for a lead not found 1 after
    a complete search and 0 after an exception. *)
Theorem validate_lead_agrees_with_check_lead email s :
  let v := validate_lead email s in
  let c := check_lead email s in
  v_exists v = EmailAgent.lead_exists c
  /\ v_lead_type v = EmailAgent.lead_type c
  /\ (v_exists v = true ->
      v_lead_id v = field (EmailAgent.lead_data c) "id" JNull
      /\ v_account_id v = field (EmailAgent.lead_data c) "account_id" JNull
      /\ v_last_contact v
         = field (EmailAgent.lead_data c) "last_contact" JNull
      /\ v_confidence v
         = (if String.eqb (v_lead_type v) "existing_lead" then 1
            else 9 # 10)%Q)
  /\ (v_exists v = false ->
      v_status v = JStr "New Lead"
      /\ (v_confidence v = 1%Q \/ v_confidence v = 0%Q)).
Proof.
  unfold validate_lead, check_lead.
  destruct (iter (get_existing_leads s)) as [existing|e];
    [|simpl; repeat split; try discriminate; now right].
  destruct (find_lead (Str.lower email) 0 existing) as [[[j lead]|]|e];
    [simpl; repeat split; discriminate
    | | simpl; repeat split; try discriminate; now right].
  destruct (iter (get_new_leads s)) as [new|e];
    [|simpl; repeat split; try discriminate; now right].
  destruct (find_lead (Str.lower email) 0 new) as [[[j lead]|]|e];
    simpl; repeat split; try discriminate; auto.
Qed.

End Leads.

Section Examples.
(** The addresses of the examples are ASCII; [lower] is taken to be
    [Str.ascii_lower], with which every [lower] agrees on them. *)
#[local] Existing Instance Str.ascii_lower.

Lemma check_lead_sound_witness :
  has_address "ann@example.ORG"
              (EmailAgent.lead_data (check_lead "ann@example.ORG" demo_store))
  = true.
Proof.
  exact (proj1 (check_lead_sound "ann@example.ORG" demo_store eq_refl)).
Defined.

Lemma check_lead_complete_witness :
  check_lead "BOB@example.org" demo_store
  = EmailAgent.mkLead true "new_lead" (demo_lead "bob@example.org").
Proof.
  destruct (@check_lead_complete Str.ascii_lower "BOB@example.org" demo_store
              [demo_lead "Ann@Example.org"] [demo_lead "bob@example.org"]
              eq_refl eq_refl eq_refl eq_refl) as (_ & _ & Hnew & _).
  apply Hnew; reflexivity.
Defined.

Lemma unsearchable_record_hides_leads_witness :
  check_lead "ann@example.org"
             (mkStore (mkFile (Returned
                                 (JArr [JObj [("email", JNull)];
                                        demo_lead "ann@example.org"])) None)
                      (mkFile (Returned (JArr [demo_lead "ann@example.org"]))
                              None)
                      (mkFile (Returned (JArr [])) None))
  = EmailAgent.mkLead false "new_lead" JNull.
Proof.
  apply (@unsearchable_record_hides_leads Str.ascii_lower "ann@example.org" _ []
           (JObj [("email", JNull)]) [demo_lead "ann@example.org"]);
    reflexivity.
Defined.

Lemma add_new_lead_then_check_witness :
  EmailAgent.lead_exists
    (check_lead "CAROL@example.org"
       (snd (add_new_lead [("name", JStr "Carol");
                           ("email", JStr "carol@example.org")]
                          1700 "t1" "t2" demo_store)))
  = true.
Proof.
  destruct (@add_new_lead_then_check Str.ascii_lower
              [("name", JStr "Carol"); ("email", JStr "carol@example.org")]
              "carol@example.org" "CAROL@example.org" 1700 "t1" "t2"
              demo_store [demo_lead "Ann@Example.org"]
              [demo_lead "bob@example.org"]
              eq_refl eq_refl eq_refl eq_refl eq_refl eq_refl eq_refl eq_refl)
    as (_ & _ & _ & Hcheck).
  now rewrite Hcheck.
Defined.


Lemma promote_lead_moves_lead_witness :
  EmailAgent.lead_type
    (check_lead "Bob@example.org"
                (snd (promote_lead "Bob@example.org" 17 "t" demo_store)))
  = "existing_lead".
Proof.
  destruct (@promote_lead_moves_lead Str.ascii_lower "Bob@example.org" 17 "t" demo_store
              [demo_lead "Ann@Example.org"] []
              [("id", JStr "lead_1"); ("email", JStr "bob@example.org")] []
              eq_refl eq_refl eq_refl eq_refl eq_refl eq_refl
              ltac:(discriminate) eq_refl eq_refl)
    as (_ & _ & _ & _ & _ & _ & Htype).
  exact Htype.
Defined.

Lemma outbox_appends_witness :
  get_outbox
    (snd (fold_left (fun acc entry =>
                       (fst acc && fst (add_to_outbox entry (snd acc)),
                        snd (add_to_outbox entry (snd acc))))
                    [JStr "first"; JStr "second"] (true, demo_store)))
  = JArr [JStr "first"; JStr "second"].
Proof.
  destruct (@outbox_appends [JStr "first"; JStr "second"] demo_store []
              eq_refl eq_refl) as (_ & Hout & _).
  exact Hout.
Defined.

Lemma validate_lead_agrees_with_check_lead_witness :
  v_lead_id (validate_lead "ANN@example.org" demo_store) = JStr "lead_1".
Proof.
  destruct (validate_lead_agrees_with_check_lead "ANN@example.org" demo_store)
    as (_ & _ & Hfound & _).
  destruct (Hfound eq_refl) as (Hid & _).
  rewrite Hid. reflexivity.
Defined.

End Examples.

End CRMFacts.

(* ================================================================== *)
(** * Facts about the e-mail workflow and the endpoints that log *)

Module WorkflowFacts.
Import Json Intent Workflow.
Import WebServerMore (Answer, Ok, HTTPError, required_fields).

Section Validation.
Context {U : Str.Lower}.

Lemma new_customer_address n p created_at last_contact :
  CRM.has_address (from_email p) (new_customer n p created_at last_contact)
  = true.
Proof.
  unfold CRM.has_address, CRM.email_lower_of, new_customer. simpl.
  apply String.eqb_refl.
Qed.

(** X27.  A sender that the file of customers does not hold is
    appended to it with the identifier [len(customers) + 1] and reported
    as a new lead of type [lead]; validated again, with the address in
    any letter case, the same sender is found with that identifier, is
    no longer a new lead, has the type [new_lead] of the record, and the
    file is left as it is. *)
Theorem validate_email_new_then_existing isoformat p p' t f customers :
  CRM.on_read f = Returned (JArr customers) ->
  CRM.on_write f = None ->
  forallb CRM.lead_ok customers = true ->
  existsb (CRM.has_address (from_email p)) customers = false ->
  Str.lower (from_email p') = Str.lower (from_email p) ->
  let n := (List.length customers + 1)%nat in
  let r1 := validate_email isoformat p t f in
  let r2 := validate_email isoformat p' (snd r1) (snd (fst r1)) in
  fst (fst r1)
  = mkValidation true (JNum (inject_Z (Z.of_nat n))) (JStr "lead") true
  /\ CRM.on_read (snd (fst r1))
     = Returned (JArr (customers
                       ++ [new_customer n p (isoformat t)
                                        (isoformat (t + 1)%nat)])%list)
  /\ fst (fst r2)
     = mkValidation true (JNum (inject_Z (Z.of_nat n))) (JStr "new_lead")
                    false
  /\ snd (fst r2) = snd (fst r1)
  /\ snd r2 = snd r1.
Proof.
  intros Hread Hwrite Hok Hno Hlow n r1 r2.
  set (c := new_customer n p (isoformat t) (isoformat (t + 1)%nat)).
  assert (Hr1 : r1 = (mkValidation true (JNum (inject_Z (Z.of_nat n)))
                                   (JStr "lead") true,
                      CRM.mkFile (Returned (JArr (customers ++ [c])%list))
                                 None,
                      (t + 2)%nat)).
  { subst r1. unfold validate_email. rewrite Hread. cbn [CRM.iter].
    rewrite (CRMFacts.find_lead_none (from_email p) customers 0 Hok Hno).
    unfold CRM.dump. rewrite Hwrite. reflexivity. }
  subst r2. rewrite Hr1. cbn [fst snd].
  split; [reflexivity|]. split; [reflexivity|].
  unfold validate_email. cbn [CRM.on_read CRM.iter]. rewrite Hlow.
  rewrite (CRMFacts.find_lead_first (from_email p) customers c [] 0 Hok Hno
             (new_customer_address n p _ _)).
  repeat split.
Qed.

End Validation.

Section Agents.
Context {H : LLM.Host} {U : Str.Lower}.
Variable json_loads : string -> result json.
Variable intent_prompt : EmailPayload -> string.
Variable reply_prompt : EmailPayload -> json -> bool -> string.
Variable Logs : Type.
Variable write_log :
  string -> string -> string -> json -> Logs -> result string * Logs.
Variable isoformat : nat -> string.
Variable strftime : nat -> string.
Variable llm_manager : LLM.LLMManager.

(** The first key that [process_email] misses. *)
Lemma payload_of_missing email_data :
  (Dict.get "email" email_data = None ->
   payload_of email_data = Raised (Exn KeyError "'email'"))
  /\ (forall info field,
         Dict.get "email" email_data = Some info ->
         find (fun f => negb (Dict.mem f info)) required_fields
         = Some field ->
         payload_of email_data = Raised (Exn KeyError ("'" ++ field ++ "'")))
  /\ (forall info,
         Dict.get "email" email_data = Some info ->
         find (fun f => negb (Dict.mem f info)) required_fields = None ->
         exists p, payload_of email_data = Returned p
                   /\ Dict.get "from" info = Some (from_email p)).
Proof.
  unfold payload_of, item, required_fields, Dict.mem. cbn [find].
  split; [now intros ->|]. split.
  - intros info field ->.
    destruct (Dict.get "from" info); cbn [negb];
      [|now intros [= <-]].
    destruct (Dict.get "name" info); cbn [negb];
      [|now intros [= <-]].
    destruct (Dict.get "subject" info); cbn [negb];
      [|now intros [= <-]].
    destruct (Dict.get "Email_Content" info); cbn [negb];
      [discriminate | now intros [= <-]].
  - intros info ->.
    destruct (Dict.get "from" info); cbn [negb]; [|discriminate].
    destruct (Dict.get "name" info); cbn [negb]; [|discriminate].
    destruct (Dict.get "subject" info); cbn [negb]; [|discriminate].
    destruct (Dict.get "Email_Content" info); cbn [negb]; [|discriminate].
    intros _. eexists. split; reflexivity.
Qed.

(** The result for a payload that has its four fields. *)
Lemma process_email_processed email_data p st :
  payload_of email_data = Returned p ->
  let parsed := parse_email json_loads intent_prompt llm_manager p
                            (llm st) in
  let intent := Intent.intent (fst parsed) in
  let v := validate_email isoformat p (ticks st) (crm_file st) in
  let reply := generate_reply json_loads reply_prompt llm_manager p intent
                              (is_new_lead (fst (fst v))) (snd parsed) in
  exists log_file processed_at,
    fst (Workflow.process_email json_loads intent_prompt reply_prompt
           write_log isoformat strftime llm_manager email_data st)
    = Processed (from_email p) (reply_subject (fst reply))
                (reply_body (fst reply)) intent
                (customer_type (fst (fst v))) (is_new_lead (fst (fst v)))
                (user_id (fst (fst v))) log_file processed_at
    /\ crm_file (snd (Workflow.process_email json_loads intent_prompt reply_prompt
           write_log isoformat strftime llm_manager email_data st)) = snd (fst v).
Proof.
  intros Hp parsed intent v reply. subst intent reply.
  unfold Workflow.process_email. rewrite Hp.
  subst parsed v.
  destruct (parse_email json_loads intent_prompt llm_manager p (llm st))
    as [parse_result w1].
  destruct (validate_email isoformat p (ticks st) (crm_file st))
    as [[validation_result f] t].
  cbn [fst snd].
  destruct (generate_reply json_loads reply_prompt llm_manager p
              (Intent.intent parse_result) (is_new_lead validation_result) w1)
    as [reply_result w2].
  unfold log_interaction. cbn [ticks logs llm crm_file].
  destruct (write_log _ _ _ _ _) as [r logs']. cbn [fst snd crm_file].
  eexists _, _. split; reflexivity.
Qed.

(** X28.  [process_email] always returns a dictionary.  The status is
    [error] exactly when the key [email] or one of the four fields is
    missing, and the error names the first missing key.  Otherwise the
    status is [processed] and the reply goes to the sender: when the
    file of customers cannot be read the sender is treated as a new
    lead without identifier or type and the file is not touched, and
    when every model fails the intent is that of the keyword fallback
    and the reply is the template of [_fallback_reply]. *)
Theorem process_email_degrades email_data st :
  let r := fst (Workflow.process_email json_loads intent_prompt reply_prompt
           write_log isoformat strftime llm_manager email_data st) in
  (Dict.get "email" email_data = None ->
   r = Failed "'email'" (isoformat (ticks st)))
  /\ (forall info field,
         Dict.get "email" email_data = Some info ->
         find (fun f => negb (Dict.mem f info)) required_fields
         = Some field ->
         r = Failed ("'" ++ field ++ "'") (isoformat (ticks st)))
  /\ (forall info,
         Dict.get "email" email_data = Some info ->
         find (fun f => negb (Dict.mem f info)) required_fields = None ->
         exists p s b i ct n u l a,
           payload_of email_data = Returned p
           /\ Dict.get "from" info = Some (from_email p)
           /\ r = Processed (from_email p) s b i ct n u l a
           /\ ((exists e, CRM.on_read (crm_file st) = Raised e) ->
               n = true /\ u = JNull /\ ct = JNull
               /\ crm_file (snd (Workflow.process_email json_loads intent_prompt reply_prompt
           write_log isoformat strftime llm_manager email_data st))
                  = crm_file st)
           /\ (models_down llm_manager ->
               i = Intent.intent (_fallback_intent_parsing p)
               /\ s = reply_subject (_fallback_reply p i n)
               /\ b = reply_body (_fallback_reply p i n))).
Proof.
  intros r. destruct (payload_of_missing email_data) as (H1 & H2 & H3).
  split; [|split].
  - intros Hnone. subst r. unfold Workflow.process_email.
    now rewrite (H1 Hnone).
  - intros info field Hinfo Hfield. subst r.
    unfold Workflow.process_email. now rewrite (H2 info field Hinfo Hfield).
  - intros info Hinfo Hall.
    destruct (H3 info Hinfo Hall) as (p & Hp & Hfrom).
    destruct (process_email_processed email_data st Hp)
      as (log_file & processed_at & Hr & Hfile).
    cbn zeta in Hr, Hfile.
    exists p. do 8 eexists.
    split; [exact Hp|]. split; [exact Hfrom|]. split; [exact Hr|].
    split.
    + intros (e & He). rewrite Hfile.
      unfold validate_email. rewrite He. repeat split.
    + intros Hdown.
      assert (Hparse : fst (parse_email json_loads intent_prompt llm_manager
                                        p (llm st))
                       = _fallback_intent_parsing p).
      { unfold parse_email. now rewrite Hdown. }
      rewrite Hparse. split; [reflexivity|].
      unfold generate_reply. rewrite Hdown. split; reflexivity.
Qed.

(** X29.  No endpoint that logs its request ever answers with its
    result.  The endpoint of the workflow answers with status 400, the
    state untouched, exactly when the key [email] or one of the four
    fields is missing; in every other case it runs the whole workflow
    (the models are called, the customer is recorded, the log is
    written) and then answers with status 500, because [FileLogger] has
    no method [log_request].  The endpoints for text generation, for
    the reply, for the sender name and for the simple processing call
    the models and then answer with status 500 on every input. *)
Theorem logging_endpoints_always_fail :
  (forall email_data st,
      let a := WebServerMore.process_email json_loads intent_prompt reply_prompt
                 write_log isoformat strftime llm_manager email_data st in
      (Dict.get "email" email_data = None ->
       a = (HTTPError _ 400 "Missing 'email' field in payload", st))
      /\ (forall info field,
             Dict.get "email" email_data = Some info ->
             find (fun f => negb (Dict.mem f info)) required_fields
             = Some field ->
             a = (HTTPError _ 400 ("Missing required field: " ++ field), st))
      /\ (forall info,
             Dict.get "email" email_data = Some info ->
             find (fun f => negb (Dict.mem f info)) required_fields = None ->
             a = (HTTPError _ 500 "'FileLogger' object has no attribute 'log_request'",
                  snd (Workflow.process_email json_loads intent_prompt reply_prompt
           write_log isoformat strftime llm_manager email_data st))))
  /\ (forall prompt system_prompt preferred_model w,
         WebServerMore.generate_text llm_manager prompt system_prompt
                                preferred_model w
         = (HTTPError _ 500 "'FileLogger' object has no attribute 'log_request'",
            LLM.world (LLM.generate_text llm_manager prompt system_prompt
                                         preferred_model w)))
  /\ (forall sender_name email_content preferred_model w,
         WebServerMore.generate_email_reply llm_manager sender_name email_content
                                       preferred_model w
         = (HTTPError _ 500 "'FileLogger' object has no attribute 'log_request'",
            snd (LLM.generate_email_reply llm_manager sender_name
                                          email_content preferred_model w)))
  /\ (forall email_content preferred_model w,
         WebServerMore.extract_sender_name llm_manager email_content
                                      preferred_model w
         = (HTTPError _ 500 "'FileLogger' object has no attribute 'log_request'",
            snd (LLM.extract_sender_name llm_manager email_content
                                         preferred_model w)))
  /\ (forall email_content preferred_model w,
         let named := LLM.extract_sender_name llm_manager email_content
                                              preferred_model w in
         WebServerMore.process_email_simple llm_manager email_content
                                       preferred_model w
         = (HTTPError _ 500 "'FileLogger' object has no attribute 'log_request'",
            snd (LLM.generate_email_reply llm_manager
                   (WebServer.or_there (fst named)) email_content
                   preferred_model (snd named)))).
Proof.
  split; [|split; [|split; [|split]]].
  - intros email_data st a. subst a. unfold WebServerMore.process_email.
    split; [now intros ->|]. split.
    + intros info field -> Hfield. now rewrite Hfield.
    + intros info -> Hall. rewrite Hall.
      now destruct (Workflow.process_email json_loads intent_prompt reply_prompt
           write_log isoformat strftime llm_manager email_data st).
  - reflexivity.
  - intros sender_name email_content preferred_model w.
    unfold WebServerMore.generate_email_reply.
    now destruct (LLM.generate_email_reply _ _ _ _ _).
  - intros email_content preferred_model w.
    unfold WebServerMore.extract_sender_name.
    now destruct (LLM.extract_sender_name _ _ _ _).
  - intros email_content preferred_model w named. subst named.
    unfold WebServerMore.process_email_simple.
    destruct (LLM.extract_sender_name _ _ _ _) as [sender_name w1].
    cbn [fst snd].
    now destruct (LLM.generate_email_reply _ _ _ _ _).
Qed.
End Agents.

Section Examples.
(** The addresses of the examples are ASCII; [lower] is taken to be
    [Str.ascii_lower], with which every [lower] agrees on them. *)
#[local] Existing Instance Str.ascii_lower.

Lemma validate_email_new_then_existing_witness :
  let f := CRM.mkFile (Returned (JArr [CRMDemo.demo_lead "ann@example.org"]))
                      None in
  let r1 := validate_email (fun _ => "now")
              (mkPayload "Bob@Example.org" "Bob" "Hi" "hello") 0 f in
  fst (fst (validate_email (fun _ => "now")
              (mkPayload "bob@example.ORG" "Bob" "Hi" "again")
              (snd r1) (snd (fst r1))))
  = mkValidation true (JNum (inject_Z 2)) (JStr "new_lead") false.
Proof.
  intros f r1.
  destruct (@validate_email_new_then_existing Str.ascii_lower
              (fun _ => "now")
              (mkPayload "Bob@Example.org" "Bob" "Hi" "hello")
              (mkPayload "bob@example.ORG" "Bob" "Hi" "again") 0 f
              [CRMDemo.demo_lead "ann@example.org"]
              eq_refl eq_refl eq_refl eq_refl eq_refl)
    as (_ & _ & Hsecond & _).
  exact Hsecond.
Defined.

Lemma process_email_degrades_witness :
  exists s b l a,
    fst (demo_process (demo_email_data "zed@example.org")
           (demo_state (CRM.mkFile (Raised (Exn ValueError "Expecting value"))
                                   None)))
    = Processed "zed@example.org" s b (JStr "sales") JNull true JNull l a.
Proof.
  destruct (@process_email_degrades LLM.demo_host Str.ascii_lower
              demo_json_loads
              (fun _ => "intent") (fun _ _ _ => "reply") (list json)
              demo_write_log
              (fun n => "t" ++ CRM.str_int (Z.of_nat n))
              (fun n => "f" ++ CRM.str_int (Z.of_nat n))
              LLM.demo_manager_down
              (demo_email_data "zed@example.org")
              (demo_state (CRM.mkFile
                             (Raised (Exn ValueError "Expecting value"))
                             None)))
    as (_ & _ & Hok).
  destruct (Hok _ eq_refl eq_refl)
    as (p & s & b & i & ct & n & u & l & a & Hp & Hfrom & Hr & Hcrm & Hdown).
  injection Hp as <-.
  destruct Hcrm as (-> & -> & -> & _); [now eexists|].
  destruct Hdown as (-> & _); [intros prompt sp w; reflexivity|].
  exists s, b, l, a. exact Hr.
Defined.

Lemma logging_endpoints_always_fail_witness :
  @WebServerMore.process_email LLM.demo_host Str.ascii_lower demo_json_loads
     (fun _ => "intent")
     (fun _ _ _ => "reply") (list json) demo_write_log
     (fun n => "t" ++ CRM.str_int (Z.of_nat n))
     (fun n => "f" ++ CRM.str_int (Z.of_nat n))
     LLM.demo_manager_down [("email", [("from", "zed@example.org")])]
     (demo_state (CRM.mkFile (Returned (JArr [])) None))
  = (HTTPError _ 400 "Missing required field: name",
     demo_state (CRM.mkFile (Returned (JArr [])) None)).
Proof.
  destruct (@logging_endpoints_always_fail LLM.demo_host Str.ascii_lower
              demo_json_loads
              (fun _ => "intent") (fun _ _ _ => "reply") (list json)
              demo_write_log
              (fun n => "t" ++ CRM.str_int (Z.of_nat n))
              (fun n => "f" ++ CRM.str_int (Z.of_nat n))
              LLM.demo_manager_down) as (Hprocess & _).
  destruct (Hprocess [("email", [("from", "zed@example.org")])]
                     (demo_state (CRM.mkFile (Returned (JArr [])) None)))
    as (_ & Hmissing & _).
  apply (Hmissing [("from", "zed@example.org")] "name"); reflexivity.
Defined.

End Examples.

End WorkflowFacts.

(* ================================================================== *)
(** * Facts about the file logger *)

Module FileLoggerFacts.
Import FileLoggerMore.

(** X30.  [get_logs(lines)] returns the last [lines] lines of the log
    for a positive number, all of them when the log is not longer; for
    the number zero it returns the whole log, not the empty list; and
    for a negative number it returns the log without its first
    [-lines] lines. *)
Theorem get_logs_tail (lines : Z) (all_lines : list string) :
  let r := get_logs lines (Holds (Returned all_lines)) in
  (0 < lines ->
   r = skipn (List.length all_lines - Z.to_nat lines) all_lines
   /\ List.length r = Nat.min (Z.to_nat lines) (List.length all_lines))
  /\ (lines = 0 -> r = all_lines)
  /\ (lines < 0 -> r = skipn (Z.to_nat (- lines)) all_lines).
Proof.
  intros r. subst r. unfold get_logs, slice_from.
  split; [|split].
  - intros Hpos.
    destruct (Z.gtb_spec (Z.of_nat (List.length all_lines)) lines) as [Hgt|Hle].
    + destruct (Z.ltb_spec (- lines) 0) as [_|Hneg]; [|lia].
      replace (Z.to_nat (Z.max 0 (Z.of_nat (List.length all_lines) + - lines)))
        with (List.length all_lines - Z.to_nat lines)%nat by lia.
      split; [reflexivity|]. rewrite length_skipn. lia.
    + replace (List.length all_lines - Z.to_nat lines)%nat with 0%nat by lia.
      split; [reflexivity|]. simpl. lia.
  - intros ->.
    destruct (Z.gtb_spec (Z.of_nat (List.length all_lines)) 0);
      reflexivity.
  - intros Hneg.
    destruct (Z.gtb_spec (Z.of_nat (List.length all_lines)) lines) as [_|Hle];
      [|lia].
    destruct (Z.ltb_spec (- lines) 0); [lia | reflexivity].
Qed.

Lemma get_logs_tail_witness :
  get_logs 0 (Holds (Returned ["a"; "b"; "c"])) = ["a"; "b"; "c"]
  /\ get_logs 2 (Holds (Returned ["a"; "b"; "c"])) = ["b"; "c"].
Proof.
  destruct (get_logs_tail 0 ["a"; "b"; "c"]) as (_ & Hzero & _).
  destruct (get_logs_tail 2 ["a"; "b"; "c"]) as (Hpos & _).
  split; [now apply Hzero | apply Hpos; lia].
Defined.

End FileLoggerFacts.
